(** * Settlement engine of the chip-based tournament simulation

    A shallow embedding of the settlement code of [src/index.tsx] (the
    legacy format) and of its S15 variant (the second source file, which
    adds the optional [fixedYTopK] argument of [tierRun]): the rank-weight
    builder [buildMonotoneByPairs] and its five schedules, [rankBy],
    [tierRun], [decayAll], [runRegional] and [runWorlds]; and of the code
    around it: the utilities ([format2], [median], [clampInt],
    [createPlayers], [choiceIndexes], [choiceFromList]), the other events
    ([reset], [runCup], [runTPC], [runS15Regional48], in both formats),
    the parameter edits of [Controls], and what [PlayersPanel] and
    [ChangesMatrix] compute from the state.

    Numbers.  A JavaScript number is a binary64 float.  The code is
    embedded once, over an abstract number type [T] with the operations
    the source uses ([Number]), and instantiated twice:
    - at [Q], exact rational arithmetic, where the algebraic laws hold
      and the general theorems are proved;
    - at [float], Rocq's primitive binary64 numbers, where the very
      same definitions are run on concrete inputs to replay what the
      JavaScript engine computes bit for bit.
    Sums and products at [Q] never round.  The statements proved there
    about the code are those rounding leaves alone: the structure of a
    result, the order a sort produces, the expression each slot holds
    (written with the operations the code performs), signs and
    monotonicity.  Two statements are identities of exact arithmetic and
    say so, the conservation of a settlement and the composition of two
    decays; each comes with a binary64 run in which the two sides differ
    in the last digits.  A theorem stated for any number type holds of
    binary64 as it stands.

    Effects.  [Math.random] is an oracle [rand : nat -> T] (the sequence
    of its future results) together with a position in that sequence.
    The result [None] is a run the model does not follow to its end: a
    [TypeError] (reading a field of [undefined]), or the median of an
    empty array, which is NaN.  Both effects are threaded by the small
    monad [Eff].  The React state ([params], [players], [stage],
    [history]) is the record [Sim].

    The file has three parts: the program, the vocabulary of the
    statements, and the lemmas and theorems, grouped by operation. *)

From Stdlib Require Import ZArith QArith Qminmax Qround Qabs Lqa Lia List Permutation Sorted.
From Stdlib Require Import String Ascii PrimFloat Uint63 DecimalString FloatOps SpecFloat.
From stdpp Require Import base option list sorting.
Import ListNotations.

Set Default Proof Using "Type".

(* ====================================================================== *)
(** ** Numbers *)

(** The operations on numbers that the source uses. *)
Class Number (T : Type) : Type := {
  nadd : T -> T -> T;            (* a + b *)
  nsub : T -> T -> T;            (* a - b *)
  nmul : T -> T -> T;            (* a * b *)
  ndiv : T -> T -> T;            (* a / b *)
  nlt : T -> T -> bool;          (* a < b *)
  nle : T -> T -> bool;          (* a <= b *)
  nmin : T -> T -> T;            (* Math.min(a, b) *)
  nmax : T -> T -> T;            (* Math.max(a, b) *)
  truthy : T -> bool;            (* ToBoolean(a): false for 0 and NaN *)
  of_int : Z -> T;               (* an integer literal or counter *)
}.

Declare Scope js_scope.
Delimit Scope js_scope with js.
Infix "+!" := nadd (at level 50, left associativity) : js_scope.
Infix "-!" := nsub (at level 50, left associativity) : js_scope.
Infix "*!" := nmul (at level 40, left associativity) : js_scope.
Infix "/!" := ndiv (at level 40, left associativity) : js_scope.
Infix "<!" := nlt (at level 70, no associativity) : js_scope.
Infix "<=!" := nle (at level 70, no associativity) : js_scope.
Local Open Scope js_scope.

(** A decimal literal [n/d] with [d] a power of ten, such as [0.15] =
    [dec 15 100].  At [float] the correctly rounded quotient of the two
    integers is the binary64 value the literal denotes. *)
Definition dec `{Number T} (n d : Z) : T := of_int n /! of_int d.

(** [a || 0] on numbers. *)
Definition or_zero `{Number T} (a : option T) : T :=
  match a with
  | Some v => if truthy v then v else of_int 0
  | None => of_int 0
  end.

(** Exact rationals.  Division by zero is the one operation whose result
    differs in kind from the source's ([Infinity] or [NaN] there); every
    theorem that divides by a parameter assumes it is not zero. *)
#[export] Instance Q_number : Number Q | 0 := {|
  nadd := Qplus;
  nsub := Qminus;
  nmul := Qmult;
  ndiv := Qdiv;
  nlt a b := negb (Qle_bool b a);
  nle a b := Qle_bool a b;
  nmin a b := if Qle_bool a b then a else b;
  nmax a b := if Qle_bool a b then b else a;
  truthy a := negb (Qeq_bool a 0);
  of_int z := inject_Z z;
|}.

(** Binary64. *)
Module F64.

Definition of_int (z : Z) : float :=
  match z with
  | Zneg p => PrimFloat.opp (PrimFloat.of_uint63 (Uint63.of_Z (Zpos p)))
  | _ => PrimFloat.of_uint63 (Uint63.of_Z z)
  end.

Definition is_neg_zero (a : float) : bool :=
  match PrimFloat.classify a with FloatClass.NZero => true | _ => false end.

Definition min (a b : float) : float :=
  if PrimFloat.is_nan a then a else if PrimFloat.is_nan b then b
  else if PrimFloat.ltb b a then b
  else if PrimFloat.ltb a b then a
  else if is_neg_zero b then b else a.

Definition max (a b : float) : float :=
  if PrimFloat.is_nan a then a else if PrimFloat.is_nan b then b
  else if PrimFloat.ltb a b then b
  else if PrimFloat.ltb b a then a
  else if is_neg_zero a then b else a.

Definition truthy (a : float) : bool :=
  PrimFloat.ltb a PrimFloat.zero || PrimFloat.ltb PrimFloat.zero a.

End F64.

#[export] Instance float_number : Number float | 10 := {|
  nadd := PrimFloat.add;
  nsub := PrimFloat.sub;
  nmul := PrimFloat.mul;
  ndiv := PrimFloat.div;
  nlt := PrimFloat.ltb;
  nle := PrimFloat.leb;
  nmin := F64.min;
  nmax := F64.max;
  truthy := F64.truthy;
  of_int := F64.of_int;
|}.

(* ====================================================================== *)
(** ** Effects: the random source and thrown errors *)

(** A computation reads [Math.random] results from position [s] on and
    either stops ([None]) or returns a value and the next position. *)
Definition Eff (A : Type) : Type := nat -> option (A * nat).

Definition ret {A} (a : A) : Eff A := fun s => Some (a, s).
Definition throw {A} : Eff A := fun _ => None.
Definition bind {A B} (m : Eff A) (k : A -> Eff B) : Eff B :=
  fun s => match m s with
           | Some (a, s') => k a s'
           | None => None
           end.
(** [o.f] where [o] may be [undefined]. *)
Definition defined {A} (o : option A) : Eff A :=
  match o with Some a => ret a | None => throw end.

Notation "'let*' p ':=' m 'in' k" := (bind m (fun p => k))
  (at level 10, p pattern, m at level 100, k at level 200,
   format "'[v' 'let*'  p  ':='  m  'in' '/' k ']'").

Fixpoint mapE {A B} (f : A -> Eff B) (l : list A) : Eff (list B) :=
  match l with
  | [] => ret []
  | a :: l' => let* b := f a in let* bs := mapE f l' in ret (b :: bs)
  end.

(* ====================================================================== *)
(** ** Arrays *)

Section Arrays.
Context {A : Type}.

(** [arr.sort(cmp)]: the specification makes the sort stable, and for a
    comparator that is a total preorder the stable sorted array is unique;
    it is computed here by insertion from the right.  [before a b] says
    [cmp(a, b) < 0] (a sorts strictly before b). *)
Fixpoint sort_insert (before : A -> A -> bool) (x : A) (l : list A) : list A :=
  match l with
  | [] => [x]
  | y :: l' => if before y x then y :: sort_insert before x l' else x :: l
  end.

Definition js_sort (before : A -> A -> bool) (l : list A) : list A :=
  foldr (sort_insert before) [] l.

(** [arr.findIndex(pred)]: [None] stands for the result [-1]. *)
Definition findIndex (P : A -> Prop) `{forall x, Decision (P x)} (l : list A) : option nat :=
  fst <$> list_find P l.

(** [arr[i] = x] where [i] is a [findIndex] result.  For [-1] the
    assignment creates a property named "-1" and leaves the elements and
    the length alone.  (An index past the end would extend the array; an
    index found by [findIndex] is inside it.) *)
Definition set_found (i : option nat) (x : A) (l : list A) : list A :=
  match i with Some i => <[i:=x]> l | None => l end.

(** [arr[i] = x] for an integer [i].  The writes of the weight builder
    have [0 <= i < length] ([band_writes_in_range]). *)
Definition set_at (i : Z) (x : A) (l : list A) : list A :=
  if (0 <=? i)%Z then <[Z.to_nat i:=x]> l else l.

End Arrays.

(** [arr[i]] for a read the code performs inside the array. *)
Definition get `{Number T} (l : list T) (i : nat) : T := default (of_int 0) (l !! i).

(** [arr.reduce((a, b) => a + b, 0)]. *)
Definition sum `{Number T} (l : list T) : T := fold_left nadd l (of_int 0).

(* ====================================================================== *)
(** ** The engine, over any [Number] *)

Section Engine.
Context {T : Type} `{NT : Number T}.

(** function rankBy(values): [order] lists the slots by decreasing value,
    [ranks[slot]] is the 1-based rank; [new Array(n)] starts as [n] holes
    ([None]). *)
Definition rankBy (values : list T) : list nat * list (option nat) :=
  let order :=
    (js_sort (fun a b => (b.1 -! a.1) <! of_int 0) (imap (fun i v => (v, i)) values)).*2 in
  let ranks :=
    fold_left (fun ranks kp => <[kp.2 := Some (kp.1 + 1)%nat]> ranks)
              (imap (fun k pid => (k, pid)) order)
              (replicate (length values) None) in
  (order, ranks).

(** *** Monotone-by-pairs weight builder *)

Record Band : Type := mkBand { start : Z; end_ : Z; total : T }.

(** [Math.min(prevTail, x)] where [prevTail] may be [Infinity] ([None]). *)
Definition min_cap (prevTail : option T) (x : T) : T :=
  match prevTail with Some t => nmin t x | None => x end.

(** The pair loop [for (let k = 1; k <= p; k++)] of one band. *)
Definition ramp (e : Z) (safeA safeB : T) (p : Z) (w : list T) : list T :=
  fold_left
    (fun w k =>
       let T_k := safeA +! safeB *! of_int k in
       let per := T_k /! of_int 2 in
       let r1 := (e - (k - 1) * 2 - 1)%Z in
       let r2 := (r1 + 1)%Z in
       set_at (r2 - 1) per (set_at (r1 - 1) per w))
    (map Z.of_nat (seq 1 (Z.to_nat p))) w.

(** One iteration of [for (const b of bands)]; the state is the array [w]
    and [prevTail]. *)
Definition band_step (N : nat) (st : list T * option T) (b : Band) : list T * option T :=
  let '(w, prevTail) := st in
  let s := Z.max 1 (start b) in
  let e := Z.min (end_ b) (Z.of_nat N) in
  let m := (e - s + 1)%Z in
  if (m <=? 0)%Z then st else
  let m := if negb (m mod 2 =? 0)%Z then (m - 1)%Z else m in
  let p := (m / 2)%Z in
  let S := total b in
  if (p <=? 0)%Z then st else
  let unconstrainedHeadPP := S /! of_int (p + 1) in
  let headPP := min_cap prevTail unconstrainedHeadPP in
  let headPair := headPP *! of_int 2 in
  if (p =? 1)%Z then
    let per := S /! of_int 2 in
    let r1 := (e - 1)%Z in
    let r2 := e in
    (set_at (r2 - 1) per (set_at (r1 - 1) per w), Some per)
  else
    let denom := of_int (p * (1 - p)) /! of_int 2 in
    let B := (S -! of_int p *! headPair) /! denom in
    let A := headPair -! B *! of_int p in
    let safeA := if A <! dec (-1) (10 ^ 12) then of_int 0 else A in
    let safeB := if B <! dec (-1) (10 ^ 12) then of_int 0 else B in
    let w' := ramp e safeA safeB p w in
    (w', Some (get w' (Z.to_nat (e - 1)))).

Definition buildMonotoneByPairs (N : nat) (top1 top2 : T) (bands : list Band) : list T :=
  let w := replicate N (of_int 0) in
  let w := if (1 <=? N)%nat then <[0%nat := top1]> w else w in
  let w := if (2 <=? N)%nat then <[1%nat := top2]> w else w in
  let prevTail := if (2 <=? N)%nat then Some (get w 1) else None in
  (fold_left (band_step N) bands (w, prevTail)).1.

Definition weightsCup (N : nat) : list T :=
  buildMonotoneByPairs N (dec 15 100) (dec 9 100)
    [ mkBand 3 4 (dec 12 100); mkBand 5 8 (dec 16 100); mkBand 9 16 (dec 16 100);
      mkBand 17 32 (dec 16 100); mkBand 33 64 (dec 16 100) ].

Definition weightsReg (N : nat) : list T :=
  buildMonotoneByPairs N (dec 20 100) (dec 12 100)
    [ mkBand 3 4 (dec 16 100); mkBand 5 8 (dec 20 100); mkBand 9 16 (dec 32 100) ].

Definition weightsWorld (N : nat) : list T :=
  buildMonotoneByPairs N (dec 16 100) (dec 10 100)
    [ mkBand 3 4 (dec 14 100); mkBand 5 8 (dec 20 100); mkBand 9 16 (dec 24 100);
      mkBand 17 32 (dec 16 100) ].

Definition weightsReg48 (N : nat) : list T :=
  buildMonotoneByPairs N (dec 15 100) (dec 9 100)
    [ mkBand 3 4 (dec 14 100); mkBand 5 8 (dec 20 100); mkBand 9 16 (dec 25 100);
      mkBand 17 32 (dec 17 100) ].

Definition weightsTPC (N : nat) : list T :=
  buildMonotoneByPairs N (dec 18 100) (dec 11 100)
    [ mkBand 3 4 (dec 16 100); mkBand 5 8 (dec 19 100); mkBand 9 16 (dec 36 100) ].

(** *** Randomness *)

(** [Math.random()]: the next element of the oracle sequence. *)
Definition Math_random (rand : nat -> T) : Eff T := fun s => Some (rand s, S s).

Definition normalLike (rand : nat -> T) : Eff T :=
  let* a := Math_random rand in
  let* b := Math_random rand in
  let* c := Math_random rand in
  ret ((a -! dec 5 10) +! (b -! dec 5 10) +! (c -! dec 5 10)).

(** *** Single-event settlement *)

Record Player : Type := mkPlayer { id : Z; skill : T; chips : T }.

Record TierResult : Type := mkTierResult {
  order : list nat;
  ranks : list (option nat);
  deltas : list T;
  pool : T;
  fees : list T;
  payouts : list T;
  sharePool : list T;
  fixedY : list T;
}.

(** [Math.ceil(N / 2)]. *)
Definition ceil_half (N : nat) : nat := ((N + 1) / 2)%nat.

(** The fixed bonus of rank [r], legacy format:
    [giveYToTopHalf ? (topHalf ? y : 0) : y]. *)
Definition fixed_legacy (N : nat) (y : T) (giveYToTopHalf : bool) (r : nat) : T :=
  let topHalf := (r <=? ceil_half N)%nat in
  if giveYToTopHalf then (if topHalf then y else of_int 0) else y.

(** The fixed bonus of rank [r], S15 format: [fixedYTopK] is an optional
    argument, [None] when it is absent ([fixedYTopK != null] fails). *)
Definition fixed_topK (N : nat) (y : T) (giveYToTopHalf : bool) (fixedYTopK : option T)
    (r : nat) : T :=
  let topHalf := (r <=? ceil_half N)%nat in
  let withinTopK :=
    match fixedYTopK with
    | Some K => of_int (Z.of_nat r) <=! K
    | None => topHalf
    end in
  if giveYToTopHalf then (if withinTopK then y else of_int 0) else y.

(** The loop [for (let r = 1; r <= N; r++)] over the three result arrays
    [(payouts, sharePool, fixedY)]; [fixedOf r] is the value of [fixed]. *)
Definition settle_rank (ranks : list (option nat)) (weights : list T) (pool : T)
    (fixedOf : nat -> T) (acc : list T * list T * list T) (r : nat)
    : list T * list T * list T :=
  let '(payouts, sharePool, fixedY) := acc in
  let idxInParticipants := findIndex (fun rr => rr = Some r) ranks in
  let share := or_zero (weights !! (r - 1)%nat) *! pool in
  let fixed := fixedOf r in
  (set_found idxInParticipants (share +! fixed) payouts,
   set_found idxInParticipants share sharePool,
   set_found idxInParticipants fixed fixedY).

Definition settle (N : nat) (ranks : list (option nat)) (weights : list T) (pool : T)
    (fixedOf : nat -> T) : list T * list T * list T :=
  fold_left (settle_rank ranks weights pool fixedOf) (seq 1 N)
            (replicate N (of_int 0), replicate N (of_int 0), replicate N (of_int 0)).

(** [playersIdx.forEach((pi, j) => { players[pi].chips += deltas[j]; })] *)
Definition apply_deltas (playersIdx : list nat) (deltas : list T) (players : list Player)
    : list Player :=
  fold_left
    (fun players jp =>
       alter (fun p => mkPlayer (id p) (skill p) (chips p +! get deltas jp.1)) jp.2 players)
    (imap (fun j pi => (j, pi)) playersIdx) players.

(** The body shared by the two versions of [tierRun], which differ only
    in the expression for [fixed].  The result pairs the returned record
    with the roster after the in-place update of [players]. *)
Definition tierRun_body (fixedOf : nat -> nat -> T) (rand : nat -> T)
    (playersIdx : list nat) (players : list Player) (z : T) (weights : list T)
    : Eff (TierResult * list Player) :=
  let N := length playersIdx in
  let* perf := mapE (fun pi => let* p := defined (players !! pi) in
                               let* n := normalLike rand in
                               ret (skill p +! n)) playersIdx in
  let '(order, ranks) := rankBy perf in
  let* fees := mapE (fun pi => let* p := defined (players !! pi) in
                               ret (chips p /! z)) playersIdx in
  let pool := sum fees in
  let '(payouts, sharePool, fixedY) := settle N ranks weights pool (fixedOf N) in
  let deltas := imap (fun j p => p -! get fees j) payouts in
  let players := apply_deltas playersIdx deltas players in
  ret (mkTierResult order ranks deltas pool fees payouts sharePool fixedY, players).

(** [tierRun] of the legacy format ([src/index.tsx]). *)
Definition tierRun_legacy (rand : nat -> T) (playersIdx : list nat) (players : list Player)
    (z y : T) (weights : list T) (giveYToTopHalf : bool) : Eff (TierResult * list Player) :=
  tierRun_body (fun N => fixed_legacy N y giveYToTopHalf) rand playersIdx players z weights.

(** [tierRun] of the S15 format, with the optional [fixedYTopK]. *)
Definition tierRun (rand : nat -> T) (playersIdx : list nat) (players : list Player)
    (z y : T) (weights : list T) (giveYToTopHalf : bool) (fixedYTopK : option T)
    : Eff (TierResult * list Player) :=
  tierRun_body (fun N => fixed_topK N y giveYToTopHalf fixedYTopK)
               rand playersIdx players z weights.

(** *** The simulation state and the event orchestrator *)

(** The configuration read by the operations embedded here (the other
    fee divisors and bonuses belong to events that are not). *)
Record Config : Type := mkConfig {
  x0 : T;
  z_cup : T; y_cup : T;
  z_reg : T; y_reg : T;
  z_world : T; y_world : T;
  decay_pct : T;
}.

Record Sizes : Type := mkSizes {
  population : nat; cupSlots : nat; reg : nat; world : nat; ourWorldQuota : nat;
}.

Definition FIXED_SIZES : Sizes := mkSizes 256 128 32 48 12.

(** One line of the table recorded with an event. *)
Record Row : Type := mkRow {
  row_name : string;
  row_playerId : Z;
  row_rank : option nat;
  row_fee : T;
  row_y : T;
  row_share : T;
  row_payout : T;
  row_delta : T;
  row_newChips : option T;
}.

(** The records appended to [history], by their [type] tag:
    [{ type: "decay", factor, pct }] for the decay,
    [{ type, idxs, rows, ...res }] for an event settled on the roster (the
    tag is ["regional"] for the Regionals), and
    [{ type: "worlds", ourLocal, allIdxs, order, ranks, deltas, pool, rows }]. *)
Inductive Event : Type :=
| EvDecay (factor pct : T)
| EvTier (type : string) (idxs : list nat) (rows : list Row) (res : TierResult)
| EvWorlds (ourLocal : list nat) (allIdxs : list Z) (order : list nat)
           (ranks : list (option nat)) (deltas : list T) (pool : T) (rows : list Row).

Definition ev_type (e : Event) : string :=
  match e with
  | EvDecay _ _ => "decay"
  | EvTier type _ _ _ => type
  | EvWorlds _ _ _ _ _ _ _ => "worlds"
  end.

(** [e.idxs] and [e.ranks]; [None] for a record without the field. *)
Definition ev_idxs (e : Event) : option (list nat) :=
  match e with EvTier _ idxs _ _ => Some idxs | _ => None end.

Definition ev_ranks (e : Event) : option (list (option nat)) :=
  match e with
  | EvTier _ _ _ res => Some (ranks res)
  | EvWorlds _ _ _ ranks _ _ _ => Some ranks
  | EvDecay _ _ => None
  end.

Record Sim : Type := mkSim {
  params : Config;
  players : list Player;
  stage : string;
  history : list Event;
}.

(** [`P${n}`] and [`EXT${n}`]. *)
Definition label (prefix : string) (n : Z) : string :=
  String.append prefix (NilZero.string_of_int (Z.to_int n)).

Definition median (arr : list T) : option T :=
  let a := js_sort (fun x y => (x -! y) <! of_int 0) arr in
  let m := (length a / 2)%nat in
  match a with
  | [] => None   (* (undefined + undefined) / 2 is NaN *)
  | _ => Some (if negb (length a mod 2 =? 0)%nat then get a m
               else (get a (m - 1) +! get a m) /! of_int 2)
  end.

(** const decayAll *)
Definition decayAll (st : Sim) : Sim :=
  let pct := nmax (of_int 0) (nmin (of_int 100) (or_zero (Some (decay_pct (params st))))) in
  let factor := of_int 1 -! pct /! of_int 100 in
  mkSim (params st)
        (map (fun p => mkPlayer (id p) (skill p) (nmax (of_int 0) (chips p *! factor)))
             (players st))
        "decay"
        (history st ++ [EvDecay factor pct]).

(** const topByChips *)
Definition topByChips (players : list Player) (k : nat) : list nat :=
  (take k (js_sort (fun a b => (b.2 -! a.2) <! of_int 0)
                   (imap (fun i p => (i, chips p)) players))).*1.

(** [.sort((a, b) => a.rank - b.rank)] on rows; a missing rank makes the
    difference NaN, which is not negative. *)
Definition rank_before (a b : Row) : bool :=
  match row_rank a, row_rank b with
  | Some x, Some y => (x <? y)%nat
  | _, _ => false
  end.

(** const runRegional *)
Definition runRegional (rand : nat -> T) (st : Sim) : Eff Sim :=
  let idxs := topByChips (players st) (reg FIXED_SIZES) in
  let w := weightsReg (length idxs) in
  let next := players st in
  let* (res, next) := tierRun_legacy rand idxs next (z_reg (params st)) (y_reg (params st)) w false in
  let* rows := mapE (fun jp : nat * nat =>
                   let* p := defined (next !! jp.2) in
                   ret (mkRow (label "P" (Z.of_nat jp.2 + 1)) (Z.of_nat jp.2)
                              (mjoin (ranks res !! jp.1))
                              (get (fees res) jp.1) (get (fixedY res) jp.1)
                              (get (sharePool res) jp.1) (get (payouts res) jp.1)
                              (get (deltas res) jp.1) (Some (chips p))))
                (imap (fun j pi => (j, pi)) idxs) in
  let rows := js_sort rank_before rows in
  ret (mkSim (params st) next "regional" (history st ++ [EvTier "regional" idxs rows res])).

(** The loop [for (let i = 0; i < extN; i++)] of [runWorlds], pushing one
    synthetic entrant onto [(allIdxs, allSkill, allChips)]. *)
Fixpoint push_externals (rand : nat -> T) (medSkill medChips : T) (extN : nat)
    (acc : list Z * list T * list T) : Eff (list Z * list T * list T) :=
  match extN with
  | O => ret acc
  | S extN' =>
      let '(allIdxs, allSkill, allChips) := acc in
      let* n := normalLike rand in
      push_externals rand medSkill medChips extN'
        (allIdxs ++ [(-1)%Z], allSkill ++ [medSkill +! n *! dec 8 10], allChips ++ [medChips])
  end.

(** [fakePlayers.forEach((fp, k) => { const gid = allIdxs[k];
      if (gid >= 0) next[gid].chips = fp.chips; })] *)
Definition write_back (allIdxs : list Z) (fakePlayers next : list Player) : list Player :=
  fold_left
    (fun next kfp =>
       match allIdxs !! kfp.1 with
       | Some gid =>
           if (0 <=? gid)%Z
           then alter (fun p => mkPlayer (id p) (skill p) (chips kfp.2)) (Z.to_nat gid) next
           else next
       | None => next
       end)
    (imap (fun k fp => (k, fp)) fakePlayers) next.

(** [wReg[r - 1] || 0] for a recorded rank [r] (a hole or rank 0 reads
    outside the array). *)
Definition rank_weight (w : list T) (r : option nat) : T :=
  match r with
  | Some (S k) => or_zero (w !! k)
  | _ => of_int 0
  end.

(** The qualifier selection of [runWorlds]: the point score of every
    slot of the last Regional, and the slots in descending point order. *)
Definition regPoints (regIdxs : list nat) (regRanks : list (option nat)) : list T :=
  let wReg := weightsReg (length regIdxs) in
  (fun r => rank_weight wReg r *! of_int 100) <$> regRanks.

Definition regOrder (regIdxs : list nat) (regRanks : list (option nat)) : list nat :=
  (js_sort (fun a b => (b.2 -! a.2) <! of_int 0)
           (imap (fun j v => (j, v)) (regPoints regIdxs regRanks))).*1.

(** The field of [runWorlds], from the last Regional to [fakePlayers]:
    the result is [(ourLocal, allIdxs, fakePlayers)]. *)
Definition worldsField (rand : nat -> T) (players : list Player)
    (regIdxs : list nat) (regRanks : list (option nat))
    : Eff (list nat * list Z * list Player) :=
  let quota := ourWorldQuota FIXED_SIZES in
  let* ourLocal := mapE (fun j => defined (regIdxs !! j))
                        (take quota (regOrder regIdxs regRanks)) in
  let extN := (world FIXED_SIZES - length ourLocal)%nat in
  let* ourPlayers := mapE (fun pi => defined (players !! pi)) ourLocal in
  let* medSkill := defined (median (skill <$> ourPlayers)) in
  let* medChips := defined (median (chips <$> ourPlayers)) in
  let* (allIdxs, allSkill, allChips) :=
    push_externals rand medSkill medChips extN
      (Z.of_nat <$> ourLocal, skill <$> ourPlayers, chips <$> ourPlayers) in
  let fakePlayers :=
    imap (fun k id => mkPlayer id (get allSkill k) (get allChips k)) allIdxs in
  ret (ourLocal, allIdxs, fakePlayers).

(** The table of the Worlds record. *)
Definition worldsRows (allIdxs : list Z) (res : TierResult) (fakePlayers next : list Player)
    : list Row :=
  imap (fun pos k =>
          let gid := default 0%Z (allIdxs !! k) in
          let isExt := (gid <? 0)%Z in
          mkRow (if isExt then label "EXT" (Z.of_nat pos + 1) else label "P" (gid + 1))
                gid (Some (pos + 1)%nat)
                (get (fees res) k) (get (fixedY res) k) (get (sharePool res) k)
                (get (payouts res) k) (get (deltas res) k)
                (if isExt then chips <$> fakePlayers !! k
                 else chips <$> next !! Z.to_nat gid))
       (order res).

(** const runWorlds *)
Definition runWorlds (rand : nat -> T) (st : Sim) : Eff Sim :=
  match List.find (fun e => String.eqb (ev_type e) "regional") (rev (history st)) with
  | None => ret st
  | Some lastReg =>
      let* regIdxs := defined (ev_idxs lastReg) in
      let* regRanks := defined (ev_ranks lastReg) in
      let* (ourLocal, allIdxs, fakePlayers) :=
        worldsField rand (players st) regIdxs regRanks in
      let N := length allIdxs in
      let w := weightsWorld N in
      let* (res, fakePlayers) :=
        tierRun_legacy rand (imap (fun k _ => k) fakePlayers) fakePlayers
                       (z_world (params st)) (y_world (params st)) w false in
      let next := write_back allIdxs fakePlayers (players st) in
      let rows := worldsRows allIdxs res fakePlayers next in
      ret (mkSim (params st) next "worlds"
                 (history st ++ [EvWorlds ourLocal allIdxs (order res) (ranks res)
                                          (deltas res) (pool res) rows]))
  end.

End Engine.

(* ====================================================================== *)
(** ** Rounding

    [Math.floor] and [Math.round], which the utilities around the engine
    use, and the reading of a number as an array index.  At [Q] they are
    exact; at [float] they are computed from the mantissa and exponent of
    the binary64 value. *)

Class Rounding (T : Type) : Type := {
  Math_floor : T -> T;           (* Math.floor(a) *)
  Math_round : T -> T;           (* Math.round(a): to the nearest integer, a tie upwards *)
  to_int : T -> option Z;        (* the integer a number is, if it is one: the j of a[j] *)
}.

#[export] Instance Q_rounding : Rounding Q | 0 := {|
  Math_floor a := inject_Z (Qfloor a);
  Math_round a := inject_Z (Qfloor (a + (1 # 2)));
  to_int a := if Qeq_bool a (inject_Z (Qfloor a)) then Some (Qfloor a) else None;
|}.

Module F64Rounding.

(** A finite binary64 value is [(-1)^s * m * 2^e]; for [e >= 0] it is an
    integer already. *)
Definition floor (a : float) : float :=
  match Prim2SF a with
  | S754_finite s m e =>
      if (0 <=? e)%Z then a else
      let d := (2 ^ (- e))%Z in
      F64.of_int (if s then - ((Zpos m + d - 1) / d) else Zpos m / d)%Z
  | _ => a
  end.

Definition round (a : float) : float :=
  match Prim2SF a with
  | S754_finite s m e =>
      if (0 <=? e)%Z then a else
      let d := (2 ^ (- e))%Z in
      let q := ((2 * (if s then Zneg m else Zpos m) + d) / (2 * d))%Z in
      if (q =? 0)%Z then (if s then PrimFloat.opp PrimFloat.zero else PrimFloat.zero)
      else F64.of_int q
  | _ => a
  end.

Definition to_int (a : float) : option Z :=
  match Prim2SF a with
  | S754_zero _ => Some 0%Z
  | S754_finite s m e =>
      let v := if s then Zneg m else Zpos m in
      if (0 <=? e)%Z then Some (v * 2 ^ e)%Z
      else let d := (2 ^ (- e))%Z in
           if (v mod d =? 0)%Z then Some (v / d)%Z else None
  | _ => None
  end.

End F64Rounding.

#[export] Instance float_rounding : Rounding float | 10 := {|
  Math_floor := F64Rounding.floor;
  Math_round := F64Rounding.round;
  to_int := F64Rounding.to_int;
|}.

(* ====================================================================== *)
(** ** The utilities and the other events

    The rest of the component: the utilities [format2], [clampInt],
    [createPlayers], [choiceIndexes] and [choiceFromList]; the events
    [reset], [runCup], [runTPC] and [runS15Regional48] with
    [getProIdxsFromLastRegional32]; the edits of the parameters in
    [Controls]; and what [PlayersPanel] and [ChangesMatrix] compute from the
    state.  The events that run several settlements inside one [async]
    function ([runCupsPhase], [runTPCPhase], [runS15CupsPhase], [autoPlay],
    [runS15Auto]) are not embedded.

    The records [EvTier] keeps of an event are its [type], [idxs], [rows]
    and the settlement result; the fields [cupIndex], [tpcRound], [proIdxs]
    and [cupTop16], which nothing embedded here reads back, are not kept. *)

Section Utilities.
Context {T : Type} `{NT : Number T} `{RT : Rounding T}.

(** function format2(num) *)
Definition format2 (num : T) : T := Math_round (num *! of_int 100) /! of_int 100.

(** function clampInt(v, min, max) *)
Definition clampInt (v min max : T) : T :=
  nmax min (nmin max (Math_round (or_zero (Some v)))).

(** function createPlayers(n, x0) *)
Definition createPlayers (rand : nat -> T) (n : nat) (x0 : T) : Eff (list Player) :=
  mapE (fun id => let* sk := normalLike rand in ret (mkPlayer (Z.of_nat id) sk x0))
       (seq 0 n).

Fixpoint foldE {A B} (f : A -> B -> Eff A) (l : list B) (a : A) : Eff A :=
  match l with
  | [] => ret a
  | b :: l' => let* a' := f a b in foldE f l' a'
  end.

(** One round of the shuffle loop:
    [const j = Math.floor(Math.random() * (i + 1)); [a[i], a[j]] = [a[j], a[i]];].
    [Math.random()] is in [0, 1), which puts [j] in [0..i]; the model does
    not follow a run in which [j] is not an index of the array. *)
Definition swap_random {A} (rand : nat -> T) (a : list A) (i : nat) : Eff (list A) :=
  let* r := Math_random rand in
  match to_int (Math_floor (r *! of_int (Z.of_nat i + 1))) with
  | Some j =>
      match a !! i, (if (0 <=? j)%Z then a !! Z.to_nat j else None) with
      | Some ai, Some aj => ret (<[Z.to_nat j := ai]> (<[i := aj]> a))
      | _, _ => throw
      end
  | None => throw
  end.

(** The loop [for (let i = a.length - 1; i > 0; i--)] that
    [choiceIndexes] and [choiceFromList] share. *)
Definition shuffle {A} (rand : nat -> T) (a : list A) : Eff (list A) :=
  foldE (swap_random rand) (rev (seq 1 (length a - 1))) a.

(** function choiceIndexes(n, k) *)
Definition choiceIndexes (rand : nat -> T) (n k : nat) : Eff (list nat) :=
  let* a := shuffle rand (seq 0 n) in ret (take k a).

(** function choiceFromList(list, k) *)
Definition choiceFromList {A} (rand : nat -> T) (l : list A) (k : nat) : Eff (list A) :=
  let* a := shuffle rand l in ret (take k a).

(** The table recorded with an event settled on the roster:
    [idxs.map((pi, j) => ({ name: `P${pi+1}`, playerId: pi, rank: res.ranks[j],
       ..., newChips: next[pi].chips })).sort((a, b) => a.rank - b.rank)]. *)
Definition rosterRows (idxs : list nat) (res : TierResult) (next : list Player)
    : Eff (list Row) :=
  let* rows := mapE (fun jp : nat * nat =>
                   let* p := defined (next !! jp.2) in
                   ret (mkRow (label "P" (Z.of_nat jp.2 + 1)) (Z.of_nat jp.2)
                              (mjoin (ranks res !! jp.1))
                              (get (fees res) jp.1) (get (fixedY res) jp.1)
                              (get (sharePool res) jp.1) (get (payouts res) jp.1)
                              (get (deltas res) jp.1) (Some (chips p))))
                (imap (fun j pi => (j, pi)) idxs) in
  ret (js_sort rank_before rows).

(** const reset *)
Definition reset (rand : nat -> T) (st : Sim) : Eff Sim :=
  let* players := createPlayers rand (population FIXED_SIZES) (x0 (params st)) in
  ret (mkSim (params st) players "idle" []).

(** const runCup.  The record is [{ type: "cup", cupIndex, idxs, rows, ...res }];
    [cupIndex] is kept in the stage name. *)
Definition runCup (rand : nat -> T) (cupIndex : Z) (st : Sim) : Eff Sim :=
  let n := cupSlots FIXED_SIZES in
  let* idxs := choiceIndexes rand (length (players st)) n in
  let w := weightsCup n in
  let giveYToTopHalf := true in
  let next := players st in
  let* (res, next) :=
    tierRun_legacy rand idxs next (z_cup (params st)) (y_cup (params st)) w giveYToTopHalf in
  let* rows := rosterRows idxs res next in
  ret (mkSim (params st) next (label "cup" cupIndex)
             (history st ++ [EvTier "cup" idxs rows res])).

(** const getProIdxsFromLastRegional32; spreading a missing [idxs] would
    be a TypeError. *)
Definition getProIdxsFromLastRegional32 (st : Sim) : Eff (list nat) :=
  match List.find (fun e => String.eqb (ev_type e) "regional"
                            && match ev_idxs e with
                               | Some idxs => (length idxs =? 32)%nat
                               | None => false
                               end)
                  (rev (history st)) with
  | Some lastReg32 => defined (ev_idxs lastReg32)
  | None => ret (topByChips (players st) (reg FIXED_SIZES))
  end.

(** The two fields of [params] that only the TPC rounds read. *)
Record ParamsTPC : Type := mkParamsTPC { z_tpc : T; y_tpc : T }.

(** const runTPC.  The record is
    [{ type: "tpc", tpcRound, idxs: proIdxs, rows, ...res }]; [tpcRound] is
    kept in the stage name. *)
Definition runTPC (rand : nat -> T) (tpc : ParamsTPC) (tpcRound : Z) (st : Sim) : Eff Sim :=
  let* proIdxs := getProIdxsFromLastRegional32 st in
  let w := weightsTPC (length proIdxs) in
  let next := players st in
  let* (res, next) :=
    tierRun_legacy rand proIdxs next (z_tpc tpc) (y_tpc tpc) w false in
  let* rows := rosterRows proIdxs res next in
  ret (mkSim (params st) next (label "tpc" tpcRound)
             (history st ++ [EvTier "tpc" proIdxs rows res])).

(** The sixteen richest players outside [proIdxs], in [runS15Regional48]. *)
Definition nonProTop16 (players : list Player) (proIdxs : list nat) : Eff (list nat) :=
  let nonProIdxs :=
    List.filter (fun i => negb (bool_decide (i ∈ proIdxs))) (imap (fun i _ => i) players) in
  let* withChips := mapE (fun i => let* p := defined (players !! i) in ret (i, chips p))
                         nonProIdxs in
  ret (take 16 (js_sort (fun a b => (b.2 -! a.2) <! of_int 0) withChips)).*1.

(** The body of [runS15Regional48], which the two source files share up to
    the fee divisor and the bonus they read from [params].  The record is
    [{ type: "s15_regional", proIdxs, cupTop16, idxs, rows, ...res }], where
    [idxs] is [proIdxs] followed by [cupTop16]. *)
Definition regional48 (rand : nat -> T) (z y : T) (st : Sim) : Eff Sim :=
  let* proIdxs := getProIdxsFromLastRegional32 st in
  let* top16 := nonProTop16 (players st) proIdxs in
  let idxs := proIdxs ++ top16 in
  let w := weightsReg48 (length idxs) in
  let next := players st in
  let* (res, next) := tierRun_legacy rand idxs next z y w false in
  let* rows := rosterRows idxs res next in
  ret (mkSim (params st) next "s15_regional"
             (history st ++ [EvTier "s15_regional" idxs rows res])).

(** const runS15Regional48 of the legacy format: [z: params.z_reg, y: params.y_reg]. *)
Definition runS15Regional48 (rand : nat -> T) (st : Sim) : Eff Sim :=
  regional48 rand (z_reg (params st)) (y_reg (params st)) st.

(** [PlayersPanel]: the roster in display order,
    [[...players].sort((a, b) => b.chips - a.chips)]; the first
    [highlightCount] entries get the green frame. *)
Definition PlayersPanel_sorted (players : list Player) : list Player :=
  js_sort (fun a b => (chips b -! chips a) <! of_int 0) players.

(** [ChangesMatrix]: the cell of player [pid] for one history record,
    [None] standing for the "—" shown for [null] and [undefined]. *)
Definition ChangesMatrix_delta (pid : nat) (ev : Event) : option T :=
  if String.eqb (ev_type ev) "worlds" then
    match ev with
    | EvWorlds _ allIdxs _ _ deltas _ _ =>
        k ← findIndex (fun gid => gid = Z.of_nat pid) allIdxs; deltas !! k
    | _ => None
    end
  else
    match ev with
    | EvTier _ idxs _ res => k ← findIndex (fun i => i = pid) idxs; deltas res !! k
    | _ => None
    end.

(** The [params] of the legacy format: the fields of [Config] and the two
    fields that only the TPC rounds read. *)
Record LegacyParams : Type := mkLegacyParams {
  legacy_general : Config (T:=T);
  legacy_tpc : ParamsTPC;
}.

(** const DEFAULT_PARAMS of the legacy format *)
Definition DEFAULT_PARAMS : LegacyParams :=
  mkLegacyParams
    (mkConfig (of_int 100) (of_int 8) (of_int 50) (of_int 4) (of_int 100) (of_int 3)
              (of_int 400) (of_int 10))
    (mkParamsTPC (of_int 5) (of_int 80)).

(** The nine number fields of the legacy [Controls]. *)
Inductive Field : Type :=
| Field_z_cup | Field_y_cup | Field_z_reg | Field_y_reg
| Field_z_world | Field_y_world | Field_z_tpc | Field_y_tpc | Field_decay_pct.

(** The [onChange] handler of a number field:
    [(v) => setParams((p) => ({ ...p, z_cup: clampInt(v, 2, 20) }))] and its
    siblings, as a function from the old [params] to the new. *)
Definition Controls_onChange (f : Field) (v : T) (p : LegacyParams) : LegacyParams :=
  let g := legacy_general p in
  let t := legacy_tpc p in
  match f with
  | Field_z_cup =>
      mkLegacyParams
        (mkConfig (x0 g) (clampInt v (of_int 2) (of_int 20)) (y_cup g) (z_reg g) (y_reg g)
                  (z_world g) (y_world g) (decay_pct g)) t
  | Field_y_cup =>
      mkLegacyParams
        (mkConfig (x0 g) (z_cup g) (clampInt v (of_int 0) (of_int 2000)) (z_reg g) (y_reg g)
                  (z_world g) (y_world g) (decay_pct g)) t
  | Field_z_reg =>
      mkLegacyParams
        (mkConfig (x0 g) (z_cup g) (y_cup g) (clampInt v (of_int 2) (of_int 20)) (y_reg g)
                  (z_world g) (y_world g) (decay_pct g)) t
  | Field_y_reg =>
      mkLegacyParams
        (mkConfig (x0 g) (z_cup g) (y_cup g) (z_reg g) (clampInt v (of_int 0) (of_int 3000))
                  (z_world g) (y_world g) (decay_pct g)) t
  | Field_z_world =>
      mkLegacyParams
        (mkConfig (x0 g) (z_cup g) (y_cup g) (z_reg g) (y_reg g)
                  (clampInt v (of_int 2) (of_int 20)) (y_world g) (decay_pct g)) t
  | Field_y_world =>
      mkLegacyParams
        (mkConfig (x0 g) (z_cup g) (y_cup g) (z_reg g) (y_reg g)
                  (z_world g) (clampInt v (of_int 0) (of_int 10000)) (decay_pct g)) t
  | Field_z_tpc =>
      mkLegacyParams g (mkParamsTPC (clampInt v (of_int 2) (of_int 20)) (y_tpc t))
  | Field_y_tpc =>
      mkLegacyParams g (mkParamsTPC (z_tpc t) (clampInt v (of_int 0) (of_int 3000)))
  | Field_decay_pct =>
      mkLegacyParams
        (mkConfig (x0 g) (z_cup g) (y_cup g) (z_reg g) (y_reg g)
                  (z_world g) (y_world g) (clampInt v (of_int 0) (of_int 100))) t
  end.

End Utilities.

(** [e.rows]; [None] for a record without the field. *)
Definition ev_rows `{Number T} (e : Event (T:=T)) : option (list (Row (T:=T))) :=
  match e with
  | EvTier _ _ rows _ => Some rows
  | EvWorlds _ _ _ _ _ _ rows => Some rows
  | EvDecay _ _ => None
  end.

(** The S15 variant (the second source file), where it differs from the
    legacy format: its own [params] fields, and TPC membership decided by
    the last S15 Regional. *)
Module S15.
Section S15.
Context {T : Type} `{NT : Number T}.

(** The S15 fields of [params]. *)
Record Params : Type := mkParams {
  z_s15_cup : T; y_s15_cup : T; s15_cup_y_top_k : T;
  z_s15_reg : T; y_s15_reg : T;
  z_s15_tpc : T; y_s15_tpc : T;
}.

(** const getCurrentTPCPros: the ids are the [playerId]s of the table. *)
Definition getCurrentTPCPros (st : Sim) : Eff (list Z) :=
  let fallback := let* idxs := getProIdxsFromLastRegional32 st in ret (Z.of_nat <$> idxs) in
  match List.find (fun e => String.eqb (ev_type e) "s15_regional") (rev (history st)) with
  | Some lastS15Reg =>
      match ev_rows lastS15Reg with
      | Some rows => ret (row_playerId <$> take 32 (js_sort rank_before rows))
      | None => fallback
      end
  | None => fallback
  end.

(** [players[pi]] for a negative [pi] is [undefined], and reading its
    [skill] a TypeError. *)
Definition roster_index (pi : Z) : Eff nat :=
  if (0 <=? pi)%Z then ret (Z.to_nat pi) else throw.

(** const runTPC of the S15 variant *)
Definition runTPC (rand : nat -> T) (cfg : Params) (tpcRound : Z) (st : Sim) : Eff Sim :=
  let* proIds := getCurrentTPCPros st in
  let* proIdxs := mapE roster_index proIds in
  let w := weightsTPC (length proIdxs) in
  let next := players st in
  let* (res, next) :=
    tierRun rand proIdxs next (z_s15_tpc cfg) (y_s15_tpc cfg) w false None in
  let* rows := rosterRows proIdxs res next in
  ret (mkSim (params st) next (label "tpc" tpcRound)
             (history st ++ [EvTier "tpc" proIdxs rows res])).

(** const runS15Regional48 of the S15 variant:
    [z: params.z_s15_reg, y: params.y_s15_reg]. *)
Definition runS15Regional48 (rand : nat -> T) (cfg : Params) (st : Sim) : Eff Sim :=
  let* proIdxs := getProIdxsFromLastRegional32 st in
  let* top16 := nonProTop16 (players st) proIdxs in
  let idxs := proIdxs ++ top16 in
  let w := weightsReg48 (length idxs) in
  let next := players st in
  let* (res, next) :=
    tierRun rand idxs next (z_s15_reg cfg) (y_s15_reg cfg) w false None in
  let* rows := rosterRows idxs res next in
  ret (mkSim (params st) next "s15_regional"
             (history st ++ [EvTier "s15_regional" idxs rows res])).

End S15.

Section S15Controls.
Context {T : Type} `{NT : Number T} `{RT : Rounding T}.

(** The [params] of the S15 variant: the general fields and the S15
    fields. *)
Record AllParams : Type := mkAllParams {
  general : Config (T:=T);
  s15 : Params (T:=T);
}.

(** const DEFAULT_PARAMS of the S15 variant *)
Definition DEFAULT_PARAMS : AllParams :=
  mkAllParams
    (mkConfig (of_int 100) (of_int 8) (of_int 50) (of_int 4) (of_int 100) (of_int 3)
              (of_int 400) (of_int 33))
    (mkParams (of_int 10) (of_int 20) (of_int 32) (of_int 4) (of_int 90) (of_int 5)
              (of_int 75)).

(** The fourteen number fields of [Controls] in the S15 variant. *)
Inductive Field : Type :=
| Field_z_s15_cup | Field_y_s15_cup | Field_s15_cup_y_top_k
| Field_z_s15_reg | Field_y_s15_reg | Field_z_s15_tpc | Field_y_s15_tpc
| Field_z_cup | Field_y_cup | Field_z_reg | Field_y_reg
| Field_z_world | Field_y_world | Field_decay_pct.

(** The [onChange] handlers of the S15 variant. *)
Definition Controls_onChange (f : Field) (v : T) (p : AllParams) : AllParams :=
  let g := general p in
  let c := s15 p in
  match f with
  | Field_z_s15_cup =>
      mkAllParams g (mkParams (clampInt v (of_int 2) (of_int 20)) (y_s15_cup c)
                              (s15_cup_y_top_k c) (z_s15_reg c) (y_s15_reg c)
                              (z_s15_tpc c) (y_s15_tpc c))
  | Field_y_s15_cup =>
      mkAllParams g (mkParams (z_s15_cup c) (clampInt v (of_int 0) (of_int 2000))
                              (s15_cup_y_top_k c) (z_s15_reg c) (y_s15_reg c)
                              (z_s15_tpc c) (y_s15_tpc c))
  | Field_s15_cup_y_top_k =>
      mkAllParams g (mkParams (z_s15_cup c) (y_s15_cup c)
                              (clampInt v (of_int 1) (of_int 128)) (z_s15_reg c) (y_s15_reg c)
                              (z_s15_tpc c) (y_s15_tpc c))
  | Field_z_s15_reg =>
      mkAllParams g (mkParams (z_s15_cup c) (y_s15_cup c) (s15_cup_y_top_k c)
                              (clampInt v (of_int 2) (of_int 20)) (y_s15_reg c)
                              (z_s15_tpc c) (y_s15_tpc c))
  | Field_y_s15_reg =>
      mkAllParams g (mkParams (z_s15_cup c) (y_s15_cup c) (s15_cup_y_top_k c)
                              (z_s15_reg c) (clampInt v (of_int 0) (of_int 3000))
                              (z_s15_tpc c) (y_s15_tpc c))
  | Field_z_s15_tpc =>
      mkAllParams g (mkParams (z_s15_cup c) (y_s15_cup c) (s15_cup_y_top_k c)
                              (z_s15_reg c) (y_s15_reg c)
                              (clampInt v (of_int 2) (of_int 20)) (y_s15_tpc c))
  | Field_y_s15_tpc =>
      mkAllParams g (mkParams (z_s15_cup c) (y_s15_cup c) (s15_cup_y_top_k c)
                              (z_s15_reg c) (y_s15_reg c)
                              (z_s15_tpc c) (clampInt v (of_int 0) (of_int 3000)))
  | Field_z_cup =>
      mkAllParams
        (mkConfig (x0 g) (clampInt v (of_int 2) (of_int 20)) (y_cup g) (z_reg g) (y_reg g)
                  (z_world g) (y_world g) (decay_pct g)) c
  | Field_y_cup =>
      mkAllParams
        (mkConfig (x0 g) (z_cup g) (clampInt v (of_int 0) (of_int 2000)) (z_reg g) (y_reg g)
                  (z_world g) (y_world g) (decay_pct g)) c
  | Field_z_reg =>
      mkAllParams
        (mkConfig (x0 g) (z_cup g) (y_cup g) (clampInt v (of_int 2) (of_int 20)) (y_reg g)
                  (z_world g) (y_world g) (decay_pct g)) c
  | Field_y_reg =>
      mkAllParams
        (mkConfig (x0 g) (z_cup g) (y_cup g) (z_reg g) (clampInt v (of_int 0) (of_int 3000))
                  (z_world g) (y_world g) (decay_pct g)) c
  | Field_z_world =>
      mkAllParams
        (mkConfig (x0 g) (z_cup g) (y_cup g) (z_reg g) (y_reg g)
                  (clampInt v (of_int 2) (of_int 20)) (y_world g) (decay_pct g)) c
  | Field_y_world =>
      mkAllParams
        (mkConfig (x0 g) (z_cup g) (y_cup g) (z_reg g) (y_reg g)
                  (z_world g) (clampInt v (of_int 0) (of_int 10000)) (decay_pct g)) c
  | Field_decay_pct =>
      mkAllParams
        (mkConfig (x0 g) (z_cup g) (y_cup g) (z_reg g) (y_reg g)
                  (z_world g) (y_world g) (clampInt v (of_int 0) (of_int 100))) c
  end.

End S15Controls.
End S15.

(* ====================================================================== *)
(** ** Vocabulary of the statements

    Definitions that the lemmas and theorems below are stated with; none
    of them is code of the repository. *)

Section Vocabulary.
Context {T : Type} `{NT : Number T}.

(** The value drawn by [normalLike()] at position [s]. *)
Definition noise_at (rand : nat -> T) (s : nat) : T :=
  (rand s -! dec 5 10) +! (rand (S s) -! dec 5 10) +! (rand (S (S s)) -! dec 5 10).

(** The ranks as plain numbers. *)
Definition rank_values (ranks : list (option nat)) : list nat := default 0%nat <$> ranks.

(** Whether rank [r] is paid the fixed bonus, as [fixed_topK] decides it. *)
Definition eligible (N : nat) (giveYToTopHalf : bool) (fixedYTopK : option T) (r : nat) : bool :=
  if giveYToTopHalf then
    match fixedYTopK with
    | Some K => of_int (Z.of_nat r) <=! K
    | None => (r <=? ceil_half N)%nat
    end
  else true.

(** The number of bonus-eligible ranks among 1..N. *)
Definition eligible_count (N : nat) (giveYToTopHalf : bool) (fixedYTopK : option T) : nat :=
  length (List.filter (eligible N giveYToTopHalf fixedYTopK) (seq 1 N)).

(** The number of participants whose recorded fixed bonus is positive. *)
Definition paid_count (fixedY : list T) : nat :=
  length (List.filter (fun b => of_int 0 <! b) fixedY).

(** One of the three arrays of the loop, on its own: rank [r] writes
    [g r] at the slot that holds rank [r]. *)
Definition scatter (ranks : list (option nat)) (g : nat -> T) (rs : list nat)
    (init : list T) : list T :=
  fold_left (fun a r => set_found (findIndex (fun rr => rr = Some r) ranks) (g r) a) rs init.

(** The content of a completed run, array by array. *)
Inductive tier_spec (fixedOf : nat -> T) (playersIdx : list nat) (players : list Player)
    (z : T) (weights : list T) (res : TierResult) (players' : list Player) : Prop :=
| TierSpec (entrants : list Player) (perf : list T)
    (spec_valid : Forall2 (fun pi p => players !! pi = Some p) playersIdx entrants)
    (spec_perf_length : length perf = length playersIdx)
    (spec_order : order res = (rankBy perf).1)
    (spec_ranks : ranks res = (rankBy perf).2)
    (spec_fees : fees res = (fun p => chips p /! z) <$> entrants)
    (spec_pool : pool res = sum (fees res))
    (spec_fixedY : fixedY res = fixedOf <$> rank_values (ranks res))
    (spec_sharePool :
       sharePool res =
       (fun r => or_zero (weights !! (r - 1)%nat) *! pool res) <$> rank_values (ranks res))
    (spec_payouts :
       payouts res =
       (fun r => or_zero (weights !! (r - 1)%nat) *! pool res +! fixedOf r)
         <$> rank_values (ranks res))
    (spec_deltas : deltas res = imap (fun j p => p -! get (fees res) j) (payouts res))
    (spec_players : players' = apply_deltas playersIdx (deltas res) players).

(** The roster slot that entrant [k] of the Worlds field is written back
    to: none for a synthetic entrant ([allIdxs[k] = -1]). *)
Definition target (allIdxs : list Z) (k : nat) : option nat :=
  match allIdxs !! k with
  | Some gid => if (0 <=? gid)%Z then Some (Z.to_nat gid) else None
  | None => None
  end.

(** The state with the configured decay percentage replaced by [p]. *)
Definition with_decay_pct (p : T) (st : Sim) : Sim :=
  let c := params st in
  mkSim (mkConfig (x0 c) (z_cup c) (y_cup c) (z_reg c) (y_reg c) (z_world c) (y_world c) p)
        (players st) (stage st) (history st).

End Vocabulary.

(** A descending stable sort, [arr.sort((a, b) => b.v - a.v)], is over
    elements that carry a sort key and the slot they came from. *)
Section DescendingOrder.
Local Open Scope Q_scope.
Context {A : Type} (key : A -> Q) (slot : A -> nat).

(** The comparator, read as "[a] sorts strictly before [b]". *)
Definition desc_before (a b : A) : bool := ((key b -! key a) <! of_int 0)%js.

(** The order the sort produces: higher key first, and among equal keys
    the earlier slot first. *)
Definition slot_lt (a b : A) : Prop :=
  key b < key a \/ (key a == key b /\ (slot a < slot b)%nat).

End DescendingOrder.

Section VocabularyQ.
Local Open Scope Q_scope.

(** The percentage [decayAll] works with: the configured one clamped to
    [0, 100]. *)
Definition clamp_pct (p : Q) : Q := Qmax 0 (Qmin 100 p).

(** What [decayAll] does to one balance. *)
Definition decayed (p x : Q) : Q := Qmax 0 (x * (1 - clamp_pct p / 100)).

(** The invariants of a weight vector, as decidable checks over exact
    rationals.  Ranks are 1-based, [w[r - 1]] is the weight of rank [r].
    The checks add up fractions in lowest terms ([exact_sum]), which is the
    sum of the vector ([exact_sum_eq]). *)
Definition exact_sum (w : list Q) : Q := fold_left (fun a x => Qred (a + x)) w 0.

Definition sums_to_one (w : list Q) : bool := Qeq_bool (exact_sum w) 1.

Definition non_increasing (w : list Q) : bool :=
  forallb (fun ab : Q * Q => Qle_bool ab.2 ab.1) (zip w (tail w)).

(** The weights of ranks [s..e]. *)
Definition band_weights (w : list Q) (s e : nat) : list Q :=
  take (e - s + 1) (drop (s - 1) w).

Fixpoint pairwise_equal (l : list Q) : bool :=
  match l with
  | a :: b :: l' => Qeq_bool a b && pairwise_equal l'
  | _ => true
  end.

Definition band_ok (w : list Q) (band : nat * nat * Q) : bool :=
  let '(s, e, t) := band in
  pairwise_equal (band_weights w s e) && Qeq_bool (exact_sum (band_weights w s e)) t.

Definition zero_after (w : list Q) (e : nat) : bool :=
  forallb (fun x => Qeq_bool x 0) (drop e w).

Definition non_negative (w : list Q) : bool := forallb (Qle_bool 0) w.

Definition schedule_ok (w : list Q) (N : nat) (top1 top2 : Q) (bands : list (nat * nat * Q))
    : bool :=
  (length w =? N)%nat && sums_to_one w && non_increasing w
  && Qeq_bool (get w 0) top1 && Qeq_bool (get w 1) top2
  && forallb (band_ok w) bands
  && zero_after w (List.last (map (fun b => b.1.2) bands) 2%nat).

(** The declared band totals of the five schedules. *)
Definition bands_Cup : list (nat * nat * Q) :=
  [ (3, 4, 12 # 100); (5, 8, 16 # 100); (9, 16, 16 # 100); (17, 32, 16 # 100);
    (33, 64, 16 # 100) ]%nat.
Definition bands_Reg : list (nat * nat * Q) :=
  [ (3, 4, 16 # 100); (5, 8, 20 # 100); (9, 16, 32 # 100) ]%nat.
Definition bands_World : list (nat * nat * Q) :=
  [ (3, 4, 14 # 100); (5, 8, 20 # 100); (9, 16, 24 # 100); (17, 32, 16 # 100) ]%nat.
Definition bands_Reg48 : list (nat * nat * Q) :=
  [ (3, 4, 14 # 100); (5, 8, 20 # 100); (9, 16, 25 # 100); (17, 32, 17 # 100) ]%nat.
Definition bands_TPC : list (nat * nat * Q) :=
  [ (3, 4, 16 # 100); (5, 8, 19 # 100); (9, 16, 36 # 100) ]%nat.

End VocabularyQ.

(** The same checks on the binary64 vector, with the tolerance 1e-9 on
    the sums that rounding calls for; order, pair equality and the zeros
    are checked exactly. *)
Module F64Checks.

Definition near (a b : float) : bool :=
  PrimFloat.leb (PrimFloat.abs (PrimFloat.sub a b)) (dec 1 (10 ^ 9)).

Definition non_increasing (w : list float) : bool :=
  forallb (fun ab : float * float => PrimFloat.leb ab.2 ab.1) (zip w (tail w)).

Definition band_weights (w : list float) (s e : nat) : list float :=
  take (e - s + 1) (drop (s - 1) w).

Fixpoint pairwise_equal (l : list float) : bool :=
  match l with
  | a :: b :: l' => PrimFloat.eqb a b && pairwise_equal l'
  | _ => true
  end.

Definition band_ok (w : list float) (band : nat * nat * Q) : bool :=
  let '(s, e, t) := band in
  pairwise_equal (band_weights w s e)
  && near (sum (band_weights w s e)) (dec (Qnum t) (Zpos (Qden t))).

Definition zero_after (w : list float) (e : nat) : bool :=
  forallb (fun x => PrimFloat.eqb x PrimFloat.zero) (drop e w).

Definition schedule_ok (w : list float) (N : nat) (top1 top2 : Q)
    (bands : list (nat * nat * Q)) : bool :=
  (length w =? N)%nat && near (sum w) (F64.of_int 1) && non_increasing w
  && PrimFloat.eqb (get w 0) (dec (Qnum top1) (Zpos (Qden top1)))
  && PrimFloat.eqb (get w 1) (dec (Qnum top2) (Zpos (Qden top2)))
  && forallb (band_ok w) bands
  && zero_after w (List.last (map (fun b => b.1.2) bands) 2%nat).

End F64Checks.

(** *** A small roster to run the theorems on *)

Definition demo_roster : list (Player (T:=Q)) :=
  [ mkPlayer 0 (3 # 2) (100 # 1); mkPlayer 1 (1 # 2) (120 # 1);
    mkPlayer 2 (5 # 2) (80 # 1); mkPlayer 3 (0 # 1) (60 # 1) ].

Definition demo_rand : nat -> Q := fun n => (inject_Z (Z.of_nat (n mod 4)%nat) / 4)%Q.

Definition demo_config : Config (T:=Q) :=
  mkConfig (100 # 1) (8 # 1) (50 # 1) (4 # 1) (100 # 1) (3 # 1) (400 # 1) (10 # 1).

(** The state before any event. *)
Definition demo_idle : Sim := mkSim demo_config demo_roster "idle" [].

(** The same kind of data in binary64: four players of 100 chips, and the
    demo roster's balances. *)
Definition demo_rand64 : nat -> float := fun n => dec (Z.of_nat (n mod 4)%nat) 4.

Definition demo_roster64 : list (Player (T:=float)) :=
  (fun i => mkPlayer (Z.of_nat i) (of_int 0) (of_int 100)) <$> seq 0 4.

Definition demo_idle64 : Sim (T:=float) :=
  mkSim (mkConfig (of_int 100) (of_int 8) (of_int 50) (of_int 4) (of_int 100) (of_int 3)
                  (of_int 400) (of_int 10))
        ((fun c => mkPlayer 0 (of_int 0) (of_int c)) <$> [100; 120; 80; 60]%Z) "idle" [].

(** The demo roster after one Regional, and the record that Regional left
    in the history. *)
Definition demo_after_regional : Sim :=
  match runRegional demo_rand demo_idle 0 with
  | Some (st, _) => st
  | None => demo_idle
  end.

Definition demo_regional_record : list nat * list Row * TierResult :=
  match history demo_after_regional with
  | [EvTier _ idxs rows res] => (idxs, rows, res)
  | _ => ([], [], mkTierResult [] [] [] 0%Q [] [] [] [])
  end.

(** [m] is the middle of the sorted array: its middle entry when the
    length is odd, the mean of its two middle entries when it is even. *)
Definition middle_of (sorted : list Q) (m : Q) : Prop :=
  let n := length sorted in
  if Nat.odd n then sorted !! (n / 2)%nat = Some m
  else exists a b, sorted !! (n / 2 - 1)%nat = Some a /\ sorted !! (n / 2)%nat = Some b /\
                   (m == (a + b) / 2)%Q.

(** A roster of fifty players with different skills and balances, the
    state after a Regional of the 32 richest, and the record that Regional
    left. *)
Definition demo_league : list (Player (T:=Q)) :=
  (fun i => mkPlayer (Z.of_nat i) (inject_Z (Z.of_nat (i mod 7)) / 4)%Q
                     (inject_Z (100 + 3 * Z.of_nat i))) <$> seq 0 50.

Definition demo_after_regional32 : Sim :=
  let st := mkSim demo_config demo_league "idle" [] in
  match runRegional demo_rand st 0 with
  | Some (st', _) => st'
  | None => st
  end.

Definition demo_regional32_record : list nat * list Row * TierResult :=
  match history demo_after_regional32 with
  | [EvTier _ idxs rows res] => (idxs, rows, res)
  | _ => ([], [], mkTierResult [] [] [] 0%Q [] [] [] [])
  end.

(** *** Vocabulary of the utilities and the other events *)

(** The comparator of [median], [(x, y) => x - y], as the sort reads it. *)
Definition asc_before (x y : Q) : bool := ((x -! y) <! of_int 0)%js.

(** The chips in the roster, added up. *)
Definition total_chips `{Number T} (players : list Player) : T := sum (chips <$> players).

(** The balance of roster entry [pi] (0 for an index outside the roster). *)
Definition balance `{Number T} (players : list Player) (pi : nat) : T :=
  default (of_int 0) (chips <$> players !! pi).

(** The test of [getProIdxsFromLastRegional32] on one record. *)
Definition is_regional32 {T : Type} `{NT : Number T} (e : Event (T:=T)) : bool :=
  String.eqb (ev_type e) "regional"
  && match ev_idxs e with
     | Some idxs => (length idxs =? 32)%nat
     | None => false
     end.

(** The roster slots outside [proIdxs], in roster order. *)
Definition nonPros (n : nat) (proIdxs : list nat) : list nat :=
  List.filter (fun i => negb (bool_decide (i ∈ proIdxs))) (seq 0 n).

(** The row of slot [j], which holds roster entry [pi]. *)
Definition row_of {T : Type} `{NT : Number T} (res : TierResult (T:=T))
    (next : list (Player (T:=T))) (j pi : nat) : Row :=
  mkRow (label "P" (Z.of_nat pi + 1)) (Z.of_nat pi) (mjoin (ranks res !! j))
        (get (fees res) j) (get (fixedY res) j) (get (sharePool res) j)
        (get (payouts res) j) (get (deltas res) j) (chips <$> next !! pi).

(** The ranges the controls keep the general parameters in. *)
Definition general_in_range (g : Config (T:=Q)) : Prop :=
  (2 <= z_cup g <= 20 /\ 0 <= y_cup g <= 2000 /\
   2 <= z_reg g <= 20 /\ 0 <= y_reg g <= 3000 /\
   2 <= z_world g <= 20 /\ 0 <= y_world g <= 10000 /\
   0 <= decay_pct g <= 100)%Q.

(** The ranges of the legacy parameters. *)
Definition params_in_range (p : LegacyParams (T:=Q)) : Prop :=
  general_in_range (legacy_general p) /\
  (2 <= z_tpc (legacy_tpc p) <= 20 /\ 0 <= y_tpc (legacy_tpc p) <= 3000)%Q.

(** The ranges of the parameters of the S15 variant. *)
Definition S15_params_in_range (p : S15.AllParams (T:=Q)) : Prop :=
  general_in_range (S15.general p) /\
  (2 <= S15.z_s15_cup (S15.s15 p) <= 20 /\ 0 <= S15.y_s15_cup (S15.s15 p) <= 2000 /\
   1 <= S15.s15_cup_y_top_k (S15.s15 p) <= 128 /\
   2 <= S15.z_s15_reg (S15.s15 p) <= 20 /\ 0 <= S15.y_s15_reg (S15.s15 p) <= 3000 /\
   2 <= S15.z_s15_tpc (S15.s15 p) <= 20 /\ 0 <= S15.y_s15_tpc (S15.s15 p) <= 3000)%Q.

(** A roster of fifty players with the same balance, the S15 parameters
    used in the examples, and the state after one S15 Regional on it. *)
Definition demo_roster50 : list (Player (T:=Q)) :=
  (fun i => mkPlayer (Z.of_nat i) 0%Q (100 # 1)%Q) <$> seq 0 50.

Definition demo_s15_params : S15.Params (T:=Q) :=
  S15.mkParams (100 # 1) (4 # 1) (8 # 1) (3 # 1) (150 # 1) (5 # 1) (80 # 1).

Definition demo_after_s15 : Sim :=
  let st := mkSim demo_config demo_roster50 "idle" [] in
  match S15.runS15Regional48 demo_rand demo_s15_params st 0 with
  | Some (st', _) => st'
  | None => st
  end.

Definition demo_s15_pros : list Z :=
  match S15.getCurrentTPCPros demo_after_s15 0 with
  | Some (ids, _) => ids
  | None => []
  end.

(* ====================================================================== *)
(** ** Facts about the effect monad *)

Lemma bind_Some {A C} (m : Eff A) (k : A -> Eff C) s c s2 :
  bind m k s = Some (c, s2) <-> exists a s1, m s = Some (a, s1) /\ k a s1 = Some (c, s2).
Proof.
  unfold bind. destruct (m s) as [[a s1]|]; split.
  - intros Hk. exists a, s1. split; [reflexivity | exact Hk].
  - intros (a' & s1' & Heq & Hk). inversion Heq; subst. exact Hk.
  - intros Hk. discriminate.
  - intros (a' & s1' & Heq & _). discriminate.
Qed.

Lemma defined_Some {A} (o : option A) s a s' :
  defined o s = Some (a, s') <-> o = Some a /\ s' = s.
Proof.
  destruct o as [x|]; cbn; split.
  - intros H. inversion H; subst. split; reflexivity.
  - intros [H ->]. inversion H; subst. reflexivity.
  - intros H. discriminate.
  - intros [H _]. discriminate.
Qed.

Section EffFacts.
Context {A B : Type}.

(** A successful [mapE] relates the two lists element by element. *)
Lemma mapE_Some (f : A -> Eff B) (l : list A) s bs s' :
  mapE f l s = Some (bs, s') ->
  Forall2 (fun a b => exists s1 s2, f a s1 = Some (b, s2)) l bs.
Proof.
  revert s bs s'. induction l as [|a l IH]; intros s bs s' H.
  - cbn in H. inversion H; subst. constructor.
  - cbn [mapE] in H. apply bind_Some in H as (b & s1 & Hb & H).
    apply bind_Some in H as (bs' & s2 & Hbs & H).
    cbn in H. inversion H; subst. constructor.
    + exists s, s1. exact Hb.
    + eapply IH. exact Hbs.
Qed.

Lemma mapE_length (f : A -> Eff B) (l : list A) s bs s' :
  mapE f l s = Some (bs, s') -> length bs = length l.
Proof.
  intros H. apply mapE_Some in H. symmetry. eapply Forall2_length. exact H.
Qed.

End EffFacts.

Lemma mapE_defined {A B} (f : A -> option B) (l : list A) :
  Forall (fun a => is_Some (f a)) l ->
  exists bs, Forall2 (fun a b => f a = Some b) l bs /\
             forall s, mapE (fun a => defined (f a)) l s = Some (bs, s).
Proof.
  induction 1 as [|a l [b Hb] _ (bs & Hbs & IH)].
  - exists []. split; [constructor | reflexivity].
  - exists (b :: bs). split; [constructor; assumption|].
    intros s. cbn [mapE]. unfold bind at 1. rewrite Hb. cbn [defined ret].
    unfold bind at 1. rewrite IH. reflexivity.
Qed.

(* ====================================================================== *)
(** ** Exact arithmetic: the instance at [Q] *)

Section QFacts.
Local Open Scope Q_scope.

Lemma nlt_Q (a b : Q) : (a <! b)%js = true <-> a < b.
Proof.
  cbn. rewrite negb_true_iff. split.
  - intros H. apply Qnot_le_lt. intros Hle. apply Qle_bool_iff in Hle. congruence.
  - intros H. apply not_true_is_false. intros Hle. apply Qle_bool_iff in Hle. lra.
Qed.

Lemma nlt_Q_false (a b : Q) : (a <! b)%js = false <-> b <= a.
Proof.
  cbn. rewrite negb_false_iff. apply Qle_bool_iff.
Qed.

Lemma nle_Q (a b : Q) : (a <=! b)%js = true <-> a <= b.
Proof. cbn. apply Qle_bool_iff. Qed.

Lemma nle_Q_false (a b : Q) : (a <=! b)%js = false <-> b < a.
Proof.
  cbn. split.
  - intros H. apply Qnot_le_lt. intros Hle. apply Qle_bool_iff in Hle. congruence.
  - intros H. apply not_true_is_false. intros Hle. apply Qle_bool_iff in Hle. lra.
Qed.

Lemma nmax_Q (a b : Q) : nmax a b == Qmax a b.
Proof.
  cbn. destruct (Qle_bool a b) eqn:E.
  - apply Qle_bool_iff in E. rewrite Q.max_r by exact E. reflexivity.
  - assert (b <= a).
    { apply Qlt_le_weak, Qnot_le_lt. intros H. apply Qle_bool_iff in H. congruence. }
    rewrite Q.max_l by assumption. reflexivity.
Qed.

Lemma nmin_Q (a b : Q) : nmin a b == Qmin a b.
Proof.
  cbn. destruct (Qle_bool a b) eqn:E.
  - apply Qle_bool_iff in E. rewrite Q.min_l by exact E. reflexivity.
  - assert (b <= a).
    { apply Qlt_le_weak, Qnot_le_lt. intros H. apply Qle_bool_iff in H. congruence. }
    rewrite Q.min_r by assumption. reflexivity.
Qed.

End QFacts.

(* ====================================================================== *)
(** ** Sums of rationals *)

Section Sums.
Local Open Scope Q_scope.

Lemma fold_left_Qplus (l : list Q) (a : Q) : fold_left Qplus l a == a + sum l.
Proof.
  unfold sum. change (@nadd Q Q_number) with Qplus. change (of_int 0) with 0.
  revert a. induction l as [|x l IH]; intros a; cbn [fold_left].
  - lra.
  - rewrite (IH (a + x)), (IH (0 + x)). lra.
Qed.

Lemma sum_nil : sum (@nil Q) == 0.
Proof. reflexivity. Qed.

Lemma sum_cons (x : Q) (l : list Q) : sum (x :: l) == x + sum l.
Proof.
  unfold sum at 1. change (@nadd Q Q_number) with Qplus. change (of_int 0) with 0.
  cbn [fold_left]. rewrite fold_left_Qplus. lra.
Qed.

Lemma sum_app (l k : list Q) : sum (l ++ k) == sum l + sum k.
Proof.
  induction l as [|x l IH]; cbn [app].
  - rewrite sum_nil. lra.
  - rewrite !sum_cons, IH. lra.
Qed.

Lemma sum_perm (l k : list Q) : Permutation l k -> sum l == sum k.
Proof.
  induction 1 as [|x l k _ IH|x y l|l k m _ IH1 _ IH2].
  - reflexivity.
  - rewrite !sum_cons, IH. reflexivity.
  - rewrite !sum_cons. lra.
  - rewrite IH1. exact IH2.
Qed.

Lemma sum_map_ext {A} (f g : A -> Q) (l : list A) :
  (forall a, a ∈ l -> f a == g a) -> sum (f <$> l) == sum (g <$> l).
Proof.
  induction l as [|a l IH]; intros H; cbn [fmap list_fmap].
  - reflexivity.
  - rewrite !sum_cons, IH.
    + rewrite (H a); [reflexivity | left].
    + intros b Hb. apply H. right. exact Hb.
Qed.

Lemma sum_map_plus {A} (f g : A -> Q) (l : list A) :
  sum ((fun a => f a + g a) <$> l) == sum (f <$> l) + sum (g <$> l).
Proof.
  induction l as [|a l IH]; cbn [fmap list_fmap].
  - rewrite !sum_nil. lra.
  - rewrite !sum_cons, IH. lra.
Qed.

Lemma sum_map_scale {A} (f : A -> Q) (c : Q) (l : list A) :
  sum ((fun a => f a * c) <$> l) == sum (f <$> l) * c.
Proof.
  induction l as [|a l IH]; cbn [fmap list_fmap].
  - rewrite !sum_nil. lra.
  - rewrite !sum_cons, IH. lra.
Qed.

(** [payouts.map((p, j) => p - fees[j])] sums to the difference of the sums. *)
Lemma sum_deltas (payouts fees : list Q) :
  length payouts = length fees ->
  sum (imap (fun j p => (p -! get fees j)%js) payouts) == sum payouts - sum fees.
Proof.
  revert fees. induction payouts as [|p ps IH]; intros [|f fs] Hlen; try discriminate.
  - cbn [imap]. rewrite !sum_nil. lra.
  - cbn [imap]. rewrite !sum_cons.
    erewrite (imap_ext _ (fun j p => (p -! get fs j)%js)); last first.
    { intros j q _. reflexivity. }
    rewrite IH by (cbn in Hlen; lia).
    change ((p -! get (f :: fs) 0)%js) with (p - f). lra.
Qed.

Lemma or_zero_Q (o : option Q) : or_zero o == default 0 o.
Proof.
  destruct o as [v|]; cbn; [|reflexivity].
  destruct (Qeq_bool v 0) eqn:E; cbn; [|reflexivity].
  apply Qeq_bool_iff in E. rewrite E. reflexivity.
Qed.

Lemma fmap_ranks_seq {A} (h : nat -> A) (N : nat) :
  (fun r => h (r - 1)%nat) <$> seq 1 N = h <$> seq 0 N.
Proof.
  rewrite <- fmap_S_seq, <- list_fmap_compose.
  apply list_fmap_ext. intros _ k _. cbn. rewrite Nat.sub_0_r. reflexivity.
Qed.

Lemma sum_weights_slots (weights : list Q) (N : nat) :
  (length weights <= N)%nat ->
  sum ((fun k => or_zero (weights !! k)) <$> seq 0 N) == sum weights.
Proof.
  revert N. induction weights as [|w ws IH]; intros N Hlen.
  - rewrite (sum_map_ext _ (fun _ => 0)).
    + clear Hlen. induction N as [|N IHN]; [reflexivity|].
      rewrite seq_S, fmap_app, sum_app, IHN. cbn [fmap list_fmap].
      rewrite sum_cons, !sum_nil. lra.
    + intros k _. reflexivity.
  - destruct N as [|N]; [cbn in Hlen; lia|].
    cbn [seq fmap list_fmap]. rewrite !sum_cons.
    rewrite <- fmap_S_seq, <- list_fmap_compose.
    change ((fun k => or_zero ((w :: ws) !! k)) ∘ S) with (fun k => or_zero (ws !! k)).
    rewrite IH by (cbn in Hlen; lia).
    change ((w :: ws) !! 0%nat) with (Some w). rewrite or_zero_Q. reflexivity.
Qed.

(** Reading ranks 1..N of a weight vector with at most N entries, missing
    ones as 0, adds up to the sum of the vector. *)
Lemma sum_weights_ranks (weights : list Q) (N : nat) :
  (length weights <= N)%nat ->
  sum ((fun r => or_zero (weights !! (r - 1)%nat)) <$> seq 1 N) == sum weights.
Proof.
  intros Hlen.
  rewrite (fmap_ranks_seq (fun k => or_zero (weights !! k))).
  apply sum_weights_slots. exact Hlen.
Qed.

(** Only the weights of the ranks that exist are read. *)
Lemma sum_first_weights (weights : list Q) (N : nat) :
  sum ((fun r => or_zero (weights !! (r - 1)%nat)) <$> seq 1 N) == sum (take N weights).
Proof.
  rewrite <- (sum_weights_ranks (take N weights) N) by (rewrite length_take; lia).
  apply sum_map_ext. intros r Hr. apply list_elem_of_In, in_seq in Hr.
  rewrite lookup_take_lt by lia. reflexivity.
Qed.

(** Paying [y] to the ranks selected by [e] costs [y] times their number. *)
Lemma sum_bonus (e : nat -> bool) (y : Q) (l : list nat) :
  sum ((fun r => if e r then y else 0) <$> l)
  == y * inject_Z (Z.of_nat (length (List.filter e l))).
Proof.
  induction l as [|r l IH]; cbn [fmap list_fmap List.filter].
  - rewrite sum_nil. change (inject_Z (Z.of_nat (length []))) with 0. lra.
  - rewrite sum_cons, IH. destruct (e r); cbn [length].
    + rewrite Nat2Z.inj_succ, <- Z.add_1_r, inject_Z_plus.
      change (inject_Z 1) with 1. lra.
    + lra.
Qed.

End Sums.

(* ====================================================================== *)
(** ** Facts about sorting and ranking *)

Section SortFacts.
Context {A : Type} (before : A -> A -> bool).

Lemma sort_insert_perm x l : Permutation (sort_insert before x l) (x :: l).
Proof.
  induction l as [|y l IH]; cbn.
  - reflexivity.
  - destruct (before y x).
    + rewrite IH. apply perm_swap.
    + reflexivity.
Qed.

Lemma js_sort_perm l : Permutation (js_sort before l) l.
Proof.
  induction l as [|x l IH]; cbn.
  - reflexivity.
  - rewrite sort_insert_perm. constructor. exact IH.
Qed.

Lemma js_sort_length l : length (js_sort before l) = length l.
Proof. apply Permutation_length, js_sort_perm. Qed.

End SortFacts.

Lemma imap_pair_snd {A} (l : list A) n :
  (imap (fun i v => (v, (n + i)%nat)) l).*2 = seq n (length l).
Proof.
  revert n. induction l as [|x l IH]; intros n; cbn.
  - reflexivity.
  - rewrite Nat.add_0_r. f_equal.
    rewrite <- IH. f_equal. apply imap_ext. intros i y _. cbn. f_equal. lia.
Qed.

Lemma imap_pair_fst {A} (l : list A) n :
  (imap (fun i v => ((n + i)%nat, v)) l).*1 = seq n (length l).
Proof.
  revert n. induction l as [|x l IH]; intros n; cbn.
  - reflexivity.
  - rewrite Nat.add_0_r. f_equal.
    rewrite <- IH. f_equal. apply imap_ext. intros i y _. cbn. f_equal. lia.
Qed.

(** The array filled by [order.forEach((pid, k) => (ranks[pid] = k + 1))]. *)
Lemma fill_ranks (order : list nat) (off : nat) (init : list (option nat)) :
  NoDup order ->
  Forall (fun pid => (pid < length init)%nat) order ->
  let r := fold_left (fun ranks kp => <[kp.2 := Some (kp.1 + 1)%nat]> ranks)
                     (imap (fun k pid => ((off + k)%nat, pid)) order) init in
  length r = length init /\
  forall pid,
    (forall k, order !! k = Some pid -> r !! pid = Some (Some (off + k + 1)%nat)) /\
    (pid ∉ order -> r !! pid = init !! pid).
Proof.
  revert off init. induction order as [|p order IH]; intros off init Hnd Hlt; cbn.
  - split; [reflexivity|]. intros pid. split; [intros k Hk; discriminate | reflexivity].
  - apply NoDup_cons in Hnd as [Hp Hnd]. apply Forall_cons in Hlt as [Hplt Hlt].
    specialize (IH (S off) (<[p:=Some (off + 0 + 1)%nat]> init) Hnd).
    rewrite length_insert in IH. specialize (IH Hlt). cbn in IH.
    erewrite (imap_ext _ (fun k pid => ((S off + k)%nat, pid))); last first.
    { intros i y _. cbn. f_equal. lia. }
    destruct IH as [Hlen IH]. split; [exact Hlen|].
    intros pid. destruct (IH pid) as [IH1 IH2]. split.
    + intros [|k] Hk; cbn in Hk.
      * inversion Hk; subst pid. etransitivity; [apply IH2; exact Hp|].
        rewrite list_lookup_insert_eq by exact Hplt. reflexivity.
      * etransitivity; [apply (IH1 k Hk)|]. do 2 f_equal. lia.
    + intros Hnin. apply not_elem_of_cons in Hnin as [Hne Hnin].
      etransitivity; [apply IH2; exact Hnin|]. apply list_lookup_insert_ne. congruence.
Qed.

Section RankFacts.
Context {T : Type} `{NT : Number T}.

Lemma rankBy_order_perm (values : list T) :
  Permutation (rankBy values).1 (seq 0 (length values)).
Proof.
  unfold rankBy; cbn [fst].
  rewrite js_sort_perm.
  rewrite <- (imap_pair_snd values 0). reflexivity.
Qed.

Lemma rankBy_order_length (values : list T) :
  length (rankBy values).1 = length values.
Proof.
  rewrite (Permutation_length (rankBy_order_perm values)). apply length_seq.
Qed.

Lemma rankBy_order_NoDup (values : list T) : NoDup (rankBy values).1.
Proof.
  rewrite (rankBy_order_perm values). apply NoDup_ListNoDup, List.seq_NoDup.
Qed.

Lemma rankBy_order_lt (values : list T) k pid :
  (rankBy values).1 !! k = Some pid -> (pid < length values)%nat.
Proof.
  intros H. apply list_elem_of_lookup_2 in H.
  rewrite (rankBy_order_perm values) in H.
  apply list_elem_of_In, in_seq in H. lia.
Qed.

Lemma rankBy_ranks_length (values : list T) :
  length (rankBy values).2 = length values.
Proof.
  pose proof (rankBy_order_NoDup values) as Hnd.
  pose proof (fill_ranks (rankBy values).1 0 (replicate (length values) None) Hnd) as H.
  rewrite length_replicate in H.
  destruct H as [H _].
  - apply Forall_forall. intros pid Hin.
    apply list_elem_of_lookup in Hin as [k Hk]. eapply rankBy_order_lt; exact Hk.
  - exact H.
Qed.

(** Slot [pid] is the [k]-th of [order] exactly when its rank is [k + 1]. *)
Lemma rankBy_inverse (values : list T) k pid :
  (rankBy values).1 !! k = Some pid <-> (rankBy values).2 !! pid = Some (Some (S k)).
Proof.
  pose proof (rankBy_order_NoDup values) as Hnd.
  pose proof (fill_ranks (rankBy values).1 0 (replicate (length values) None) Hnd) as H.
  rewrite length_replicate in H.
  destruct H as [_ H].
  { apply Forall_forall. intros p Hin.
    apply list_elem_of_lookup in Hin as [k' Hk']. eapply rankBy_order_lt; exact Hk'. }
  assert (Hfwd : forall k pid, (rankBy values).1 !! k = Some pid ->
                               (rankBy values).2 !! pid = Some (Some (S k))).
  { intros k' p Hk'. destruct (H p) as [H1 _]. specialize (H1 k' Hk').
    cbn in H1. unfold rankBy; cbn [fst snd]. unfold rankBy in H1; cbn [fst snd] in H1.
    rewrite H1. do 2 f_equal. lia. }
  split; [apply Hfwd|].
  intros Hr.
  assert (Hlt : (pid < length values)%nat).
  { apply lookup_lt_Some in Hr. rewrite rankBy_ranks_length in Hr. exact Hr. }
  assert (Hin : pid ∈ (rankBy values).1).
  { rewrite (rankBy_order_perm values). apply list_elem_of_In, in_seq. lia. }
  apply list_elem_of_lookup in Hin as [k' Hk'].
  pose proof (Hfwd k' pid Hk') as Hr'. rewrite Hr in Hr'.
  inversion Hr'; subst k'. exact Hk'.
Qed.

End RankFacts.

(* ====================================================================== *)
(** ** The order of a descending sort *)

(** A descending stable sort, [arr.sort((a, b) => b.v - a.v)], over
    elements that carry a sort key and the slot they came from. *)
Section DescendingSort.
Local Open Scope Q_scope.
Context {A : Type} (key : A -> Q) (slot : A -> nat).

Lemma desc_before_true a b : desc_before key a b = true <-> key b < key a.
Proof.
  unfold desc_before. rewrite nlt_Q.
  change (key b - key a < 0 <-> key b < key a). split; intros; lra.
Qed.

Lemma desc_before_false a b : desc_before key a b = false <-> key a <= key b.
Proof.
  unfold desc_before. rewrite nlt_Q_false.
  change (0 <= key b - key a <-> key a <= key b). split; intros; lra.
Qed.

Lemma slot_lt_trans a b c :
  slot_lt key slot a b -> slot_lt key slot b c -> slot_lt key slot a c.
Proof.
  unfold slot_lt. intros [H1|[H1 H1']] [H2|[H2 H2']].
  - left. lra.
  - left. lra.
  - left. lra.
  - right. split; [lra | lia].
Qed.

Lemma slot_lt_asym a b : slot_lt key slot a b -> slot_lt key slot b a -> False.
Proof.
  unfold slot_lt. intros [H1|[H1 H1']] [H2|[H2 H2']]; try lra. lia.
Qed.

Lemma sort_insert_sorted (x : A) (s : list A) :
  StronglySorted (slot_lt key slot) s ->
  Forall (fun y => (slot x < slot y)%nat) s ->
  StronglySorted (slot_lt key slot) (sort_insert (desc_before key) x s).
Proof.
  induction 1 as [|y s Hs IH Hy]; intros Hx; cbn [sort_insert].
  - repeat constructor.
  - apply Forall_cons in Hx as [Hxy Hx].
    destruct (desc_before key y x) eqn:Hb.
    + apply desc_before_true in Hb. constructor.
      * apply IH. exact Hx.
      * rewrite (sort_insert_perm (desc_before key) x s). constructor.
        -- left. exact Hb.
        -- exact Hy.
    + apply desc_before_false in Hb.
      assert (Hxy' : slot_lt key slot x y).
      { destruct (Qlt_le_dec (key y) (key x)) as [Hlt|Hle].
        - left. exact Hlt.
        - right. split; [lra | exact Hxy]. }
      constructor.
      * constructor; assumption.
      * constructor; [exact Hxy'|].
        eapply Forall_impl; [exact Hy|]. intros z Hz. cbn.
        eapply slot_lt_trans; eassumption.
Qed.

Lemma js_sort_sorted (l : list A) :
  StronglySorted (fun a b => (slot a < slot b)%nat) l ->
  StronglySorted (slot_lt key slot) (js_sort (desc_before key) l).
Proof.
  induction 1 as [|x l Hl IH Hx]; cbn.
  - constructor.
  - apply sort_insert_sorted; [exact IH|].
    rewrite (js_sort_perm (desc_before key) l). exact Hx.
Qed.

End DescendingSort.

Section SortedOrder.
Local Open Scope Q_scope.

Lemma imap_slots_sorted (values : list Q) n :
  StronglySorted (fun a b : Q * nat => (a.2 < b.2)%nat)
                 (imap (fun i v => (v, (n + i)%nat)) values).
Proof.
  revert n. induction values as [|v values IH]; intros n; cbn.
  - constructor.
  - erewrite (imap_ext _ (fun i v => (v, (S n + i)%nat))); last first.
    { intros i y _. cbn. f_equal. lia. }
    constructor; [apply IH|].
    apply Forall_forall. intros [w j] Hin.
    apply list_elem_of_lookup in Hin as [i Hi].
    rewrite list_lookup_imap in Hi.
    destruct (values !! i); cbn in Hi; inversion Hi; subst. cbn. lia.
Qed.

Lemma StronglySorted_lookup {A} (R : A -> A -> Prop) (l : list A) i j a b :
  StronglySorted R l -> l !! i = Some a -> l !! j = Some b -> (i < j)%nat -> R a b.
Proof.
  intros Hs. revert i j. induction Hs as [|x l Hs IH Hx]; intros i j Hi Hj Hij.
  - discriminate.
  - destruct j as [|j]; [lia|]. cbn in Hj. destruct i as [|i]; cbn in Hi.
    + inversion Hi; subst. rewrite Forall_forall in Hx. apply Hx.
      eapply list_elem_of_lookup_2. exact Hj.
    + eapply IH; eauto. lia.
Qed.

(** The slots in [order] come in decreasing performance, earlier slot
    first among equals. *)
Lemma rankBy_order_sorted (values : list Q) k1 k2 i j vi vj :
  (rankBy values).1 !! k1 = Some i -> (rankBy values).1 !! k2 = Some j ->
  values !! i = Some vi -> values !! j = Some vj ->
  (k1 < k2)%nat -> slot_lt fst snd (vi, i) (vj, j).
Proof.
  unfold rankBy; cbn [fst]. intros H1 H2 Hi Hj Hk.
  rewrite list_lookup_fmap in H1, H2.
  destruct (js_sort _ _ !! k1) as [[v1 i1]|] eqn:E1; cbn in H1; inversion H1; subst i1.
  destruct (js_sort _ _ !! k2) as [[v2 i2]|] eqn:E2; cbn in H2; inversion H2; subst i2.
  assert (Hin : forall k v i', js_sort (desc_before fst) (imap (fun i v => (v, i)) values) !! k
                               = Some (v, i') -> values !! i' = Some v).
  { intros k v i' Hk'. apply list_elem_of_lookup_2 in Hk'.
    rewrite (js_sort_perm (desc_before fst)) in Hk'.
    apply list_elem_of_lookup in Hk' as [n Hn]. rewrite list_lookup_imap in Hn.
    destruct (values !! n) eqn:En; cbn in Hn; inversion Hn; subst. exact En. }
  pose proof (Hin _ _ _ E1) as Hv1. pose proof (Hin _ _ _ E2) as Hv2.
  rewrite Hi in Hv1. rewrite Hj in Hv2. inversion Hv1; inversion Hv2; subst.
  eapply (StronglySorted_lookup (slot_lt fst snd)); [|exact E1|exact E2|exact Hk].
  apply js_sort_sorted. apply (imap_slots_sorted values 0).
Qed.

End SortedOrder.

(* ====================================================================== *)
(** ** Ranking *)

Section Ranking.
Context {T : Type} `{NT : Number T}.

(** Every slot has a rank: no hole of [new Array(n)] survives. *)
Lemma rankBy_ranks_Some (values : list T) pid :
  (pid < length values)%nat ->
  exists k, (rankBy values).1 !! k = Some pid /\ (rankBy values).2 !! pid = Some (Some (S k)).
Proof.
  intros Hlt.
  assert (Hin : pid ∈ (rankBy values).1).
  { rewrite (rankBy_order_perm values). apply list_elem_of_In, in_seq. lia. }
  apply list_elem_of_lookup in Hin as [k Hk].
  exists k. split; [exact Hk|]. apply rankBy_inverse. exact Hk.
Qed.

Lemma rankBy_ranks_values (values : list T) :
  (rankBy values).2 = Some <$> rank_values (rankBy values).2.
Proof.
  apply list_eq. intros pid. unfold rank_values.
  rewrite !list_lookup_fmap.
  destruct ((rankBy values).2 !! pid) as [r|] eqn:E; [|reflexivity].
  pose proof (lookup_lt_Some _ _ _ E) as Hlt. rewrite rankBy_ranks_length in Hlt.
  destruct (rankBy_ranks_Some values pid Hlt) as (k & _ & Hk).
  rewrite E in Hk. inversion Hk; subst. reflexivity.
Qed.

Lemma rank_values_lookup (values : list T) pid r :
  rank_values (rankBy values).2 !! pid = Some r <->
  (rankBy values).2 !! pid = Some (Some r).
Proof.
  rewrite (rankBy_ranks_values values) at 2. rewrite list_lookup_fmap.
  destruct (rank_values _ !! pid); cbn; split; intros H; inversion H; subst; reflexivity.
Qed.

Lemma rank_values_perm (values : list T) :
  Permutation (rank_values (rankBy values).2) (seq 1 (length values)).
Proof.
  apply NoDup_Permutation.
  - apply NoDup_alt. intros i j r Hi Hj.
    apply rank_values_lookup in Hi, Hj.
    destruct r as [|k].
    + pose proof (lookup_lt_Some _ _ _ Hi) as Hlt. rewrite rankBy_ranks_length in Hlt.
      destruct (rankBy_ranks_Some values i Hlt) as (k & _ & Hk). congruence.
    + apply rankBy_inverse in Hi, Hj. congruence.
  - apply NoDup_ListNoDup, List.seq_NoDup.
  - intros r. rewrite (list_elem_of_In (seq _ _) r), in_seq. split.
    + intros Hin. apply list_elem_of_lookup in Hin as [pid Hr].
      apply rank_values_lookup in Hr.
      pose proof (lookup_lt_Some _ _ _ Hr) as Hlt. rewrite rankBy_ranks_length in Hlt.
      destruct (rankBy_ranks_Some values pid Hlt) as (k & Hk & Hk').
      rewrite Hr in Hk'. inversion Hk'; subst r.
      apply lookup_lt_Some in Hk. rewrite rankBy_order_length in Hk. lia.
    + intros [H1 H2]. destruct r as [|k]; [lia|].
      destruct (lookup_lt_is_Some_2 (rankBy values).1 k) as [pid Hk].
      { rewrite rankBy_order_length. lia. }
      apply list_elem_of_lookup. exists pid.
      apply rank_values_lookup, rankBy_inverse. exact Hk.
Qed.

End Ranking.

(** C8.  For every list of N performance values, the ranks assigned by
    [rankBy] are a permutation of 1..N without duplicates, one per slot;
    a slot ranks ahead of another exactly when its performance is
    higher, or equal with the slot earlier in draw order (the stable
    sort); in particular rank 1 goes to a highest performance. *)
Theorem rankBy_bijection (values : list Q) :
  exists rs : list nat,
    (rankBy values).2 = Some <$> rs /\
    length rs = length values /\
    Permutation rs (seq 1 (length values)) /\
    NoDup rs /\
    (forall i j ri rj vi vj,
        rs !! i = Some ri -> rs !! j = Some rj ->
        values !! i = Some vi -> values !! j = Some vj ->
        ((ri < rj)%nat <-> (vj < vi \/ (vi == vj /\ (i < j)%nat)))%Q) /\
    (forall i vi,
        rs !! i = Some 1%nat -> values !! i = Some vi ->
        Forall (fun v => v <= vi)%Q values).
Proof.
  exists (rank_values (rankBy values).2).
  assert (Hord : forall i j ri rj vi vj,
             rank_values (rankBy values).2 !! i = Some ri ->
             rank_values (rankBy values).2 !! j = Some rj ->
             values !! i = Some vi -> values !! j = Some vj ->
             (ri < rj)%nat -> slot_lt fst snd (vi, i) (vj, j)).
  { intros i j ri rj vi vj Hi Hj Hvi Hvj Hlt.
    apply rank_values_lookup in Hi, Hj.
    destruct ri as [|ki].
    { pose proof (lookup_lt_Some _ _ _ Hi) as Hl. rewrite rankBy_ranks_length in Hl.
      destruct (rankBy_ranks_Some values i Hl) as (k & _ & Hk). congruence. }
    destruct rj as [|kj]; [lia|].
    apply rankBy_inverse in Hi, Hj.
    eapply rankBy_order_sorted; eauto. lia. }
  split; [apply rankBy_ranks_values|].
  split; [unfold rank_values; rewrite length_fmap; apply rankBy_ranks_length|].
  split; [apply rank_values_perm|].
  split; [rewrite (rank_values_perm values); apply NoDup_ListNoDup, List.seq_NoDup|].
  split.
  - intros i j ri rj vi vj Hi Hj Hvi Hvj. split.
    + intros Hlt. exact (Hord _ _ _ _ _ _ Hi Hj Hvi Hvj Hlt).
    + intros Hs. destruct (Nat.lt_trichotomy ri rj) as [Hlt|[Heq|Hgt]].
      * exact Hlt.
      * exfalso. subst rj.
        assert (i = j).
        { pose proof (rank_values_perm values) as Hp.
          assert (Hnd : NoDup (rank_values (rankBy values).2)).
          { rewrite Hp. apply NoDup_ListNoDup, List.seq_NoDup. }
          eapply NoDup_alt; eauto. }
        subst j. rewrite Hvi in Hvj. inversion Hvj; subst vj.
        destruct Hs as [Hs|[_ Hs]]; [lra | lia].
      * exfalso. pose proof (Hord _ _ _ _ _ _ Hj Hi Hvj Hvi Hgt) as Hs'.
        eapply (slot_lt_asym fst snd (vi, i) (vj, j)); [exact Hs | exact Hs'].
  - intros i vi Hi Hvi. apply Forall_forall. intros v Hin.
    apply list_elem_of_lookup in Hin as [j Hvj].
    destruct (decide (i = j)) as [->|Hne].
    { rewrite Hvi in Hvj. inversion Hvj; subst. lra. }
    destruct (lookup_lt_is_Some_2 (rank_values (rankBy values).2) j) as [rj Hj].
    { unfold rank_values. rewrite length_fmap, rankBy_ranks_length.
      eapply lookup_lt_Some. exact Hvj. }
    assert (Hrj : (1 < rj)%nat).
    { assert (rj <> 1%nat).
      { intros ->. apply Hne.
        assert (Hnd : NoDup (rank_values (rankBy values).2)).
        { rewrite (rank_values_perm values). apply NoDup_ListNoDup, List.seq_NoDup. }
        eapply NoDup_alt; eauto. }
      assert (rj ∈ seq 1 (length values)).
      { rewrite <- (rank_values_perm values). eapply list_elem_of_lookup_2. exact Hj. }
      apply list_elem_of_In, in_seq in H0. lia. }
    pose proof (Hord _ _ _ _ _ _ Hi Hj Hvi Hvj Hrj) as [Hs|[Hs _]]; cbn in Hs; lra.
Qed.

(* ====================================================================== *)
(** ** The weight schedules *)

Section ScheduleInvariants.
Local Open Scope Q_scope.

Lemma exact_sum_fold (w : list Q) (a : Q) :
  fold_left (fun a x => Qred (a + x)) w a == a + sum w.
Proof.
  revert a. induction w as [|x w IH]; intros a; cbn [fold_left].
  - rewrite sum_nil. lra.
  - rewrite IH, sum_cons, Qred_correct. lra.
Qed.

Lemma exact_sum_eq (w : list Q) : exact_sum w == sum w.
Proof. unfold exact_sum. rewrite exact_sum_fold. lra. Qed.

End ScheduleInvariants.

(** C2, evaluated on the five schedules.  The Cup, Worlds and 48-field
    Regional schedules satisfy every invariant, in exact arithmetic and in
    binary64; the legacy Regional and the TPC schedule do not, in either.
    In [weightsReg(32)] the band 9-16 is capped at the per-person weight
    1/30 of rank 8, below the band's average 0.04: the solved slope is
    negative and is replaced by 0 while the intercept is kept, so ranks
    9..16 get 23/450 each.  The band then sums to 92/225 instead of 0.32,
    rank 9 outweighs rank 8, and the vector sums to 49/45.
    [weightsTPC(32)] fails the same way: its band 9-16 sums to 121/225
    instead of 0.36 and the vector to 53/45. *)
Theorem weights_schedules_evaluated :
  schedule_ok (weightsCup 128) 128 (15 # 100) (9 # 100) bands_Cup = true /\
  schedule_ok (weightsWorld 48) 48 (16 # 100) (10 # 100) bands_World = true /\
  schedule_ok (weightsReg48 48) 48 (15 # 100) (9 # 100) bands_Reg48 = true /\
  schedule_ok (weightsReg 32) 32 (20 # 100) (12 # 100) bands_Reg = false /\
  schedule_ok (weightsTPC 32) 32 (18 # 100) (11 # 100) bands_TPC = false /\
  (sum (weightsReg 32) == 49 # 45)%Q /\
  (sum (band_weights (weightsReg 32) 9 16) == 92 # 225)%Q /\
  (get (weightsReg 32) 7 == 1 # 30)%Q /\
  (get (weightsReg 32) 8 == 23 # 450)%Q /\
  (sum (weightsTPC 32) == 53 # 45)%Q /\
  (sum (band_weights (weightsTPC 32) 9 16) == 121 # 225)%Q /\
  (get (weightsTPC 32) 7 == 19 # 600)%Q /\
  (get (weightsTPC 32) 8 == 121 # 1800)%Q /\
  F64Checks.schedule_ok (weightsCup 128) 128 (15 # 100) (9 # 100) bands_Cup = true /\
  F64Checks.schedule_ok (weightsWorld 48) 48 (16 # 100) (10 # 100) bands_World = true /\
  F64Checks.schedule_ok (weightsReg48 48) 48 (15 # 100) (9 # 100) bands_Reg48 = true /\
  F64Checks.schedule_ok (weightsReg 32) 32 (20 # 100) (12 # 100) bands_Reg = false /\
  F64Checks.schedule_ok (weightsTPC 32) 32 (18 # 100) (11 # 100) bands_TPC = false /\
  PrimFloat.ltb (dec 108 100) (sum (weightsReg (T:=float) 32)) = true /\
  PrimFloat.ltb (dec 117 100) (sum (weightsTPC (T:=float) 32)) = true.
Proof.
  do 5 (split; [vm_compute; reflexivity|]).
  do 2 (split; [rewrite <- exact_sum_eq; vm_compute; reflexivity|]).
  do 2 (split; [vm_compute; reflexivity|]).
  do 2 (split; [rewrite <- exact_sum_eq; vm_compute; reflexivity|]).
  do 7 (split; [vm_compute; reflexivity|]).
  split; vm_compute; reflexivity.
Qed.

(* ====================================================================== *)
(** ** The weight builder on arbitrary bands *)

(** The index arithmetic of one band: its pairs lie inside the band, so
    every write [w[r1 - 1]], [w[r2 - 1]] is inside the array. *)
Lemma band_writes_in_range (N : nat) (b_start b_end k : Z) :
  let s := Z.max 1 b_start in
  let e := Z.min b_end (Z.of_nat N) in
  let m := (e - s + 1)%Z in
  let m' := if negb (m mod 2 =? 0)%Z then (m - 1)%Z else m in
  let p := (m' / 2)%Z in
  (1 <= k <= p)%Z ->
  let r1 := (e - (k - 1) * 2 - 1)%Z in
  let r2 := (r1 + 1)%Z in
  (0 <= r1 - 1)%Z /\ (s <= r1)%Z /\ (r2 <= e)%Z /\ (r2 - 1 < Z.of_nat N)%Z.
Proof.
  cbn zeta. intros Hk.
  destruct (Z.eqb_spec ((Z.min b_end (Z.of_nat N) - Z.max 1 b_start + 1) mod 2) 0) as [He|He];
    cbn [negb] in Hk; Z.div_mod_to_equations; lia.
Qed.

Section BuilderNonNegative.
Local Open Scope Q_scope.

Lemma Forall_set_at (P : Q -> Prop) (i : Z) (x : Q) (w : list Q) :
  P x -> Forall P w -> Forall P (set_at i x w).
Proof.
  intros Hx Hw. unfold set_at. destruct (0 <=? i)%Z; [|exact Hw].
  apply Forall_insert; assumption.
Qed.

(** The builder never changes the size of the array it allocated: the
    schedule for [N] participants has [N] entries, at every [Number]. *)
Lemma set_at_length {A} (i : Z) (x : A) (w : list A) : length (set_at i x w) = length w.
Proof. unfold set_at. destruct (0 <=? i)%Z; [apply length_insert | reflexivity]. Qed.

Lemma ramp_length `{Number T} (e : Z) (safeA safeB : T) (p : Z) (w : list T) :
  length (ramp e safeA safeB p w) = length w.
Proof.
  unfold ramp. generalize (map Z.of_nat (seq 1 (Z.to_nat p))). intros ks.
  revert w. induction ks as [|k ks IH]; intros w; cbn [fold_left]; [reflexivity|].
  rewrite IH, !set_at_length. reflexivity.
Qed.

Lemma band_step_length `{Number T} (N : nat) (w : list T) (prevTail : option T) (b : Band) :
  length (band_step N (w, prevTail) b).1 = length w.
Proof.
  unfold band_step.
  destruct (_ <=? 0)%Z; [reflexivity|].
  destruct (_ <=? 0)%Z; [reflexivity|].
  destruct (_ =? 1)%Z; cbn [fst].
  - rewrite !set_at_length. reflexivity.
  - apply ramp_length.
Qed.

Lemma buildMonotoneByPairs_length `{Number T} (N : nat) (top1 top2 : T) (bands : list Band) :
  length (buildMonotoneByPairs N top1 top2 bands) = N.
Proof.
  unfold buildMonotoneByPairs.
  set (w0 := if (2 <=? N)%nat then _ else _).
  assert (Hw0 : length w0 = N).
  { subst w0. destruct (2 <=? N)%nat, (1 <=? N)%nat;
      rewrite ?length_insert, length_replicate; reflexivity. }
  generalize (if (2 <=? N)%nat then Some (get w0 1) else None). intros prevTail.
  clearbody w0. revert w0 Hw0 prevTail. induction bands as [|b bands IH]; intros w0 Hw0 prevTail.
  - exact Hw0.
  - cbn [fold_left]. destruct (band_step N (w0, prevTail) b) as [w1 t1] eqn:E.
    apply IH. rewrite <- Hw0, <- (band_step_length N w0 prevTail b), E. reflexivity.
Qed.

Lemma get_nonneg (w : list Q) (i : nat) : Forall (Qle 0) w -> 0 <= get w i.
Proof.
  intros Hw. unfold get. destruct (w !! i) as [x|] eqn:E; cbn.
  - rewrite Forall_forall in Hw. apply Hw. eapply list_elem_of_lookup_2. exact E.
  - change (0 <= 0). lra.
Qed.

Lemma neg_eps_negative : (dec (-1) (10 ^ 12) : Q) < 0.
Proof. vm_compute. reflexivity. Qed.

(** The pair totals of a ramp are never negative: the intercept A is,
    by the cap on the head, at least 0, and a slope that is negative but
    not floored still ends at the non-negative head pair. *)
Lemma ramp_pair_nonneg (S hp : Q) (p k : Z) :
  0 <= S -> 0 <= hp -> hp * inject_Z (p + 1) <= S -> (2 <= p)%Z -> (1 <= k <= p)%Z ->
  let headPair := (hp *! of_int 2)%js in
  let denom := (of_int (p * (1 - p)) /! of_int 2)%js in
  let B := ((S -! of_int p *! headPair) /! denom)%js in
  let A := (headPair -! B *! of_int p)%js in
  let safeA := if (A <! dec (-1) (10 ^ 12))%js then of_int 0 else A in
  let safeB := if (B <! dec (-1) (10 ^ 12))%js then of_int 0 else B in
  0 <= ((safeA +! safeB *! of_int k) /! of_int 2)%js.
Proof.
  intros HS Hhp Hcap Hp Hk headPair denom B A safeA safeB.
  change (0 <= (safeA + safeB * inject_Z k) / 2).
  assert (HP : 2 <= inject_Z p) by (change 2 with (inject_Z 2); rewrite <- Zle_Qle; lia).
  assert (Hk1 : 1 <= inject_Z k) by (change 1 with (inject_Z 1); rewrite <- Zle_Qle; lia).
  assert (Hk2 : inject_Z k <= inject_Z p) by (rewrite <- Zle_Qle; lia).
  assert (Hcap' : hp * (inject_Z p + 1) <= S).
  { rewrite inject_Z_plus in Hcap. exact Hcap. }
  assert (Hden : denom == inject_Z p * (1 - inject_Z p) / 2).
  { unfold denom. change (inject_Z (p * (1 - p)) / 2 == inject_Z p * (1 - inject_Z p) / 2).
    rewrite inject_Z_mult. change (1 - p)%Z with (1 + - p)%Z.
    rewrite inject_Z_plus, inject_Z_opp. reflexivity. }
  assert (HB : B == (S - inject_Z p * headPair) / denom) by reflexivity.
  assert (HA : A == (2 * S - (inject_Z p + 1) * headPair) / (inject_Z p - 1)).
  { change (headPair - B * inject_Z p
            == (2 * S - (inject_Z p + 1) * headPair) / (inject_Z p - 1)).
    rewrite HB, Hden. field. split; lra. }
  assert (Hhp2 : headPair == hp * 2) by reflexivity.
  assert (HA0 : 0 <= A).
  { rewrite HA. apply Qle_shift_div_l; [lra|]. rewrite Hhp2. lra. }
  assert (HsA : 0 <= safeA).
  { unfold safeA. destruct (A <! _)%js; [change (0 <= 0); lra | exact HA0]. }
  assert (Hhead : A + B * inject_Z p == headPair).
  { change (headPair - B * inject_Z p + B * inject_Z p == headPair). ring. }
  assert (HT : 0 <= safeA + safeB * inject_Z k).
  { unfold safeB. destruct (B <! _)%js eqn:EB.
    - change (of_int 0) with 0. lra.
    - assert (HsA' : safeA == A).
      { unfold safeA. destruct (A <! _)%js eqn:EA; [|reflexivity].
        apply nlt_Q in EA. pose proof neg_eps_negative as Heps. lra. }
      rewrite HsA'.
      destruct (Qlt_le_dec B 0) as [Hneg|Hpos].
      + assert (B * inject_Z p <= B * inject_Z k) by nra.
        assert (0 <= headPair) by (rewrite Hhp2; lra). lra.
      + assert (0 <= B * inject_Z k) by nra. lra. }
  apply Qle_shift_div_l; lra.
Qed.

Lemma min_cap_nonneg (prevTail : option Q) (x : Q) :
  (forall t, prevTail = Some t -> 0 <= t) -> 0 <= x ->
  0 <= min_cap prevTail x /\ min_cap prevTail x <= x.
Proof.
  intros Ht Hx. destruct prevTail as [t|]; cbn [min_cap].
  - specialize (Ht t eq_refl). rewrite nmin_Q.
    split; [apply Q.min_glb; assumption | apply Q.le_min_r].
  - split; lra.
Qed.

Lemma ramp_nonneg (e : Z) (safeA safeB : Q) (p : Z) (w : list Q) :
  (forall k, (1 <= k <= p)%Z -> 0 <= ((safeA +! safeB *! of_int k) /! of_int 2)%js) ->
  Forall (Qle 0) w -> Forall (Qle 0) (ramp e safeA safeB p w).
Proof.
  intros HT. unfold ramp.
  assert (Hks : Forall (fun k => (1 <= k <= p)%Z) (map Z.of_nat (seq 1 (Z.to_nat p)))).
  { apply Forall_forall. intros k Hin. apply list_elem_of_In, in_map_iff in Hin.
    destruct Hin as (i & <- & Hi). apply in_seq in Hi. lia. }
  revert w. induction Hks as [|k ks Hk _ IH]; intros w Hw; cbn [fold_left].
  - exact Hw.
  - apply IH. apply Forall_set_at; [apply HT; exact Hk|].
    apply Forall_set_at; [apply HT; exact Hk | exact Hw].
Qed.

(** One band keeps the weights and the cap non-negative. *)
Lemma band_step_nonneg (N : nat) (w : list Q) (prevTail : option Q) (b : Band) :
  0 <= total b ->
  Forall (Qle 0) w -> (forall t, prevTail = Some t -> 0 <= t) ->
  Forall (Qle 0) (band_step N (w, prevTail) b).1 /\
  (forall t, (band_step N (w, prevTail) b).2 = Some t -> 0 <= t).
Proof.
  intros HS Hw Ht. unfold band_step.
  set (s := Z.max 1 (start b)). set (e := Z.min (end_ b) (Z.of_nat N)).
  set (m := (e - s + 1)%Z).
  destruct (m <=? 0)%Z; [split; assumption|].
  set (m' := if negb (m mod 2 =? 0)%Z then (m - 1)%Z else m).
  set (p := (m' / 2)%Z).
  destruct (Z.leb_spec p 0) as [|Hp0]; [split; assumption|].
  assert (Hper : 0 <= total b / 2) by (apply Qle_shift_div_l; lra).
  destruct (Z.eqb_spec p 1) as [|Hp1]; cbn [fst snd].
  - split.
    + apply Forall_set_at; [exact Hper|]. apply Forall_set_at; [exact Hper | exact Hw].
    + intros t Heq. inversion Heq; subst. exact Hper.
  - assert (Hp2 : (2 <= p)%Z) by lia.
    assert (HP1 : 0 < inject_Z (p + 1)).
    { change 0 with (inject_Z 0). rewrite <- Zlt_Qlt. lia. }
    assert (Hun : 0 <= total b / inject_Z (p + 1)) by (apply Qle_shift_div_l; lra).
    destruct (min_cap_nonneg prevTail (total b / inject_Z (p + 1)) Ht Hun) as [Hhp0 Hhp1].
    assert (Hcap : min_cap prevTail (total b / inject_Z (p + 1)) * inject_Z (p + 1)
                   <= total b).
    { assert (Heq : total b / inject_Z (p + 1) * inject_Z (p + 1) == total b)
        by (field; lra).
      rewrite <- Heq at 2. apply Qmult_le_compat_r; [exact Hhp1 | lra]. }
    match goal with
    | |- Forall _ ?r /\ _ => assert (Hramp : Forall (Qle 0) r)
    end.
    { apply ramp_nonneg; [|exact Hw]. intros k Hk.
      exact (ramp_pair_nonneg (total b) _ p k HS Hhp0 Hcap Hp2 Hk). }
    split.
    + exact Hramp.
    + intros t Heq. inversion Heq; subst. apply get_nonneg. exact Hramp.
Qed.

(** The weight builder never returns a negative weight when the masses
    it is given ([top1], [top2] and the band totals) are not negative. *)
Lemma buildMonotoneByPairs_nonneg (N : nat) (top1 top2 : Q) (bands : list Band) :
  0 <= top1 -> 0 <= top2 -> Forall (fun b => 0 <= total b) bands ->
  Forall (Qle 0) (buildMonotoneByPairs N top1 top2 bands).
Proof.
  intros H1 H2 Hb. unfold buildMonotoneByPairs.
  set (w0 := replicate N (of_int 0)).
  set (w1 := if (1 <=? N)%nat then <[0%nat:=top1]> w0 else w0).
  set (w2 := if (2 <=? N)%nat then <[1%nat:=top2]> w1 else w1).
  assert (Hw0 : Forall (Qle 0) w0).
  { apply Forall_replicate. change (0 <= 0). lra. }
  assert (Hw1 : Forall (Qle 0) w1).
  { unfold w1. destruct (1 <=? N)%nat; [apply Forall_insert|]; assumption. }
  assert (Hw2 : Forall (Qle 0) w2).
  { unfold w2. destruct (2 <=? N)%nat; [apply Forall_insert|]; assumption. }
  assert (Hpt : forall t, (if (2 <=? N)%nat then Some (get w2 1) else None) = Some t -> 0 <= t).
  { intros t Heq. destruct (2 <=? N)%nat; inversion Heq; subst.
    apply get_nonneg. exact Hw2. }
  generalize dependent (if (2 <=? N)%nat then Some (get w2 1) else None).
  generalize dependent w2. clear w0 w1 Hw0 Hw1.
  induction Hb as [|b bands Hb0 _ IH]; intros w Hw pt Hpt; cbn [fold_left].
  - exact Hw.
  - destruct (band_step_nonneg N w pt b Hb0 Hw Hpt) as [Hw' Hpt'].
    destruct (band_step N (w, pt) b) as [w' pt'] eqn:E. cbn [fst snd] in *.
    apply IH; assumption.
Qed.

End BuilderNonNegative.

(** C3, evaluated.  On a band whose solved slope is negative the builder
    keeps the weights non-negative but loses the sum.  For N = 6, top1 =
    top2 = 0.125 and the one band 3..6 of total 0.75 (within 1..N, of even
    length, the masses adding up to 1) the head is capped at 0.125, the
    slope comes out as -0.25 and is replaced by 0 while the intercept
    stays 0.75: ranks 3..6 get 0.375 each and the vector sums to 1.75.
    All the numbers are dyadic, so binary64 computes the same vector.
    The legacy Regional schedule is an input of this kind inside the
    repository: its masses add up to 1 and its weights to 49/45. *)
Theorem buildMonotoneByPairs_negative_slope :
  let bands : list (Band (T:=Q)) := [mkBand 3 6 (3 # 4)] in
  ((1 # 8) + (1 # 8) + sum (total <$> bands) == 1)%Q /\
  Forall (fun b => (1 <= start b)%Z /\ (end_ b <= 6)%Z
                   /\ ((end_ b - start b + 1) mod 2 = 0)%Z) bands /\
  buildMonotoneByPairs 6 (1 # 8) (1 # 8) bands
  = [1 # 8; 1 # 8; 384 # 1024; 384 # 1024; 384 # 1024; 384 # 1024]%Q /\
  non_negative (buildMonotoneByPairs 6 (1 # 8) (1 # 8) bands) = true /\
  (sum (buildMonotoneByPairs 6 (1 # 8) (1 # 8) bands) == 7 # 4)%Q /\
  sums_to_one (buildMonotoneByPairs 6 (1 # 8) (1 # 8) bands) = false /\
  (let half := PrimFloat.div (F64.of_int 1) (F64.of_int 2) in
   let eighth := PrimFloat.mul half (PrimFloat.mul half half) in
   let w := buildMonotoneByPairs 6 eighth eighth
              [mkBand 3 6 (PrimFloat.sub (F64.of_int 1) (PrimFloat.mul half half))] in
   PrimFloat.eqb (sum w) (PrimFloat.add (F64.of_int 1) (PrimFloat.mul (F64.of_int 3)
                                                           (PrimFloat.mul half half)))
   = true) /\
  ((20 # 100) + (12 # 100) + ((16 # 100) + (20 # 100) + (32 # 100)) == 1)%Q /\
  (sum (weightsReg 32) == 49 # 45)%Q /\
  non_negative (weightsReg 32) = true.
Proof.
  cbn zeta.
  split; [vm_compute; reflexivity|].
  split; [repeat constructor; cbn; lia|].
  split; [vm_compute; reflexivity|].
  split; [vm_compute; reflexivity|].
  split; [rewrite <- exact_sum_eq; vm_compute; reflexivity|].
  split; [vm_compute; reflexivity|].
  split; [vm_compute; reflexivity|].
  split; [vm_compute; reflexivity|].
  split; [rewrite <- exact_sum_eq; vm_compute; reflexivity|].
  vm_compute; reflexivity.
Qed.

(* ====================================================================== *)
(** ** The settlement loop *)

Section Settlement.
Context {T : Type} `{NT : Number T}.

Lemma findIndex_unique {A} (P : A -> Prop) `{forall x, Decision (P x)} (l : list A) i x :
  l !! i = Some x -> P x ->
  (forall j y, l !! j = Some y -> P y -> j = i) ->
  findIndex P l = Some i.
Proof.
  intros Hi HP Huniq. unfold findIndex.
  assert (Hf : list_find P l = Some (i, x)).
  { apply list_find_Some. split; [exact Hi|]. split; [exact HP|].
    intros j y Hj Hlt HPy. specialize (Huniq j y Hj HPy). lia. }
  rewrite Hf. reflexivity.
Qed.

(** The participant found for rank [k + 1] is the [k]-th of [order]. *)
Lemma findIndex_rank (values : list T) k pid :
  (rankBy values).1 !! k = Some pid ->
  findIndex (fun rr => rr = Some (S k)) (rankBy values).2 = Some pid.
Proof.
  intros Hk. eapply findIndex_unique.
  - apply rankBy_inverse. exact Hk.
  - reflexivity.
  - intros j y Hj ->. apply rankBy_inverse in Hj. congruence.
Qed.

Lemma settle_scatter_gen ranks weights pool fixedOf rs (a1 a2 a3 : list T) :
  fold_left (settle_rank ranks weights pool fixedOf) rs (a1, a2, a3) =
  (scatter ranks (fun r => or_zero (weights !! (r - 1)%nat) *! pool +! fixedOf r) rs a1,
   scatter ranks (fun r => or_zero (weights !! (r - 1)%nat) *! pool) rs a2,
   scatter ranks fixedOf rs a3).
Proof.
  revert a1 a2 a3. induction rs as [|r rs IH]; intros a1 a2 a3.
  - reflexivity.
  - cbn [fold_left]. unfold settle_rank at 2. rewrite IH. reflexivity.
Qed.

Lemma settle_scatter N ranks weights pool fixedOf :
  settle N ranks weights pool fixedOf =
  (scatter ranks (fun r => or_zero (weights !! (r - 1)%nat) *! pool +! fixedOf r)
           (seq 1 N) (replicate N (of_int 0)),
   scatter ranks (fun r => or_zero (weights !! (r - 1)%nat) *! pool)
           (seq 1 N) (replicate N (of_int 0)),
   scatter ranks fixedOf (seq 1 N) (replicate N (of_int 0))).
Proof. apply settle_scatter_gen. Qed.

Lemma scatter_prefix (values : list T) (g : nat -> T) m :
  (m <= length values)%nat ->
  let a := scatter (rankBy values).2 g (seq 1 m) (replicate (length values) (of_int 0)) in
  length a = length values /\
  forall j r, (rankBy values).2 !! j = Some (Some r) ->
              a !! j = Some (if (r <=? m)%nat then g r else of_int 0).
Proof.
  induction m as [|m IH]; intros Hm; cbn zeta.
  - cbn [seq scatter fold_left]. split; [apply length_replicate|].
    intros j r Hj.
    assert (Hr : (r <=? 0)%nat = false).
    { apply Nat.leb_gt. destruct r; [|lia].
      pose proof (lookup_lt_Some _ _ _ Hj) as Hl. rewrite rankBy_ranks_length in Hl.
      destruct (rankBy_ranks_Some values j Hl) as (k & _ & Hk). congruence. }
    rewrite Hr. apply lookup_replicate_2.
    apply lookup_lt_Some in Hj. rewrite rankBy_ranks_length in Hj. exact Hj.
  - destruct IH as [Hlen IH]; [lia|].
    rewrite seq_S. unfold scatter. rewrite fold_left_app. cbn [fold_left].
    fold (scatter (rankBy values).2 g (seq 1 m) (replicate (length values) (of_int 0))).
    set (a := scatter _ _ _ _) in *.
    destruct (lookup_lt_is_Some_2 (rankBy values).1 m) as [pid Hpid].
    { rewrite rankBy_order_length. lia. }
    change (1 + m)%nat with (S m).
    rewrite (findIndex_rank values m pid Hpid). cbn [set_found].
    split; [rewrite length_insert; exact Hlen|].
    intros j r Hj. destruct (decide (j = pid)) as [->|Hne].
    + pose proof (proj1 (rankBy_inverse values m pid) Hpid) as Hr.
      rewrite Hj in Hr. inversion Hr; subst r.
      rewrite list_lookup_insert_eq.
      * rewrite Nat.leb_refl. reflexivity.
      * rewrite Hlen. eapply rankBy_order_lt. exact Hpid.
    + rewrite list_lookup_insert_ne by congruence.
      rewrite (IH j r Hj).
      assert (r <> S m).
      { intros ->. apply rankBy_inverse in Hj. congruence. }
      destruct (Nat.leb_spec r m), (Nat.leb_spec r (S m)); try lia; reflexivity.
Qed.

(** After the loop every slot holds the value computed for its rank. *)
Lemma scatter_ranks (values : list T) (g : nat -> T) :
  scatter (rankBy values).2 g (seq 1 (length values)) (replicate (length values) (of_int 0))
  = g <$> rank_values (rankBy values).2.
Proof.
  destruct (scatter_prefix values g (length values) (Nat.le_refl _)) as [Hlen H].
  apply list_eq. intros j. rewrite list_lookup_fmap.
  destruct (rank_values (rankBy values).2 !! j) as [r|] eqn:E.
  - apply rank_values_lookup in E. rewrite (H j r E).
    assert (Hr : (r <=? length values)%nat = true).
    { apply Nat.leb_le.
      assert (Hin : r ∈ seq 1 (length values)).
      { rewrite <- (rank_values_perm values).
        eapply list_elem_of_lookup_2. apply rank_values_lookup. exact E. }
      apply list_elem_of_In, in_seq in Hin. lia. }
    rewrite Hr. reflexivity.
  - apply lookup_ge_None_2. rewrite Hlen.
    apply lookup_ge_None in E. unfold rank_values in E.
    rewrite length_fmap, rankBy_ranks_length in E. exact E.
Qed.

End Settlement.

(* ====================================================================== *)
(** ** What a run of [tierRun] returns *)

Section TierRunFacts.
Context {T : Type} `{NT : Number T}.

Lemma normalLike_at rand s : normalLike rand s = Some (noise_at rand s, (s + 3)%nat).
Proof.
  unfold normalLike, bind, Math_random, ret, noise_at. do 2 f_equal. lia.
Qed.

(** The legacy [tierRun] is the S15 one called without [fixedYTopK]. *)
Lemma tierRun_legacy_eq rand playersIdx (players : list Player) z y weights giveYToTopHalf :
  tierRun_legacy rand playersIdx players z y weights giveYToTopHalf =
  tierRun rand playersIdx players z y weights giveYToTopHalf None.
Proof. reflexivity. Qed.

Lemma tierRun_body_inv fixedOf rand playersIdx players z weights s res players' s' :
  tierRun_body fixedOf rand playersIdx players z weights s = Some ((res, players'), s') ->
  tier_spec (fixedOf (length playersIdx)) playersIdx players z weights res players'.
Proof.
  unfold tierRun_body. intros H.
  apply bind_Some in H as (perf & s1 & Hperf & H).
  destruct (rankBy perf) as [order0 ranks0] eqn:Hrank.
  apply bind_Some in H as (fees0 & s2 & Hfees & H).
  rewrite settle_scatter in H. cbn in H. inversion H; subst; clear H.
  pose proof (mapE_length _ _ _ _ _ Hperf) as Hlen.
  assert (Hent : exists ents, Forall2 (fun pi p => players !! pi = Some p) playersIdx ents
                              /\ fees0 = (fun p => chips p /! z) <$> ents).
  { clear Hperf Hrank Hlen. revert s1 fees0 s' Hfees.
    induction playersIdx as [|pi l IH]; intros s1 fees0 s' Hfees.
    - cbn in Hfees. inversion Hfees; subst. exists []. split; constructor.
    - cbn [mapE] in Hfees. apply bind_Some in Hfees as (f & s2 & Hf & Hfees).
      apply bind_Some in Hfees as (fs & s3 & Hfs & Hfees).
      cbn in Hfees. inversion Hfees; subst.
      apply bind_Some in Hf as (p & s4 & Hp & Hf). apply defined_Some in Hp as [Hp ->].
      cbn in Hf. inversion Hf; subst.
      destruct (IH _ _ _ Hfs) as (ents & Hents & ->).
      exists (p :: ents). split; [constructor; assumption | reflexivity]. }
  destruct Hent as (ents & Hents & ->).
  assert (Hr : ranks0 = (rankBy perf).2) by (rewrite Hrank; reflexivity).
  assert (Ho : order0 = (rankBy perf).1) by (rewrite Hrank; reflexivity).
  rewrite <- Hlen.
  econstructor; cbn [order ranks fees pool fixedY sharePool payouts deltas];
    try reflexivity; try eassumption.
  - rewrite Hr. apply scatter_ranks.
  - rewrite Hr. apply scatter_ranks.
  - rewrite Hr. apply scatter_ranks.
Qed.

(** A call whose participants all are roster entries completes, having
    drawn three random numbers per participant. *)
Lemma tierRun_body_total fixedOf rand playersIdx players z weights s :
  Forall (fun pi => (pi < length players)%nat) playersIdx ->
  exists res players',
    tierRun_body fixedOf rand playersIdx players z weights s
    = Some ((res, players'), (s + 3 * length playersIdx)%nat).
Proof.
  intros Hvalid. unfold tierRun_body.
  assert (Hperf : forall s, exists perf,
             mapE (fun pi => let* p := defined (players !! pi) in
                             let* n := normalLike rand in
                             ret (skill p +! n)) playersIdx s
             = Some (perf, (s + 3 * length playersIdx)%nat)).
  { clear s. induction Hvalid as [|pi l Hpi _ IH]; intros s.
    - exists []. cbn. unfold ret. do 2 f_equal. lia.
    - destruct (lookup_lt_is_Some_2 players pi Hpi) as [p Hp].
      pose proof (normalLike_at rand s) as Hn.
      destruct (IH (s + 3)%nat) as [perf Hperf].
      exists ((skill p +! noise_at rand s) :: perf). cbn [mapE].
      unfold bind at 1. unfold bind at 1. rewrite Hp. cbn [defined ret].
      unfold bind at 1. rewrite Hn. cbn [ret].
      unfold bind at 1. rewrite Hperf. unfold ret. do 2 f_equal. cbn [length]. lia. }
  assert (Hfees : forall s, exists fees0,
             mapE (fun pi => let* p := defined (players !! pi) in
                             ret (chips p /! z)) playersIdx s = Some (fees0, s)).
  { clear s Hperf. induction Hvalid as [|pi l Hpi _ IH]; intros s.
    - exists []. reflexivity.
    - destruct (lookup_lt_is_Some_2 players pi Hpi) as [p Hp].
      destruct (IH s) as [fs Hfs].
      exists ((chips p /! z) :: fs). cbn [mapE].
      unfold bind at 1. unfold bind at 1. rewrite Hp. cbn [defined ret].
      unfold bind at 1. rewrite Hfs. reflexivity. }
  destruct (Hperf s) as [perf Hp]. unfold bind at 1. rewrite Hp.
  destruct (rankBy perf) as [order0 ranks0].
  destruct (Hfees (s + 3 * length playersIdx)%nat) as [fees0 Hf].
  unfold bind at 1. rewrite Hf.
  destruct (settle _ _ _ _ _) as [[payouts0 sharePool0] fixedY0].
  eexists _, _. reflexivity.
Qed.

(** The arrays of a result all have one element per participant. *)
Lemma tier_spec_lengths fixedOf playersIdx players z weights res players' :
  tier_spec fixedOf playersIdx players z weights res players' ->
  length (order res) = length playersIdx /\
  length (ranks res) = length playersIdx /\
  length (fees res) = length playersIdx /\
  length (fixedY res) = length playersIdx /\
  length (sharePool res) = length playersIdx /\
  length (payouts res) = length playersIdx /\
  length (deltas res) = length playersIdx.
Proof.
  intros [ents perf Hv Hl Ho Hr Hf Hp HY HS HP HD _].
  assert (Hrl : length (ranks res) = length playersIdx).
  { rewrite Hr, rankBy_ranks_length. exact Hl. }
  assert (Hvl : length (rank_values (ranks res)) = length playersIdx).
  { unfold rank_values. rewrite length_fmap. exact Hrl. }
  repeat split.
  - rewrite Ho, rankBy_order_length. exact Hl.
  - exact Hrl.
  - rewrite Hf, length_fmap. symmetry. eapply Forall2_length. exact Hv.
  - rewrite HY, length_fmap. exact Hvl.
  - rewrite HS, length_fmap. exact Hvl.
  - rewrite HP, length_fmap. exact Hvl.
  - rewrite HD, length_imap, HP, length_fmap. exact Hvl.
Qed.

(** [playersIdx.forEach((pi, j) => { players[pi].chips += deltas[j]; })]
    over distinct participants: each gets its own delta, the rest of the
    roster is untouched. *)
Lemma apply_deltas_gen (playersIdx : list nat) (off : nat) (deltas : list T)
    (players : list Player) :
  NoDup playersIdx ->
  let r := fold_left
             (fun players jp =>
                alter (fun p => mkPlayer (id p) (skill p) (chips p +! get deltas jp.1))
                      jp.2 players)
             (imap (fun j pi => ((off + j)%nat, pi)) playersIdx) players in
  length r = length players /\
  forall i,
    (forall j, playersIdx !! j = Some i ->
               r !! i = (fun p => mkPlayer (id p) (skill p)
                                           (chips p +! get deltas (off + j)%nat))
                          <$> players !! i) /\
    (i ∉ playersIdx -> r !! i = players !! i).
Proof.
  revert off players. induction playersIdx as [|pi l IH]; intros off players Hnd; cbn.
  - split; [reflexivity|]. intros i. split; [intros j Hj; discriminate | reflexivity].
  - apply NoDup_cons in Hnd as [Hpi Hnd].
    set (players1 := alter _ pi players).
    specialize (IH (S off) players1 Hnd). cbn zeta in IH.
    erewrite (imap_ext _ (fun j pi => ((S off + j)%nat, pi))); last first.
    { intros i y _. cbn. f_equal. lia. }
    destruct IH as [Hlen IH].
    split; [rewrite Hlen; apply length_alter|].
    intros i. destruct (IH i) as [IH1 IH2]. split.
    + intros [|j] Hj; cbn in Hj.
      * inversion Hj; subst i. rewrite IH2 by exact Hpi.
        unfold players1. rewrite list_lookup_alter_eq. reflexivity.
      * rewrite (IH1 j Hj). unfold players1.
        rewrite list_lookup_alter_ne.
        -- replace (S off + j)%nat with (off + S j)%nat by lia. reflexivity.
        -- intros ->. apply Hpi. eapply list_elem_of_lookup_2. exact Hj.
    + intros Hnin. apply not_elem_of_cons in Hnin as [Hne Hnin].
      rewrite IH2 by exact Hnin. unfold players1.
      apply list_lookup_alter_ne. congruence.
Qed.

Lemma apply_deltas_lookup (playersIdx : list nat) (deltas : list T) (players : list Player) :
  NoDup playersIdx ->
  length (apply_deltas playersIdx deltas players) = length players /\
  forall i,
    (forall j, playersIdx !! j = Some i ->
               apply_deltas playersIdx deltas players !! i
               = (fun p => mkPlayer (id p) (skill p) (chips p +! get deltas j))
                   <$> players !! i) /\
    (i ∉ playersIdx -> apply_deltas playersIdx deltas players !! i = players !! i).
Proof.
  intros Hnd. exact (apply_deltas_gen playersIdx 0 deltas players Hnd).
Qed.

End TierRunFacts.

(* ====================================================================== *)
(** ** Bonus eligibility *)

Section Eligibility.
Context {T : Type} `{NT : Number T}.

Lemma fixed_topK_eligible N y g K r :
  fixed_topK N y g K r = if eligible N g K r then y else of_int 0.
Proof. unfold fixed_topK, eligible. destruct g; reflexivity. Qed.

End Eligibility.

(** [ceil_half N] is the ceiling of N/2. *)
Lemma ceil_half_spec N : (N <= 2 * ceil_half N <= N + 1)%nat.
Proof.
  unfold ceil_half.
  pose proof (Nat.div_mod_eq (N + 1) 2) as H.
  pose proof (Nat.mod_upper_bound (N + 1) 2) as H'. lia.
Qed.

Lemma ceil_half_le N : (ceil_half N <= N)%nat.
Proof. pose proof (ceil_half_spec N). lia. Qed.

Lemma count_upto (m N : nat) :
  length (List.filter (fun r => (r <=? m)%nat) (seq 1 N)) = Nat.min m N.
Proof.
  induction N as [|N IH]; [cbn; lia|].
  rewrite seq_S, List.filter_app, length_app, IH. cbn [List.filter].
  destruct (Nat.leb_spec (1 + N) m); cbn [length]; lia.
Qed.

Lemma count_all (N : nat) : length (List.filter (fun _ => true) (seq 1 N)) = N.
Proof.
  induction N as [|N IH]; [reflexivity|].
  rewrite seq_S, List.filter_app, length_app, IH. cbn. lia.
Qed.

Lemma filter_ext_length {A} (f g : A -> bool) (l : list A) :
  (forall a, f a = g a) -> length (List.filter f l) = length (List.filter g l).
Proof. intros H. rewrite (List.filter_ext f g H). reflexivity. Qed.

Section EligibilityQ.
Local Open Scope Q_scope.

Lemma rank_le_Q (r k : nat) :
  (of_int (Z.of_nat r) <=! inject_Z (Z.of_nat k))%js = (r <=? k)%nat.
Proof.
  destruct (Nat.leb_spec r k) as [H|H].
  - apply nle_Q. change (inject_Z (Z.of_nat r) <= inject_Z (Z.of_nat k)).
    rewrite <- Zle_Qle. lia.
  - apply nle_Q_false. change (inject_Z (Z.of_nat k) < inject_Z (Z.of_nat r)).
    rewrite <- Zlt_Qlt. lia.
Qed.

(** The eligible-rank count of each policy: the top half, all ranks, and
    an explicit top-K cutoff (which cannot exceed the field). *)
Lemma eligible_count_top_half N : eligible_count (T:=Q) N true None = ceil_half N.
Proof.
  unfold eligible_count, eligible. rewrite count_upto.
  pose proof (ceil_half_le N). lia.
Qed.

Lemma eligible_count_all N K : eligible_count (T:=Q) N false K = N.
Proof. unfold eligible_count, eligible. apply count_all. Qed.

Lemma eligible_count_topK N (k : nat) :
  eligible_count N true (Some (inject_Z (Z.of_nat k))) = Nat.min k N.
Proof.
  unfold eligible_count, eligible.
  rewrite (filter_ext_length _ (fun r => (r <=? k)%nat)); [apply count_upto|].
  intros r. apply rank_le_Q.
Qed.

End EligibilityQ.

(* ====================================================================== *)
(** ** Settlement: conservation *)

Section Conservation.
Local Open Scope Q_scope.

Lemma tier_spec_sum_deltas (fixedOf : nat -> Q) playersIdx players z weights res players' :
  tier_spec fixedOf playersIdx players z weights res players' ->
  sum (deltas res) ==
  sum ((fun r => or_zero (weights !! (r - 1)%nat)) <$> seq 1 (length playersIdx)) * pool res
  + sum (fixedOf <$> seq 1 (length playersIdx)) - pool res.
Proof.
  intros Hspec.
  pose proof (tier_spec_lengths _ _ _ _ _ _ _ Hspec) as (_ & _ & Hfl & _ & _ & Hpl & _).
  destruct Hspec as [ents perf Hv Hl Ho Hr Hf Hp HY HS HP HD _].
  rewrite HD, sum_deltas by congruence.
  rewrite <- Hp. rewrite HP.
  assert (Hperm : Permutation (rank_values (ranks res)) (seq 1 (length playersIdx))).
  { rewrite Hr, <- Hl. apply rank_values_perm. }
  rewrite (sum_perm _ _ (fmap_Permutation _ _ _ Hperm)).
  change (fun r => (or_zero (weights !! (r - 1)%nat) *! pool res +! fixedOf r)%js)
    with (fun r => (fun r => or_zero (weights !! (r - 1)%nat) * pool res) r + fixedOf r).
  rewrite sum_map_plus, (sum_map_scale (fun r => or_zero (weights !! (r - 1)%nat))).
  reflexivity.
Qed.

End Conservation.

(** C1.  For every settlement call whose participants are roster entries,
    with N participants, fee divisor z > 0, fixed bonus y, a weight vector
    whose entries for the N ranks sum to 1, and any eligibility policy
    (top half, all, or top-K): the call completes and, in exact
    arithmetic, its net deltas sum to y times the number of
    bonus-eligible ranks, whatever the random draws.  The legacy
    [tierRun] is the case [fixedYTopK = None] ([tierRun_legacy_eq]). *)
Theorem tierRun_conservation (rand : nat -> Q) (playersIdx : list nat)
    (players : list Player) (z y : Q) (weights : list Q)
    (giveYToTopHalf : bool) (fixedYTopK : option Q) (s : nat) :
  (0 < z)%Q ->
  Forall (fun pi => (pi < length players)%nat) playersIdx ->
  (sum (take (length playersIdx) weights) == 1)%Q ->
  exists res players' s',
    tierRun rand playersIdx players z y weights giveYToTopHalf fixedYTopK s
    = Some ((res, players'), s') /\
    (sum (deltas res) ==
     y * inject_Z (Z.of_nat (eligible_count (length playersIdx) giveYToTopHalf fixedYTopK)))%Q.
Proof.
  intros Hz Hvalid Hsum.
  destruct (tierRun_body_total
              (fun N => fixed_topK N y giveYToTopHalf fixedYTopK)
              rand playersIdx players z weights s Hvalid) as (res & players' & Hrun).
  exists res, players', (s + 3 * length playersIdx)%nat. split; [exact Hrun|].
  apply tierRun_body_inv in Hrun.
  rewrite (tier_spec_sum_deltas _ _ _ _ _ _ _ Hrun).
  rewrite (sum_first_weights weights), Hsum.
  rewrite (sum_map_ext _ (fun r => if eligible (length playersIdx) giveYToTopHalf
                                                fixedYTopK r then y else 0%Q)).
  - rewrite sum_bonus. unfold eligible_count. lra.
  - intros r _. rewrite fixed_topK_eligible. reflexivity.
Qed.

Lemma tierRun_conservation_witness :
  exists res players' s',
    tierRun demo_rand [2; 0; 3]%nat demo_roster (8 # 1) (50 # 1)
            [1 # 2; 1 # 4; 1 # 4; 1 # 8] true None 0
    = Some ((res, players'), s') /\
    (sum (deltas res) == (50 # 1) * inject_Z (Z.of_nat (eligible_count 3 true None)))%Q.
Proof.
  apply tierRun_conservation.
  - reflexivity.
  - repeat constructor.
  - reflexivity.
Defined.

(** The claim as stated fails in two ways.  A weight vector that sums to
    1 but is longer than the field: only the weights of the N ranks are
    paid, so with two participants and the weights 1/2, 1/4, 1/4 a
    quarter of the pool stays unpaid and the deltas sum to 94.375, not to
    2 * 50.  And binary64: with four participants of 100 chips, z = 3,
    y = 50 for the top half and the weights 1/2, 1/4, 1/8, 1/8 (which sum
    to 1 exactly), the deltas sum to 100.00000000000001. *)
Lemma tierRun_conservation_counterexample :
  (exists res players' s',
     tierRun demo_rand [2; 0]%nat demo_roster (8 # 1) (50 # 1) [1 # 2; 1 # 4; 1 # 4]
             false None 0
     = Some ((res, players'), s') /\
     (sum [1 # 2; 1 # 4; 1 # 4] == 1)%Q /\
     eligible_count (T:=Q) 2 false None = 2%nat /\
     (sum (deltas res) == 755 # 8)%Q /\
     ~ (sum (deltas res) == (50 # 1) * inject_Z 2)%Q) /\
  (exists res players' s',
     tierRun demo_rand64 [0; 1; 2; 3]%nat demo_roster64 (of_int 3) (of_int 50)
             [dec 1 2; dec 1 4; dec 1 8; dec 1 8] true None 0
     = Some ((res, players'), s') /\
     PrimFloat.eqb (sum [dec 1 2; dec 1 4; dec 1 8; dec 1 8]) (of_int 1) = true /\
     eligible_count (T:=float) 4 true None = 2%nat /\
     PrimFloat.ltb (of_int 50 *! of_int 2) (sum (deltas res)) = true /\
     PrimFloat.eqb (sum (deltas res)) (of_int 50 *! of_int 2) = false).
Proof.
  split; eexists _, _, _; (split; [vm_compute; reflexivity|]).
  - split; [reflexivity|]. split; [reflexivity|]. split; [reflexivity|].
    vm_compute. discriminate.
  - repeat split; vm_compute; reflexivity.
Qed.

(* ====================================================================== *)
(** ** Settlement: who is paid the fixed bonus *)

Section Bonus.
Local Open Scope Q_scope.

Lemma filter_length_perm {A} (e : A -> bool) (l k : list A) :
  Permutation l k -> length (List.filter e l) = length (List.filter e k).
Proof.
  induction 1 as [|x l k _ IH|x y l|l k m _ IH1 _ IH2]; cbn [List.filter].
  - reflexivity.
  - destruct (e x); cbn [length]; lia.
  - destruct (e x), (e y); reflexivity.
  - lia.
Qed.

Lemma paid_count_bonus (e : nat -> bool) (y : Q) (l : list nat) :
  0 < y ->
  paid_count ((fun r => if e r then y else of_int 0) <$> l) = length (List.filter e l).
Proof.
  intros Hy. unfold paid_count.
  induction l as [|r l IH]; cbn [fmap list_fmap List.filter]; [reflexivity|].
  destruct (e r).
  - assert (H : (of_int 0 <! y)%js = true) by (apply nlt_Q; exact Hy).
    rewrite H. cbn [length]. rewrite IH. reflexivity.
  - assert (H : (of_int 0 <! (of_int 0 : Q))%js = false) by reflexivity.
    rewrite H. exact IH.
Qed.

(** In a completed run the slot with rank [r] holds the bonus of rank
    [r], and for a positive [y] the paid slots are as many as the
    eligible ranks. *)
Lemma tier_spec_bonus N (y : Q) g K playersIdx players z weights res players' :
  N = length playersIdx ->
  tier_spec (fixed_topK N y g K) playersIdx players z weights res players' ->
  (forall j r, ranks res !! j = Some (Some r) ->
               fixedY res !! j = Some (if eligible N g K r then y else 0)) /\
  (forall j, (j < N)%nat -> exists r, ranks res !! j = Some (Some r) /\ (1 <= r <= N)%nat) /\
  (0 < y -> paid_count (fixedY res) = eligible_count N g K).
Proof.
  intros -> [ents perf Hv Hl Ho Hr Hf Hp HY HS HP HD _].
  assert (Hperm : Permutation (rank_values (ranks res)) (seq 1 (length playersIdx))).
  { rewrite Hr, <- Hl. apply rank_values_perm. }
  split; [|split].
  - intros j r Hj. rewrite HY, list_lookup_fmap.
    rewrite Hr in Hj. apply rank_values_lookup in Hj. rewrite <- Hr in Hj.
    rewrite Hj. cbn. rewrite fixed_topK_eligible. reflexivity.
  - intros j Hj. rewrite <- Hl in Hj.
    destruct (rankBy_ranks_Some perf j Hj) as (k & Hk & Hk').
    exists (S k). rewrite Hr. split; [exact Hk'|].
    apply lookup_lt_Some in Hk. rewrite rankBy_order_length in Hk. lia.
  - intros Hy. rewrite HY.
    erewrite (list_fmap_ext _ (fun r => if eligible _ g K r then y else of_int 0)); last first.
    { intros _ r _. apply fixed_topK_eligible. }
    rewrite (paid_count_bonus _ y _ Hy). unfold eligible_count.
    apply filter_length_perm. exact Hperm.
Qed.

End Bonus.

(** C4, as the code has it.  In every settlement call whose participants
    are roster entries, the slot ranked r is paid exactly y when r is
    eligible and 0 otherwise: ranks 1..ceil(N/2) under the top-half
    policy, all ranks under the all policy, ranks up to K under the
    top-K policy; and when y > 0 the number of participants with a
    positive recorded bonus is ceil(N/2), N, and min(K, N). *)
Theorem tierRun_bonus_eligibility (rand : nat -> Q) (playersIdx : list nat)
    (players : list Player) (z y : Q) (weights : list Q)
    (giveYToTopHalf : bool) (fixedYTopK : option Q) (s : nat) :
  Forall (fun pi => (pi < length players)%nat) playersIdx ->
  let N := length playersIdx in
  exists res players' s',
    tierRun rand playersIdx players z y weights giveYToTopHalf fixedYTopK s
    = Some ((res, players'), s') /\
    (forall j, (j < N)%nat -> exists r, ranks res !! j = Some (Some r) /\ (1 <= r <= N)%nat) /\
    (giveYToTopHalf = true -> fixedYTopK = None ->
       (forall j r, ranks res !! j = Some (Some r) ->
                    fixedY res !! j = Some (if (r <=? ceil_half N)%nat then y else 0%Q)) /\
       ((0 < y)%Q -> paid_count (fixedY res) = ceil_half N)) /\
    (giveYToTopHalf = false ->
       (forall j r, ranks res !! j = Some (Some r) -> fixedY res !! j = Some y) /\
       ((0 < y)%Q -> paid_count (fixedY res) = N)) /\
    (forall K : nat,
       giveYToTopHalf = true -> fixedYTopK = Some (inject_Z (Z.of_nat K)) ->
       (forall j r, ranks res !! j = Some (Some r) ->
                    fixedY res !! j = Some (if (r <=? K)%nat then y else 0%Q)) /\
       ((0 < y)%Q -> paid_count (fixedY res) = Nat.min K N)).
Proof.
  intros Hvalid N.
  destruct (tierRun_body_total
              (fun N => fixed_topK N y giveYToTopHalf fixedYTopK)
              rand playersIdx players z weights s Hvalid) as (res & players' & Hrun).
  exists res, players', (s + 3 * length playersIdx)%nat. split; [exact Hrun|].
  apply tierRun_body_inv in Hrun.
  destruct (tier_spec_bonus N y giveYToTopHalf fixedYTopK _ _ _ _ _ _ eq_refl Hrun)
    as (Hslot & Hranked & Hcount).
  split; [exact Hranked|]. split; [|split].
  - intros -> ->. split.
    + intros j r Hj. exact (Hslot j r Hj).
    + intros Hy. rewrite (Hcount Hy). apply eligible_count_top_half.
  - intros ->. split.
    + intros j r Hj. exact (Hslot j r Hj).
    + intros Hy. rewrite (Hcount Hy). apply eligible_count_all.
  - intros K -> ->. split.
    + intros j r Hj. rewrite (Hslot j r Hj). unfold eligible.
      rewrite rank_le_Q. reflexivity.
    + intros Hy. rewrite (Hcount Hy). apply eligible_count_topK.
Qed.

Lemma tierRun_bonus_eligibility_witness :
  exists res players' s',
    tierRun demo_rand [2; 0; 3; 1]%nat demo_roster (8 # 1) (50 # 1) [3 # 4; 1 # 4]
            true (Some (inject_Z (Z.of_nat 3))) 0
    = Some ((res, players'), s') /\
    paid_count (fixedY res) = 3%nat.
Proof.
  destruct (tierRun_bonus_eligibility demo_rand [2; 0; 3; 1]%nat demo_roster (8 # 1) (50 # 1)
              [3 # 4; 1 # 4] true (Some (inject_Z (Z.of_nat 3))) 0)
    as (res & players' & s' & Hrun & _ & _ & _ & HK).
  - repeat constructor.
  - exists res, players', s'. split; [exact Hrun|].
    destruct (HK 3%nat eq_refl eq_refl) as [_ Hcount].
    apply Hcount. reflexivity.
Defined.

(** C4 as stated fails where the bonus is 0 (the controls admit y = 0)
    and where the cutoff exceeds the field: with y = 0 under the top-half
    policy nobody has a positive recorded bonus though ceil(2/2) = 1 rank
    is eligible, and with K = 32 on a field of 2 the paid participants
    are 2, not 32. *)
Lemma tierRun_bonus_count_counterexample :
  (exists res players' s',
     tierRun demo_rand [2; 0]%nat demo_roster (8 # 1) (0 # 1) [3 # 4; 1 # 4] true None 0
     = Some ((res, players'), s') /\
     paid_count (fixedY res) = 0%nat /\ paid_count (fixedY res) <> ceil_half 2) /\
  (exists res players' s',
     tierRun demo_rand [2; 0]%nat demo_roster (8 # 1) (20 # 1) [3 # 4; 1 # 4]
             true (Some (32 # 1)) 0
     = Some ((res, players'), s') /\
     paid_count (fixedY res) = 2%nat /\ paid_count (fixedY res) <> 32%nat).
Proof.
  split; eexists _, _, _; (split; [vm_compute; reflexivity|]);
    split; try reflexivity; vm_compute; discriminate.
Qed.



(* ====================================================================== *)
(** ** Settlement: edge cases *)

Section EdgeCases.
Context {T : Type} `{NT : Number T}.

Lemma scatter_ext ranks (g g' : nat -> T) rs init :
  (forall r, g r = g' r) -> scatter ranks g rs init = scatter ranks g' rs init.
Proof.
  intros H. revert init. induction rs as [|r rs IH]; intros init; cbn.
  - reflexivity.
  - rewrite H. apply IH.
Qed.

(** The loop reads [weights] only through [weights[r - 1] || 0]. *)
Lemma settle_ext N ranks (weights weights' : list T) pool fixedOf :
  (forall k, or_zero (weights !! k) = or_zero (weights' !! k)) ->
  settle N ranks weights pool fixedOf = settle N ranks weights' pool fixedOf.
Proof.
  intros H. rewrite !settle_scatter.
  rewrite (scatter_ext ranks
             (fun r => or_zero (weights !! (r - 1)%nat) *! pool +! fixedOf r)
             (fun r => or_zero (weights' !! (r - 1)%nat) *! pool +! fixedOf r))
    by (intros r; rewrite H; reflexivity).
  rewrite (scatter_ext ranks
             (fun r => or_zero (weights !! (r - 1)%nat) *! pool)
             (fun r => or_zero (weights' !! (r - 1)%nat) *! pool))
    by (intros r; rewrite H; reflexivity).
  reflexivity.
Qed.

Lemma tierRun_body_weights_ext fixedOf rand playersIdx players z (weights weights' : list T) s :
  (forall k, or_zero (weights !! k) = or_zero (weights' !! k)) ->
  tierRun_body fixedOf rand playersIdx players z weights s =
  tierRun_body fixedOf rand playersIdx players z weights' s.
Proof.
  intros H. unfold tierRun_body, bind.
  destruct (mapE _ playersIdx s) as [[perf s1]|]; [|reflexivity].
  destruct (rankBy perf) as [order0 ranks0].
  destruct (mapE _ playersIdx s1) as [[fees0 s2]|]; [|reflexivity].
  rewrite (settle_ext _ _ weights weights' _ _ H). reflexivity.
Qed.

End EdgeCases.

Lemma or_zero_padded (weights : list Q) (n k : nat) :
  or_zero (weights !! k) = or_zero ((weights ++ replicate n 0%Q) !! k).
Proof.
  destruct (Nat.lt_ge_cases k (length weights)) as [Hlt|Hge].
  - rewrite lookup_app_l by exact Hlt. reflexivity.
  - rewrite lookup_app_r by exact Hge.
    rewrite (lookup_ge_None_2 weights k Hge).
    destruct (replicate n 0%Q !! (k - length weights)%nat) as [v|] eqn:E; [|reflexivity].
    apply lookup_replicate in E as [-> _]. reflexivity.
Qed.

(** C9.  A settlement call whose participants are roster entries always
    completes; its arrays (fees, fixed bonuses, pool shares, payouts,
    deltas, and the ranking) have exactly N elements; with no participant
    it returns empty arrays and pool 0, leaving the roster and the random
    source alone; and a weight vector shorter than N gives the very
    result of the same vector filled up with zeros to length N. *)
Theorem tierRun_edge_cases (rand : nat -> Q) (playersIdx : list nat)
    (players : list Player) (z y : Q) (weights : list Q)
    (giveYToTopHalf : bool) (fixedYTopK : option Q) (s : nat) :
  Forall (fun pi => (pi < length players)%nat) playersIdx ->
  let N := length playersIdx in
  (exists res players' s',
     tierRun rand playersIdx players z y weights giveYToTopHalf fixedYTopK s
     = Some ((res, players'), s') /\
     length (fees res) = N /\ length (fixedY res) = N /\ length (sharePool res) = N /\
     length (payouts res) = N /\ length (deltas res) = N /\
     length (order res) = N /\ length (ranks res) = N) /\
  (N = 0%nat ->
     tierRun rand playersIdx players z y weights giveYToTopHalf fixedYTopK s
     = Some ((mkTierResult [] [] [] 0%Q [] [] [] [], players), s)) /\
  tierRun rand playersIdx players z y weights giveYToTopHalf fixedYTopK s
  = tierRun rand playersIdx players z y
            (weights ++ replicate (N - length weights) 0%Q) giveYToTopHalf fixedYTopK s.
Proof.
  intros Hvalid N. split; [|split].
  - destruct (tierRun_body_total
                (fun N => fixed_topK N y giveYToTopHalf fixedYTopK)
                rand playersIdx players z weights s Hvalid) as (res & players' & Hrun).
    exists res, players', (s + 3 * length playersIdx)%nat. split; [exact Hrun|].
    apply tierRun_body_inv in Hrun.
    destruct (tier_spec_lengths _ _ _ _ _ _ _ Hrun) as (Ho & Hr & Hf & HY & HS & HP & HD).
    repeat split; assumption.
  - intros HN. destruct playersIdx; [reflexivity | discriminate].
  - apply tierRun_body_weights_ext. intros k. apply or_zero_padded.
Qed.

Lemma tierRun_edge_cases_witness :
  exists res players' s',
    tierRun demo_rand [2; 0; 3; 1]%nat demo_roster (8 # 1) (50 # 1) [3 # 4; 1 # 4] true None 0
    = Some ((res, players'), s') /\
    length (deltas res) = 4%nat /\ length (sharePool res) = 4%nat.
Proof.
  destruct (tierRun_edge_cases demo_rand [2; 0; 3; 1]%nat demo_roster (8 # 1) (50 # 1)
              [3 # 4; 1 # 4] true None 0)
    as ((res & players' & s' & Hrun & _ & _ & HS & _ & HD & _) & _ & _).
  - repeat constructor.
  - exists res, players', s'. split; [exact Hrun|]. split; [exact HD | exact HS].
Defined.

(* ====================================================================== *)
(** ** Decay *)

Section Decay.
Local Open Scope Q_scope.

Lemma clamp_pct_range p : 0 <= clamp_pct p <= 100.
Proof.
  unfold clamp_pct. split.
  - apply Q.le_max_l.
  - apply Q.max_lub; [lra | apply Q.le_min_l].
Qed.

Lemma clamp_pct_id p : 0 <= p <= 100 -> clamp_pct p == p.
Proof.
  intros [H0 H100]. unfold clamp_pct.
  rewrite (Q.min_r 100 p) by exact H100. apply Q.max_r. exact H0.
Qed.

Lemma decay_pct_clamped (p : Q) :
  nmax (of_int 0) (nmin (of_int 100) (or_zero (Some p))) == clamp_pct p.
Proof.
  rewrite nmax_Q, nmin_Q. unfold clamp_pct.
  change (of_int 0) with 0. change (of_int 100) with 100.
  rewrite (or_zero_Q (Some p)). reflexivity.
Qed.

Lemma decayAll_players (st : Sim) :
  Forall2 (fun old new => id new = id old /\ skill new = skill old /\
                          chips new == decayed (decay_pct (params st)) (chips old))
          (players st) (players (decayAll st)).
Proof.
  unfold decayAll; cbn [players].
  induction (players st) as [|p l IH]; cbn [map]; constructor; [|exact IH].
  cbn [id skill chips]. split; [reflexivity|]. split; [reflexivity|].
  rewrite nmax_Q. unfold decayed. change (of_int 0) with 0.
  change ((chips p *! (of_int 1 -! ?a /! of_int 100))%js)
    with (chips p * (1 - a / 100)).
  rewrite decay_pct_clamped. reflexivity.
Qed.

Lemma decayed_compose (p1 p2 x : Q) :
  decayed p2 (decayed p1 x)
  == decayed (100 * (1 - (1 - clamp_pct p1 / 100) * (1 - clamp_pct p2 / 100))) x.
Proof.
  unfold decayed.
  pose proof (clamp_pct_range p1) as [H1 H1'].
  pose proof (clamp_pct_range p2) as [H2 H2'].
  set (c1 := clamp_pct p1) in *. set (c2 := clamp_pct p2) in *.
  set (f1 := 1 - c1 / 100). set (f2 := 1 - c2 / 100).
  assert (Hf1 : 0 <= f1 <= 1).
  { unfold f1, Qdiv. change (/ 100) with (1 # 100). lra. }
  assert (Hf2 : 0 <= f2 <= 1).
  { unfold f2, Qdiv. change (/ 100) with (1 # 100). lra. }
  assert (Hprod : 0 <= f1 * f2 <= 1) by nra.
  rewrite (clamp_pct_id (100 * (1 - f1 * f2))) by lra.
  assert (Hf : 1 - 100 * (1 - f1 * f2) / 100 == f1 * f2) by field.
  rewrite Hf.
  destruct (Qlt_le_dec (x * f1) 0) as [Hneg|Hpos].
  - rewrite (Q.max_l 0 (x * f1)) by lra.
    assert (x * (f1 * f2) <= 0) by nra.
    rewrite (Q.max_l 0 (0 * f2)) by lra.
    rewrite (Q.max_l 0 (x * (f1 * f2))) by assumption. reflexivity.
  - rewrite (Q.max_r 0 (x * f1)) by exact Hpos.
    rewrite <- Qmult_assoc. reflexivity.
Qed.

End Decay.

(** C7.  [decayAll] at configured percentage p keeps every competitor's id
    and skill and sets the balance to max(0, old * (1 - p'/100)) where p'
    is p clamped to [0, 100]; and, in exact arithmetic, a decay at p1
    followed by a decay at p2 leaves every competitor with the balance of
    a single decay at 100 * (1 - (1 - p1'/100) * (1 - p2'/100)). *)
Theorem decayAll_scales_and_composes (st : Sim (T:=Q)) :
  Forall2 (fun old new =>
             id new = id old /\ skill new = skill old /\
             (chips new ==
              Qmax 0 (chips old * (1 - Qmax 0 (Qmin 100 (decay_pct (params st))) / 100)))%Q)
          (players st) (players (decayAll st)) /\
  forall p1 p2 : Q,
    let c1 := Qmax 0 (Qmin 100 p1) in
    let c2 := Qmax 0 (Qmin 100 p2) in
    Forall2 (fun twice once =>
               id twice = id once /\ skill twice = skill once /\
               (chips twice == chips once)%Q)
            (players (decayAll (with_decay_pct p2 (decayAll (with_decay_pct p1 st)))))
            (players (decayAll
                        (with_decay_pct
                           (100 * (1 - (1 - c1 / 100) * (1 - c2 / 100)))%Q st))).
Proof.
  split; [exact (decayAll_players st)|].
  intros p1 p2 c1 c2.
  pose proof (decayAll_players (with_decay_pct p1 st)) as H1.
  pose proof (decayAll_players (with_decay_pct p2 (decayAll (with_decay_pct p1 st)))) as H2.
  pose proof (decayAll_players
                (with_decay_pct (100 * (1 - (1 - c1 / 100) * (1 - c2 / 100)))%Q st)) as H12.
  cbn [with_decay_pct params decay_pct players] in H1, H2, H12.
  change (players (with_decay_pct p1 st)) with (players st) in H1.
  change (players (with_decay_pct _ st)) with (players st) in H12.
  change (players (with_decay_pct p2 ?x)) with (players x) in H2.
  revert H1 H2 H12.
  generalize (players (decayAll (with_decay_pct p2 (decayAll (with_decay_pct p1 st))))).
  generalize (players (decayAll (with_decay_pct
                                   (100 * (1 - (1 - c1 / 100) * (1 - c2 / 100)))%Q st))).
  generalize (players (decayAll (with_decay_pct p1 st))).
  generalize (players st).
  intros l0. induction l0 as [|a l0 IH]; intros l1 l12 l2 H1 H2 H12.
  - inversion H1; subst. inversion H2; subst. inversion H12; subst. constructor.
  - inversion H1 as [|? b ? l1' Hab H1']; subst.
    inversion H2 as [|? c ? l2' Hbc H2']; subst.
    inversion H12 as [|? d ? l12' Had H12']; subst.
    constructor; [|eapply IH; eassumption].
    destruct Hab as (Hi1 & Hs1 & Hc1), Hbc as (Hi2 & Hs2 & Hc2), Had as (Hi3 & Hs3 & Hc3).
    split; [congruence|]. split; [congruence|].
    rewrite Hc2, Hc3.
    unfold decayed at 1. rewrite Hc1. fold (decayed p2 (decayed p1 (chips a))).
    apply decayed_compose.
Qed.

(** In binary64 the composition is not exact.  On the balances 100, 120,
    80, 60, a decay of 10 percent followed by one of 20 percent leaves the
    first player 72, while one decay at the combined percentage
    [100 * (1 - (1 - 10/100) * (1 - 20/100))], which evaluates to
    27.999999999999993, leaves 72.000000000000014; the third balance
    differs too. *)
Lemma decayAll_composition_counterexample :
  exists twice once combined,
    combined = (of_int 100 *! (of_int 1 -! (of_int 1 -! of_int 10 /! of_int 100)
                                          *! (of_int 1 -! of_int 20 /! of_int 100)))%js /\
    chips <$> players (decayAll (with_decay_pct (of_int 20)
                                   (decayAll (with_decay_pct (of_int 10) demo_idle64))))
    = twice /\
    chips <$> players (decayAll (with_decay_pct combined demo_idle64)) = once /\
    PrimFloat.ltb (of_int 27) combined = true /\
    PrimFloat.ltb combined (of_int 28) = true /\
    (exists a b, twice !! 0%nat = Some a /\ once !! 0%nat = Some b /\
                 PrimFloat.eqb a (of_int 72) = true /\ PrimFloat.ltb a b = true) /\
    (exists a b, twice !! 2%nat = Some a /\ once !! 2%nat = Some b /\
                 PrimFloat.ltb a b = true).
Proof.
  eexists _, _, _. split; [reflexivity|]. split; [reflexivity|]. split; [reflexivity|].
  split; [vm_compute; reflexivity|]. split; [vm_compute; reflexivity|].
  split; eexists _, _; (split; [vm_compute; reflexivity|]);
    (split; [vm_compute; reflexivity|]); repeat split; vm_compute; reflexivity.
Qed.

(* ====================================================================== *)
(** ** Regionals *)

Section Regional.
Context {T : Type} `{NT : Number T}.

Lemma topByChips_perm (players : list (Player (T:=T))) (k : nat) :
  exists L, Permutation L (seq 0 (length players)) /\ topByChips players k = take k L.
Proof.
  exists (js_sort (fun a b => (b.2 -! a.2) <! of_int 0)
                  (imap (fun i p => (i, chips p)) players)).*1.
  split.
  - rewrite js_sort_perm.
    assert (H : forall n, (imap (fun i (p : Player) => ((n + i)%nat, chips p)) players).*1
                          = seq n (length players)).
    { induction players as [|p l IH]; intros n; cbn; [reflexivity|].
      rewrite Nat.add_0_r. f_equal. rewrite <- IH. f_equal.
      apply imap_ext. intros i y _. cbn. f_equal. lia. }
    change (imap (fun i (p : Player) => (i, chips p)) (players))
      with (imap (fun i (p : Player) => ((0 + i)%nat, chips p)) players).
    rewrite (H 0%nat). reflexivity.
  - unfold topByChips. apply fmap_take.
Qed.

(** The record a Regional leaves in the history lists distinct roster
    entries, at least one when the roster is not empty, with one rank
    each: what [runWorlds] needs of it. *)
Lemma runRegional_record (rand : nat -> T) (st : Sim) (s : nat) :
  players st <> [] ->
  exists st' s' idxs rows res,
    runRegional rand st s = Some (st', s') /\
    history st' = history st ++ [EvTier "regional" idxs rows res] /\
    idxs <> [] /\ NoDup idxs /\
    Forall (fun pi => (pi < length (players st'))%nat) idxs /\
    length (ranks res) = length idxs /\
    length (players st') = length (players st).
Proof.
  intros Hne.
  destruct (topByChips_perm (players st) (reg FIXED_SIZES)) as (L & HL & Htop).
  set (idxs := topByChips (players st) (reg FIXED_SIZES)) in *.
  assert (Hnd : NoDup idxs).
  { rewrite Htop. apply (sublist_NoDup _ L); [|apply sublist_take].
    rewrite HL. apply NoDup_ListNoDup, List.seq_NoDup. }
  assert (Hvalid : Forall (fun pi => (pi < length (players st))%nat) idxs).
  { apply Forall_forall. intros pi Hpi. rewrite Htop in Hpi.
    apply elem_of_take in Hpi as (k & Hk & _).
    apply list_elem_of_lookup_2 in Hk. rewrite HL in Hk.
    apply list_elem_of_In, in_seq in Hk. lia. }
  assert (Hidx_ne : idxs <> []).
  { intros Heq. apply (f_equal length) in Heq.
    rewrite Htop, length_take, (Permutation_length HL), length_seq in Heq.
    cbn in Heq. destruct (players st); [congruence | cbn in Heq; lia]. }
  destruct (tierRun_body_total
              (fun N => fixed_legacy N (y_reg (params st)) false)
              rand idxs (players st) (z_reg (params st)) (weightsReg (length idxs)) s Hvalid)
    as (res & next & Htier).
  pose proof (tierRun_body_inv _ _ _ _ _ _ _ _ _ _ Htier) as Hspec.
  destruct (tier_spec_lengths _ _ _ _ _ _ _ Hspec) as (_ & Hranks & _).
  assert (Hnext_len : length next = length (players st)).
  { destruct Hspec as [_ _ _ _ _ _ _ _ _ _ _ _ Hplayers]. rewrite Hplayers.
    apply (apply_deltas_lookup idxs (deltas res) (players st) Hnd). }
  set (mkrow := fun jp : nat * nat =>
                  let* p := defined (next !! jp.2) in
                  ret (mkRow (label "P" (Z.of_nat jp.2 + 1)) (Z.of_nat jp.2)
                             (mjoin (ranks res !! jp.1))
                             (get (fees res) jp.1) (get (fixedY res) jp.1)
                             (get (sharePool res) jp.1) (get (payouts res) jp.1)
                             (get (deltas res) jp.1) (Some (chips p)))).
  assert (Hrows : forall s0, exists rows,
             mapE mkrow (imap (fun j pi => (j, pi)) idxs) s0 = Some (rows, s0)).
  { assert (Hall : Forall (fun jp : nat * nat => is_Some (next !! jp.2))
                          (imap (fun j pi => (j, pi)) idxs)).
    { apply Forall_forall. intros [j pi] Hin.
      apply list_elem_of_lookup in Hin as [k Hk]. rewrite list_lookup_imap in Hk.
      destruct (idxs !! k) as [pi'|] eqn:E; cbn in Hk; inversion Hk; subst.
      apply lookup_lt_is_Some_2. rewrite Hnext_len.
      rewrite Forall_forall in Hvalid. apply Hvalid.
      eapply list_elem_of_lookup_2. exact E. }
    induction Hall as [|jp l [p Hp] _ IH]; intros s0.
    - exists []. reflexivity.
    - destruct (IH s0) as [rows Hrows]. eexists. cbn [mapE].
      unfold bind at 1. unfold mkrow at 1. unfold bind at 1. rewrite Hp. cbn [defined ret].
      unfold bind at 1. rewrite Hrows. reflexivity. }
  destruct (Hrows (s + 3 * length idxs)%nat) as [rows Hrows'].
  exists (mkSim (params st) next "regional"
                (history st ++ [EvTier "regional" idxs (js_sort rank_before rows) res])),
    (s + 3 * length idxs)%nat, idxs, (js_sort rank_before rows), res.
  split.
  { unfold runRegional. fold idxs. unfold tierRun_legacy.
    unfold bind at 1. rewrite Htier. fold mkrow.
    unfold bind at 1. rewrite Hrows'. reflexivity. }
  split; [reflexivity|]. split; [exact Hidx_ne|]. split; [exact Hnd|].
  split; [cbn [players]; rewrite Hnext_len; exact Hvalid|].
  split; [exact Hranks | exact Hnext_len].
Qed.

End Regional.

(* ====================================================================== *)
(** ** Worlds *)

Section WorldsGuard.
Context {T : Type} `{NT : Number T}.

Lemma find_regional_None (h : list (Event (T:=T))) :
  Forall (fun e => ev_type e <> "regional"%string) h ->
  List.find (fun e => String.eqb (ev_type e) "regional") h = None.
Proof.
  induction 1 as [|e h He _ IH]; cbn [List.find].
  - reflexivity.
  - destruct (String.eqb_spec (ev_type e) "regional") as [Heq|_]; [contradiction | exact IH].
Qed.

End WorldsGuard.

(** C5.  When no Regional event is in the history, [runWorlds] returns
    at once: the state (roster, stage and history) is the one it was
    given, and no random number has been drawn. *)
Theorem runWorlds_without_regional {T : Type} `{NT : Number T}
    (rand : nat -> T) (st : Sim (T:=T)) (s : nat) :
  Forall (fun e => ev_type e <> "regional"%string) (history st) ->
  runWorlds rand st s = Some (st, s).
Proof.
  intros Hnone. unfold runWorlds.
  rewrite find_regional_None; [reflexivity|].
  apply Forall_rev. exact Hnone.
Qed.

Lemma runWorlds_without_regional_witness :
  runWorlds demo_rand (decayAll demo_idle) 0 = Some (decayAll demo_idle, 0%nat).
Proof.
  apply runWorlds_without_regional.
  repeat constructor. cbn. discriminate.
Defined.

(* ====================================================================== *)
(** ** Worlds: the qualifiers *)

Lemma imap_index_sorted {A} (l : list A) n :
  StronglySorted (fun a b : nat * A => (a.1 < b.1)%nat)
                 (imap (fun j v => ((n + j)%nat, v)) l).
Proof.
  revert n. induction l as [|v l IH]; intros n; cbn.
  - constructor.
  - erewrite (imap_ext _ (fun j v => ((S n + j)%nat, v))); last first.
    { intros i y _. cbn. f_equal. lia. }
    constructor; [apply IH|].
    apply Forall_forall. intros [j w] Hin.
    apply list_elem_of_lookup in Hin as [i Hi].
    rewrite list_lookup_imap in Hi.
    destruct (l !! i); cbn in Hi; inversion Hi; subst. cbn. lia.
Qed.

Section Qualifiers.
Context {T : Type} `{NT : Number T}.

Lemma regPoints_length (regIdxs : list nat) (regRanks : list (option nat)) :
  length (regPoints (T:=T) regIdxs regRanks) = length regRanks.
Proof. unfold regPoints. apply length_fmap. Qed.

Lemma regOrder_perm (regIdxs : list nat) (regRanks : list (option nat)) :
  Permutation (regOrder (T:=T) regIdxs regRanks) (seq 0 (length regRanks)).
Proof.
  unfold regOrder. rewrite js_sort_perm.
  rewrite (imap_pair_fst (regPoints regIdxs regRanks) 0), regPoints_length. reflexivity.
Qed.

End Qualifiers.

Section QualifiersQ.
Local Open Scope Q_scope.

(** The slots taken by [slice(0, quota)] beat every slot left out: a
    higher point score, or the same score and an earlier slot. *)
Lemma qualifiers_best (regIdxs : list nat) (regRanks : list (option nat)) (quota : nat)
    (j j' : nat) (vj vj' : Q) :
  j ∈ take quota (regOrder regIdxs regRanks) ->
  j' ∉ take quota (regOrder regIdxs regRanks) ->
  regPoints regIdxs regRanks !! j = Some vj ->
  regPoints regIdxs regRanks !! j' = Some vj' ->
  vj' < vj \/ (vj == vj' /\ (j < j')%nat).
Proof.
  intros Hin Hout Hvj Hvj'.
  set (pts := regPoints regIdxs regRanks) in *.
  set (L := js_sort (desc_before snd) (imap (fun j v => (j, v)) pts)).
  assert (HL : regOrder regIdxs regRanks = L.*1) by reflexivity.
  rewrite HL in Hin, Hout.
  assert (Hsorted : StronglySorted (slot_lt snd fst) L).
  { apply js_sort_sorted. apply (imap_index_sorted pts 0). }
  assert (Hmem : forall k i v, L !! k = Some (i, v) -> pts !! i = Some v).
  { intros k i v Hk. apply list_elem_of_lookup_2 in Hk.
    unfold L in Hk. rewrite (js_sort_perm (desc_before snd)) in Hk.
    apply list_elem_of_lookup in Hk as [n Hn]. rewrite list_lookup_imap in Hn.
    destruct (pts !! n) eqn:En; cbn in Hn; inversion Hn; subst. exact En. }
  apply list_elem_of_lookup in Hin as [k Hk].
  pose proof (lookup_lt_Some _ _ _ Hk) as Hklt. rewrite length_take in Hklt.
  rewrite lookup_take_lt in Hk by lia.
  assert (Hin' : j' ∈ L.*1).
  { rewrite <- HL, (regOrder_perm regIdxs regRanks).
    apply list_elem_of_In, in_seq. apply lookup_lt_Some in Hvj'.
    unfold pts in Hvj'. rewrite regPoints_length in Hvj'. lia. }
  apply list_elem_of_lookup in Hin' as [k' Hk'].
  assert (Hk'ge : (quota <= k')%nat).
  { destruct (Nat.le_gt_cases quota k') as [|Hlt]; [assumption|].
    exfalso. apply Hout. apply list_elem_of_lookup. exists k'.
    rewrite lookup_take_lt by exact Hlt. exact Hk'. }
  rewrite list_lookup_fmap in Hk, Hk'.
  destruct (L !! k) as [[i v]|] eqn:E; cbn in Hk; inversion Hk; subst i.
  destruct (L !! k') as [[i' v']|] eqn:E'; cbn in Hk'; inversion Hk'; subst i'.
  pose proof (Hmem _ _ _ E) as Hv. pose proof (Hmem _ _ _ E') as Hv'.
  rewrite Hvj in Hv. rewrite Hvj' in Hv'. inversion Hv; inversion Hv'; subst.
  apply (StronglySorted_lookup (slot_lt snd fst) L k k' (j, v) (j', v') Hsorted E E').
  lia.
Qed.

(** The point score of a slot of the last Regional is the weight of its
    rank in the Regional schedule times 100 (0 for a rank past the
    schedule, and for a slot without a rank). *)
Lemma regPoints_score (regIdxs : list nat) (regRanks : list (option nat)) (j : nat)
    (r : option nat) :
  regRanks !! j = Some r ->
  exists v, regPoints regIdxs regRanks !! j = Some v /\
    v == match r with
         | Some (S k) => default 0 (weightsReg (length regIdxs) !! k) * 100
         | _ => 0
         end.
Proof.
  intros Hj. unfold regPoints. cbn zeta. rewrite list_lookup_fmap, Hj. cbn [fmap option_fmap option_map].
  eexists. split; [reflexivity|].
  destruct r as [[|k]|]; cbn [rank_weight].
  - change (of_int 0 *! of_int 100)%js with (0 * 100). lra.
  - change (or_zero (weightsReg (length regIdxs) !! k) *! of_int 100)%js
      with (or_zero (weightsReg (length regIdxs) !! k) * 100).
    rewrite or_zero_Q. reflexivity.
  - change (of_int 0 *! of_int 100)%js with (0 * 100). lra.
Qed.

End QualifiersQ.

(* ====================================================================== *)
(** ** The median of an array *)

Section AscendingSort.
Local Open Scope Q_scope.

Lemma asc_before_true x y : asc_before x y = true <-> x < y.
Proof.
  unfold asc_before. rewrite nlt_Q. change (of_int 0) with 0.
  change (x -! y)%js with (x - y). split; intros; lra.
Qed.

Lemma asc_before_false x y : asc_before x y = false <-> y <= x.
Proof.
  unfold asc_before. rewrite nlt_Q_false. change (of_int 0) with 0.
  change (x -! y)%js with (x - y). split; intros; lra.
Qed.

Lemma sort_insert_asc (x : Q) (l : list Q) :
  StronglySorted Qle l -> StronglySorted Qle (sort_insert asc_before x l).
Proof.
  induction 1 as [|y l Hs IH Hy]; cbn [sort_insert].
  - repeat constructor.
  - destruct (asc_before y x) eqn:E.
    + apply asc_before_true in E. constructor; [exact IH|].
      rewrite (sort_insert_perm asc_before x l). constructor; [lra | exact Hy].
    + apply asc_before_false in E. constructor; [constructor; assumption|].
      constructor; [exact E|].
      eapply Forall_impl; [exact Hy|]. cbn. intros z Hz. lra.
Qed.

Lemma js_sort_asc (l : list Q) : StronglySorted Qle (js_sort asc_before l).
Proof.
  induction l as [|x l IH]; [constructor | apply sort_insert_asc, IH].
Qed.

Lemma filter_count_take {A} (P : A -> bool) (a : list A) (k : nat) :
  (k <= length a)%nat -> Forall (fun x => P x = true) (take k a) ->
  (k <= length (List.filter P a))%nat.
Proof.
  intros Hk Hall. rewrite <- (take_drop k a), List.filter_app, length_app.
  assert (E : List.filter P (take k a) = take k a).
  { clear Hk. induction Hall as [|x l Hx _ IH]; cbn; [reflexivity|].
    rewrite Hx, IH. reflexivity. }
  rewrite E, length_take. lia.
Qed.

Lemma filter_count_drop {A} (P : A -> bool) (a : list A) (k : nat) :
  Forall (fun x => P x = true) (drop k a) ->
  (length a - k <= length (List.filter P a))%nat.
Proof.
  intros Hall. rewrite <- (take_drop k a) at 2. rewrite List.filter_app, length_app.
  assert (E : List.filter P (drop k a) = drop k a).
  { induction Hall as [|x l Hx _ IH]; cbn; [reflexivity|].
    rewrite Hx, IH. reflexivity. }
  rewrite E, length_drop. lia.
Qed.

Lemma median_nonempty (arr : list Q) :
  arr <> [] ->
  median arr =
  Some (let a := js_sort asc_before arr in
        let m := (length a / 2)%nat in
        if negb (length a mod 2 =? 0)%nat then get a m
        else ((get a (m - 1) +! get a m) /! of_int 2)%js).
Proof.
  intros Hne. unfold median. fold asc_before.
  destruct (js_sort asc_before arr) as [|a0 a'] eqn:Ea; [|reflexivity].
  apply (f_equal length) in Ea. rewrite js_sort_length in Ea.
  destruct arr; [congruence | discriminate].
Qed.

Lemma median_middle (arr : list Q) (m : Q) :
  median arr = Some m ->
  exists sorted,
    Permutation sorted arr /\ StronglySorted Qle sorted /\ middle_of sorted m.
Proof.
  intros Hm.
  assert (Hne : arr <> []) by (intros ->; discriminate).
  rewrite (median_nonempty arr Hne) in Hm. cbn zeta in Hm.
  exists (js_sort asc_before arr).
  split; [apply js_sort_perm|]. split; [apply js_sort_asc|].
  unfold middle_of. cbn zeta.
  set (a := js_sort asc_before arr) in *.
  assert (Hlen : (0 < length a)%nat).
  { unfold a. rewrite js_sort_length. destruct arr; [congruence | cbn; lia]. }
  assert (Hhalf : (length a / 2 < length a)%nat) by (apply Nat.div_lt; lia).
  destruct (lookup_lt_is_Some_2 a (length a / 2) Hhalf) as [b Hb].
  destruct (Nat.odd (length a)) eqn:Hodd.
  - assert (E : (length a mod 2 =? 0)%nat = false).
    { apply Nat.eqb_neq. rewrite <- Nat.bit0_mod, Nat.bit0_odd, Hodd. discriminate. }
    rewrite E in Hm. cbn [negb] in Hm. unfold get in Hm. rewrite Hb in Hm.
    cbn in Hm. rewrite Hb. exact Hm.
  - assert (E : (length a mod 2 =? 0)%nat = true).
    { apply Nat.eqb_eq. rewrite <- Nat.bit0_mod, Nat.bit0_odd, Hodd. reflexivity. }
    rewrite E in Hm. cbn [negb] in Hm.
    assert (Hpos : (1 <= length a / 2)%nat).
    { apply Nat.eqb_eq in E. apply Nat.div_str_pos. split; [lia|].
      destruct (length a) as [|[|n]] eqn:El; [lia | discriminate | lia]. }
    destruct (lookup_lt_is_Some_2 a (length a / 2 - 1) ltac:(lia)) as [c Hc].
    exists c, b. split; [exact Hc|]. split; [exact Hb|].
    unfold get in Hm. rewrite Hb, Hc in Hm. cbn in Hm. inversion Hm. reflexivity.
Qed.

End AscendingSort.

(* ====================================================================== *)
(** ** Worlds: the field *)

Section Field.
Context {T : Type} `{NT : Number T}.

Lemma median_Some (arr : list T) : arr <> [] -> is_Some (median arr).
Proof.
  intros Hne. unfold median.
  destruct (js_sort _ arr) as [|a l] eqn:E.
  - exfalso. apply Hne. apply length_zero_iff_nil.
    rewrite <- (js_sort_length (fun x y => (x -! y) <! of_int 0) arr), E. reflexivity.
  - eexists. reflexivity.
Qed.

(** The synthetic entrants pushed by the loop of [runWorlds]. *)
Lemma push_externals_spec rand (medSkill medChips : T) extN allIdxs allSkill allChips s :
  push_externals rand medSkill medChips extN (allIdxs, allSkill, allChips) s =
  Some ((allIdxs ++ replicate extN (-1)%Z,
         allSkill ++ ((fun i => medSkill +! noise_at rand (s + 3 * i) *! dec 8 10)
                        <$> seq 0 extN),
         allChips ++ replicate extN medChips),
        (s + 3 * extN)%nat).
Proof.
  revert allIdxs allSkill allChips s.
  induction extN as [|n IH]; intros allIdxs allSkill allChips s.
  - cbn. unfold ret. rewrite !app_nil_r. do 2 f_equal. lia.
  - cbn [push_externals]. unfold bind at 1. rewrite normalLike_at.
    rewrite IH. cbn [replicate seq fmap list_fmap].
    rewrite <- !app_assoc. cbn [app].
    assert (E : (fun i => medSkill +! noise_at rand (s + 3 + 3 * i) *! dec 8 10) <$> seq 0 n
                = (fun i => medSkill +! noise_at rand (s + 3 * i) *! dec 8 10) <$> seq 1 n).
    { rewrite <- fmap_S_seq, <- list_fmap_compose.
      apply list_fmap_ext. intros _ i _. cbn. do 3 f_equal. lia. }
    rewrite E, Nat.mul_0_r, Nat.add_0_r.
    replace (s + 3 + 3 * n)%nat with (s + 3 * S n)%nat by lia. reflexivity.
Qed.

Lemma imap_const_index {A} (l : list A) : imap (fun k _ => k) l = seq 0 (length l).
Proof.
  assert (H : forall n, imap (fun k _ => (n + k)%nat) l = seq n (length l)).
  { induction l as [|x l IH]; intros n; cbn; [reflexivity|].
    rewrite Nat.add_0_r. f_equal. rewrite <- IH. apply imap_ext.
    intros i y _. cbn. lia. }
  apply (H 0%nat).
Qed.

End Field.

Section WriteBack.
Context {T : Type} `{NT : Number T}.

Lemma write_back_gen (allIdxs : list Z) (fps : list (Player (T:=T))) (off : nat)
    (next : list (Player (T:=T))) :
  (forall k k' i, (k < length fps)%nat -> (k' < length fps)%nat ->
                  target allIdxs (off + k) = Some i -> target allIdxs (off + k') = Some i ->
                  k = k') ->
  let r := fold_left
             (fun next kfp =>
                match allIdxs !! kfp.1 with
                | Some gid =>
                    if (0 <=? gid)%Z
                    then alter (fun p => mkPlayer (id p) (skill p) (chips kfp.2))
                               (Z.to_nat gid) next
                    else next
                | None => next
                end)
             (imap (fun k fp => ((off + k)%nat, fp)) fps) next in
  length r = length next /\
  forall i,
    (forall k fp, fps !! k = Some fp -> target allIdxs (off + k) = Some i ->
                  r !! i = (fun p => mkPlayer (id p) (skill p) (chips fp)) <$> next !! i) /\
    ((forall k, (k < length fps)%nat -> target allIdxs (off + k) <> Some i) ->
     r !! i = next !! i).
Proof.
  revert off next. induction fps as [|fp fps IH]; intros off next Hinj; cbn zeta.
  - cbn. split; [reflexivity|]. intros i. split; [intros k fp' Hk; discriminate | reflexivity].
  - cbn [imap fold_left fst snd].
    erewrite (imap_ext _ (fun k fp => ((S off + k)%nat, fp))); last first.
    { intros i y _. cbn. f_equal. lia. }
    set (next1 := match allIdxs !! (off + 0)%nat with
                  | Some gid => if (0 <=? gid)%Z then alter _ (Z.to_nat gid) next else next
                  | None => next
                  end).
    assert (Hlen1 : length next1 = length next).
    { unfold next1. destruct (allIdxs !! (off + 0)%nat) as [gid|]; [|reflexivity].
      destruct (0 <=? gid)%Z; [apply length_alter | reflexivity]. }
    assert (Hnext1 : forall i,
               (target allIdxs (off + 0) = Some i ->
                next1 !! i = (fun p => mkPlayer (id p) (skill p) (chips fp)) <$> next !! i) /\
               (target allIdxs (off + 0) <> Some i -> next1 !! i = next !! i)).
    { intros i. unfold next1, target.
      destruct (allIdxs !! (off + 0)%nat) as [gid|]; [|split; [discriminate | reflexivity]].
      destruct (0 <=? gid)%Z; [|split; [discriminate | reflexivity]].
      split.
      - intros Heq. inversion Heq; subst. apply list_lookup_alter_eq.
      - intros Hne. apply list_lookup_alter_ne. congruence. }
    destruct (IH (S off) next1) as [Hlen IH'].
    { intros k k' i Hk Hk' Ht Ht'.
      assert (S k = S k'); [|lia].
      apply (Hinj (S k) (S k') i); cbn [length]; try lia.
      - replace (off + S k)%nat with (S off + k)%nat by lia. exact Ht.
      - replace (off + S k')%nat with (S off + k')%nat by lia. exact Ht'. }
    split; [rewrite Hlen; exact Hlen1|].
    intros i. destruct (IH' i) as [IH1 IH2]. destruct (Hnext1 i) as [Hn1 Hn2]. split.
    + intros [|k] fp' Hk Ht; cbn in Hk.
      * inversion Hk; subst fp'. rewrite IH2; [exact (Hn1 Ht)|].
        intros k Hklt Ht'.
        assert (0%nat = S k); [|lia].
        apply (Hinj 0%nat (S k) i); cbn [length]; try lia; [exact Ht|].
        replace (off + S k)%nat with (S off + k)%nat by lia. exact Ht'.
      * rewrite (IH1 k fp' Hk).
        2:{ replace (S off + k)%nat with (off + S k)%nat by lia. exact Ht. }
        rewrite Hn2; [reflexivity|].
        intros Ht0. pose proof (lookup_lt_Some _ _ _ Hk) as Hklt.
        assert (0%nat = S k); [|lia].
        apply (Hinj 0%nat (S k) i); cbn [length]; try lia; [exact Ht0 | exact Ht].
    + intros Hnone. rewrite IH2.
      * apply Hn2. apply (Hnone 0%nat). cbn [length]. lia.
      * intros k Hk. replace (S off + k)%nat with (off + S k)%nat by lia.
        apply Hnone. cbn [length]. lia.
Qed.

(** The write-back of [runWorlds] over a field of distinct qualifiers
    followed by synthetic entrants: each qualifier's roster entry takes
    the balance of its entrant, nothing else changes. *)
Lemma write_back_lookup (ourLocal : list nat) (extN : nat) (fps next : list (Player (T:=T))) :
  NoDup ourLocal ->
  let allIdxs := (Z.of_nat <$> ourLocal) ++ replicate extN (-1)%Z in
  let r := write_back allIdxs fps next in
  length r = length next /\
  (forall k pi fp, ourLocal !! k = Some pi -> fps !! k = Some fp ->
                   r !! pi = (fun p => mkPlayer (id p) (skill p) (chips fp)) <$> next !! pi) /\
  (forall i, i ∉ ourLocal -> r !! i = next !! i).
Proof.
  intros Hnd allIdxs r.
  assert (Htgt : forall k i, target allIdxs k = Some i <-> ourLocal !! k = Some i).
  { intros k i. unfold target, allIdxs.
    destruct (Nat.lt_ge_cases k (length ourLocal)) as [Hlt|Hge].
    - rewrite lookup_app_l by (rewrite length_fmap; exact Hlt).
      rewrite list_lookup_fmap.
      destruct (ourLocal !! k) as [pi|] eqn:E; cbn; [|split; discriminate].
      destruct (Z.leb_spec 0 (Z.of_nat pi)); [|lia].
      rewrite Nat2Z.id. reflexivity.
    - rewrite lookup_app_r by (rewrite length_fmap; exact Hge).
      rewrite (lookup_ge_None_2 ourLocal k Hge).
      destruct (replicate extN (-1)%Z !! _) as [gid|] eqn:E; [|split; discriminate].
      apply lookup_replicate in E as [-> _]. cbn. split; discriminate. }
  destruct (write_back_gen allIdxs fps 0 next) as [Hlen H].
  { intros k k' i _ _ Hk Hk'. cbn in Hk, Hk'.
    apply Htgt in Hk, Hk'. eapply NoDup_alt; eassumption. }
  split; [exact Hlen|]. split.
  - intros k pi fp Hk Hfp. destruct (H pi) as [H1 _].
    apply (H1 k fp Hfp). cbn. apply Htgt. exact Hk.
  - intros i Hnin. destruct (H i) as [_ H2]. apply H2.
    intros k _ Ht. cbn in Ht. apply Htgt in Ht.
    apply Hnin. eapply list_elem_of_lookup_2. exact Ht.
Qed.

End WriteBack.

Section WorldsField.
Context {T : Type} `{NT : Number T}.

Lemma Forall2_lookup_NoDup (l : list nat) (sel out : list nat) :
  NoDup l -> NoDup sel -> Forall2 (fun j pi => l !! j = Some pi) sel out -> NoDup out.
Proof.
  intros Hl Hsel HF. apply NoDup_alt. intros k k' pi Hk Hk'.
  destruct (Forall2_lookup_r _ _ _ _ _ HF Hk) as (j & Hj & Hlj).
  destruct (Forall2_lookup_r _ _ _ _ _ HF Hk') as (j' & Hj' & Hlj').
  assert (j = j') by exact (proj1 (NoDup_alt l) Hl j j' pi Hlj Hlj'). subst j'.
  exact (proj1 (NoDup_alt sel) Hsel k k' j Hj Hj').
Qed.

(** The field built by [runWorlds] from a well-formed Regional record:
    the qualifiers with their roster skill and balance, then synthetic
    entrants up to 48. *)
Lemma worldsField_spec (rand : nat -> T) (players : list (Player (T:=T)))
    (regIdxs : list nat) (regRanks : list (option nat)) (s : nat) :
  regIdxs <> [] ->
  Forall (fun pi => (pi < length players)%nat) regIdxs ->
  length regRanks = length regIdxs ->
  let sel := take 12 (regOrder (T:=T) regIdxs regRanks) in
  exists ourLocal ourPlayers medSkill medChips fakePlayers,
    Forall2 (fun j pi => regIdxs !! j = Some pi) sel ourLocal /\
    length ourLocal = Nat.min 12 (length regIdxs) /\
    Forall2 (fun pi p => players !! pi = Some p) ourLocal ourPlayers /\
    median (skill <$> ourPlayers) = Some medSkill /\
    median (chips <$> ourPlayers) = Some medChips /\
    worldsField rand players regIdxs regRanks s
    = Some ((ourLocal,
             (Z.of_nat <$> ourLocal) ++ replicate (48 - length ourLocal) (-1)%Z,
             fakePlayers),
            (s + 3 * (48 - length ourLocal))%nat) /\
    length fakePlayers = 48%nat /\
    (forall k pi p, ourLocal !! k = Some pi -> ourPlayers !! k = Some p ->
                    fakePlayers !! k = Some (mkPlayer (Z.of_nat pi) (skill p) (chips p))) /\
    (forall i, (i < 48 - length ourLocal)%nat ->
               fakePlayers !! (length ourLocal + i)%nat
               = Some (mkPlayer (-1) (medSkill +! noise_at rand (s + 3 * i) *! dec 8 10)
                                medChips)).
Proof.
  intros Hne Hvalid Hlen sel.
  assert (Hperm := regOrder_perm (T:=T) regIdxs regRanks).
  assert (Hsel_lt : Forall (fun j => is_Some (regIdxs !! j)) sel).
  { apply Forall_forall. intros j Hj. apply lookup_lt_is_Some_2.
    apply elem_of_take in Hj as (k & Hk & _).
    apply list_elem_of_lookup_2 in Hk. rewrite Hperm in Hk.
    apply list_elem_of_In, in_seq in Hk. lia. }
  destruct (mapE_defined (fun j => regIdxs !! j) sel Hsel_lt) as (ourLocal & HourLocal & Hrun1).
  assert (Hlocal_len : length ourLocal = Nat.min 12 (length regIdxs)).
  { rewrite <- (Forall2_length _ _ _ HourLocal). unfold sel.
    rewrite length_take, (Permutation_length Hperm), length_seq. lia. }
  assert (Hlocal_valid : Forall (fun pi => is_Some (players !! pi)) ourLocal).
  { apply Forall_forall. intros pi Hpi. apply lookup_lt_is_Some_2.
    apply list_elem_of_lookup in Hpi as [k Hk].
    destruct (Forall2_lookup_r _ _ _ _ _ HourLocal Hk) as (j & _ & Hj).
    rewrite Forall_forall in Hvalid. apply Hvalid.
    eapply list_elem_of_lookup_2. exact Hj. }
  destruct (mapE_defined (fun pi => players !! pi) ourLocal Hlocal_valid)
    as (ourPlayers & HourPlayers & Hrun2).
  assert (Hpl_len : length ourPlayers = length ourLocal).
  { symmetry. eapply Forall2_length. exact HourPlayers. }
  assert (Hpl_ne : ourPlayers <> []).
  { intros ->. cbn in Hpl_len. destruct regIdxs; [congruence | cbn in Hlocal_len; lia]. }
  destruct (median_Some (skill <$> ourPlayers)) as [medSkill HmedS].
  { intros H. apply fmap_nil_inv in H. contradiction. }
  destruct (median_Some (chips <$> ourPlayers)) as [medChips HmedC].
  { intros H. apply fmap_nil_inv in H. contradiction. }
  set (extN := (48 - length ourLocal)%nat).
  set (allIdxs := (Z.of_nat <$> ourLocal) ++ replicate extN (-1)%Z).
  set (allSkill := (skill <$> ourPlayers)
                     ++ ((fun i => medSkill +! noise_at rand (s + 3 * i) *! dec 8 10)
                           <$> seq 0 extN)).
  set (allChips := (chips <$> ourPlayers) ++ replicate extN medChips).
  set (fakePlayers := imap (fun k id => mkPlayer id (get allSkill k) (get allChips k)) allIdxs).
  exists ourLocal, ourPlayers, medSkill, medChips, fakePlayers.
  split; [exact HourLocal|]. split; [exact Hlocal_len|]. split; [exact HourPlayers|].
  split; [exact HmedS|]. split; [exact HmedC|]. split; [|split; [|split]].
  - unfold worldsField. cbn [ourWorldQuota world FIXED_SIZES].
    unfold bind at 1. fold sel. rewrite Hrun1.
    unfold bind at 1. rewrite Hrun2.
    unfold bind at 1. rewrite HmedS. cbn [defined ret].
    unfold bind at 1. rewrite HmedC. cbn [defined ret].
    unfold bind at 1. rewrite push_externals_spec. reflexivity.
  - unfold fakePlayers, allIdxs. rewrite length_imap, length_app, length_fmap, length_replicate.
    unfold extN. lia.
  - intros k pi p Hk Hp. unfold fakePlayers. rewrite list_lookup_imap.
    pose proof (lookup_lt_Some _ _ _ Hk) as Hklt.
    unfold allIdxs. rewrite lookup_app_l by (rewrite length_fmap; exact Hklt).
    rewrite list_lookup_fmap, Hk. cbn. f_equal. f_equal.
    + unfold get, allSkill. rewrite lookup_app_l by (rewrite length_fmap; lia).
      rewrite list_lookup_fmap, Hp. reflexivity.
    + unfold get, allChips. rewrite lookup_app_l by (rewrite length_fmap; lia).
      rewrite list_lookup_fmap, Hp. reflexivity.
  - intros i Hi. unfold fakePlayers. rewrite list_lookup_imap.
    unfold allIdxs. rewrite lookup_app_r by (rewrite length_fmap; lia).
    rewrite length_fmap. replace (length ourLocal + i - length ourLocal)%nat with i by lia.
    rewrite lookup_replicate_2 by exact Hi. cbn. f_equal. f_equal.
    + unfold get, allSkill. rewrite lookup_app_r by (rewrite length_fmap; lia).
      rewrite length_fmap, Hpl_len.
      replace (length ourLocal + i - length ourLocal)%nat with i by lia.
      rewrite list_lookup_fmap, lookup_seq_lt by exact Hi. reflexivity.
    + unfold get, allChips. rewrite lookup_app_r by (rewrite length_fmap; lia).
      rewrite length_fmap, Hpl_len.
      replace (length ourLocal + i - length ourLocal)%nat with i by lia.
      rewrite lookup_replicate_2 by exact Hi. reflexivity.
Qed.

Lemma find_last_regional (before after : list (Event (T:=T))) (e : Event) :
  ev_type e = "regional"%string ->
  Forall (fun e' => ev_type e' <> "regional"%string) after ->
  List.find (fun e' => String.eqb (ev_type e') "regional") (rev (before ++ e :: after))
  = Some e.
Proof.
  intros He Hafter. rewrite rev_app_distr. cbn [rev]. rewrite <- app_assoc. cbn [app].
  apply Forall_rev in Hafter.
  induction Hafter as [|e' l He' _ IH]; cbn [app List.find].
  - rewrite He. reflexivity.
  - destruct (String.eqb_spec (ev_type e') "regional"); [contradiction | exact IH].
Qed.

End WorldsField.

(** C6.  When the history holds a Regional record (the most recent one
    listing distinct roster entries, one rank per entry), [runWorlds]
    completes and:
    - the point score of a slot of that Regional is the weight of its
      rank in the Regional schedule times 100
      ([weightsReg(N)[rank - 1] * 100], 0 for a rank the schedule does not
      reach); the qualifiers are the first 12 slots (all of them if
      fewer) in descending order of that score, so every qualifier has a
      score at least that of every slot left out, and on a tie the earlier
      slot qualifies;
    - the field has 48 entrants: the qualifiers with their roster skill
      and balance, then synthetic entrants with id -1, skill
      [medSkill + noise * 0.8] and balance exactly [medChips];
      [medSkill] and [medChips] are the medians of the qualifiers' skills
      and balances: the middle entry of the sorted values, or the mean of
      the two middle entries when their number is even;
    - the field is settled by [tierRun] with the Worlds weights and fixed
      bonus for all ranks;
    - in the new roster each qualifier's balance is its old balance plus
      its delta, every other roster entry is unchanged and the roster
      keeps its length: no synthetic entrant's balance is stored. *)
Theorem runWorlds_after_regional (rand : nat -> Q) (st : Sim) (s : nat)
    (before after : list Event) (regIdxs : list nat) (regRows : list Row)
    (regRes : TierResult) :
  history st = before ++ EvTier "regional" regIdxs regRows regRes :: after ->
  Forall (fun e => ev_type e <> "regional"%string) after ->
  regIdxs <> [] -> NoDup regIdxs ->
  Forall (fun pi => (pi < length (players st))%nat) regIdxs ->
  length (ranks regRes) = length regIdxs ->
  let points := regPoints regIdxs (ranks regRes) in
  let sel := take 12 (regOrder regIdxs (ranks regRes)) in
  exists ourLocal ourPlayers medSkill medChips allIdxs fakePlayers s1 res fakePlayers' st' s',
    (* the qualifiers *)
    length ourLocal = Nat.min 12 (length regIdxs) /\
    Forall2 (fun j pi => regIdxs !! j = Some pi) sel ourLocal /\
    (forall j r, ranks regRes !! j = Some r ->
       exists v, points !! j = Some v /\
         (v == match r with
               | Some (S k) => default 0 (weightsReg (length regIdxs) !! k) * 100
               | _ => 0
               end)%Q) /\
    (forall j j' vj vj',
        j ∈ sel -> j' ∉ sel -> points !! j = Some vj -> points !! j' = Some vj' ->
        (vj' < vj \/ (vj == vj' /\ (j < j')%nat))%Q) /\
    (* the field *)
    Forall2 (fun pi p => players st !! pi = Some p) ourLocal ourPlayers /\
    median (skill <$> ourPlayers) = Some medSkill /\
    median (chips <$> ourPlayers) = Some medChips /\
    (exists sortedSkill,
        Permutation sortedSkill (skill <$> ourPlayers) /\
        StronglySorted Qle sortedSkill /\ middle_of sortedSkill medSkill) /\
    (exists sortedChips,
        Permutation sortedChips (chips <$> ourPlayers) /\
        StronglySorted Qle sortedChips /\ middle_of sortedChips medChips) /\
    worldsField rand (players st) regIdxs (ranks regRes) s
    = Some ((ourLocal, allIdxs, fakePlayers), s1) /\
    length fakePlayers = 48%nat /\
    (forall k pi p, ourLocal !! k = Some pi -> ourPlayers !! k = Some p ->
                    fakePlayers !! k = Some (mkPlayer (Z.of_nat pi) (skill p) (chips p))) /\
    (forall i, (i < 48 - length ourLocal)%nat ->
               fakePlayers !! (length ourLocal + i)%nat
               = Some (mkPlayer (-1) (medSkill + noise_at rand (s + 3 * i) * (8 / 10))%Q
                                medChips)) /\
    (* the settlement *)
    tierRun_legacy rand (seq 0 48) fakePlayers (z_world (params st)) (y_world (params st))
                   (weightsWorld 48) false s1
    = Some ((res, fakePlayers'), s') /\
    runWorlds rand st s = Some (st', s') /\
    (* what persists *)
    params st' = params st /\ stage st' = "worlds"%string /\
    history st' = history st ++ [EvWorlds ourLocal allIdxs (order res) (ranks res) (deltas res)
                                          (pool res)
                                          (worldsRows allIdxs res fakePlayers' (players st'))] /\
    length (players st') = length (players st) /\
    (forall k pi p, ourLocal !! k = Some pi -> players st !! pi = Some p ->
                    players st' !! pi
                    = Some (mkPlayer (id p) (skill p) (chips p + get (deltas res) k)%Q)) /\
    (forall i, i ∉ ourLocal -> players st' !! i = players st !! i).
Proof.
  intros Hhist Hafter Hne Hnd Hvalid Hlen points sel.
  destruct (worldsField_spec rand (players st) regIdxs (ranks regRes) s Hne Hvalid Hlen)
    as (ourLocal & ourPlayers & medSkill & medChips & fakePlayers
        & HourLocal & Hlocal_len & HourPlayers & HmedS & HmedC & Hfield & Hfake_len
        & Hfake_local & Hfake_ext).
  set (extN := (48 - length ourLocal)%nat) in *.
  set (allIdxs := (Z.of_nat <$> ourLocal) ++ replicate extN (-1)%Z) in *.
  assert (Hall_len : length allIdxs = 48%nat).
  { unfold allIdxs. rewrite length_app, length_fmap, length_replicate. unfold extN. lia. }
  assert (Hidx : imap (fun k (_ : Player) => k) fakePlayers = seq 0 48).
  { rewrite imap_const_index, Hfake_len. reflexivity. }
  destruct (tierRun_body_total
              (fun N => fixed_legacy N (y_world (params st)) false)
              rand (seq 0 48) fakePlayers (z_world (params st)) (weightsWorld 48)
              (s + 3 * extN)%nat) as (res & fakePlayers' & Htier).
  { apply Forall_forall. intros k Hk. apply list_elem_of_In, in_seq in Hk. lia. }
  set (st' := mkSim (params st) (write_back allIdxs fakePlayers' (players st)) "worlds"
                    (history st ++ [EvWorlds ourLocal allIdxs (order res) (ranks res)
                                             (deltas res) (pool res)
                                             (worldsRows allIdxs res fakePlayers'
                                                (write_back allIdxs fakePlayers' (players st)))])).
  exists ourLocal, ourPlayers, medSkill, medChips, allIdxs, fakePlayers, (s + 3 * extN)%nat,
    res, fakePlayers', st', (s + 3 * extN + 3 * length (seq 0 48))%nat.
  assert (Hsel_nd : NoDup sel).
  { unfold sel. apply (sublist_NoDup _ (regOrder regIdxs (ranks regRes))).
    - rewrite (regOrder_perm regIdxs (ranks regRes)). apply NoDup_ListNoDup, List.seq_NoDup.
    - apply sublist_take. }
  assert (Hlocal_nd : NoDup ourLocal).
  { eapply Forall2_lookup_NoDup; [exact Hnd | exact Hsel_nd | exact HourLocal]. }
  pose proof (tierRun_body_inv _ _ _ _ _ _ _ _ _ _ Htier) as Hspec.
  destruct (write_back_lookup ourLocal extN fakePlayers' (players st) Hlocal_nd)
    as (Hwb_len & Hwb_local & Hwb_other).
  fold allIdxs in Hwb_len, Hwb_local, Hwb_other.
  split; [exact Hlocal_len|]. split; [exact HourLocal|]. split.
  { intros j r Hj. apply regPoints_score. exact Hj. }
  split.
  { intros j j' vj vj'. apply qualifiers_best. }
  split; [exact HourPlayers|]. split; [exact HmedS|]. split; [exact HmedC|].
  split; [apply median_middle; exact HmedS|]. split; [apply median_middle; exact HmedC|].
  split; [exact Hfield|]. split; [exact Hfake_len|]. split; [exact Hfake_local|].
  split; [exact Hfake_ext|]. split; [exact Htier|]. split.
  { unfold runWorlds. rewrite Hhist.
    rewrite (find_last_regional before after (EvTier "regional" regIdxs regRows regRes)
               eq_refl Hafter).
    cbn [ev_idxs ev_ranks].
    unfold bind at 1. cbn [defined ret]. unfold bind at 1. cbn [defined ret].
    unfold bind at 1. rewrite Hfield.
    rewrite Hall_len, Hidx.
    unfold bind at 1. unfold tierRun_legacy. rewrite Htier.
    rewrite <- Hhist. reflexivity. }
  split; [reflexivity|]. split; [reflexivity|]. split; [reflexivity|].
  split; [exact Hwb_len|]. split.
  - intros k pi p Hk Hp.
    pose proof (lookup_lt_Some _ _ _ Hk) as Hklt.
    assert (Hp' : ourPlayers !! k = Some p).
    { destruct (Forall2_lookup_l _ _ _ _ _ HourPlayers Hk) as (p' & Hp' & Hpp).
      rewrite Hpp in Hp. inversion Hp; subst. exact Hp'. }
    destruct Hspec as [_ _ _ _ _ _ _ _ _ _ _ _ Hplayers].
    destruct (apply_deltas_lookup (seq 0 48) (deltas res) fakePlayers) as [_ Happ].
    { apply NoDup_ListNoDup, List.seq_NoDup. }
    destruct (Happ k) as [Happ1 _].
    assert (Hfk : fakePlayers' !! k
                  = Some (mkPlayer (Z.of_nat pi) (skill p) (chips p + get (deltas res) k)%Q)).
    { rewrite Hplayers, (Happ1 k).
      - rewrite (Hfake_local k pi p Hk Hp'). reflexivity.
      - apply lookup_seq_lt. rewrite Hlocal_len in Hklt. lia. }
    cbn [players st'].
    rewrite (Hwb_local k pi _ Hk Hfk), Hp. reflexivity.
  - intros i Hi. cbn [players st']. apply Hwb_other. exact Hi.
Qed.

Lemma runWorlds_after_regional_witness :
  let st := demo_after_regional32 in
  let regIdxs := demo_regional32_record.1.1 in
  let regRes := demo_regional32_record.2 in
  length regIdxs = 32%nat /\
  let points := regPoints regIdxs (ranks regRes) in
  let sel := take 12 (regOrder regIdxs (ranks regRes)) in
  exists ourLocal ourPlayers medSkill medChips allIdxs fakePlayers s1 res fakePlayers' st' s',
    (* the qualifiers *)
    length ourLocal = Nat.min 12 (length regIdxs) /\
    Forall2 (fun j pi => regIdxs !! j = Some pi) sel ourLocal /\
    (forall j r, ranks regRes !! j = Some r ->
       exists v, points !! j = Some v /\
         (v == match r with
               | Some (S k) => default 0 (weightsReg (length regIdxs) !! k) * 100
               | _ => 0
               end)%Q) /\
    (forall j j' vj vj',
        j ∈ sel -> j' ∉ sel -> points !! j = Some vj -> points !! j' = Some vj' ->
        (vj' < vj \/ (vj == vj' /\ (j < j')%nat))%Q) /\
    (* the field *)
    Forall2 (fun pi p => players st !! pi = Some p) ourLocal ourPlayers /\
    median (skill <$> ourPlayers) = Some medSkill /\
    median (chips <$> ourPlayers) = Some medChips /\
    (exists sortedSkill,
        Permutation sortedSkill (skill <$> ourPlayers) /\
        StronglySorted Qle sortedSkill /\ middle_of sortedSkill medSkill) /\
    (exists sortedChips,
        Permutation sortedChips (chips <$> ourPlayers) /\
        StronglySorted Qle sortedChips /\ middle_of sortedChips medChips) /\
    worldsField demo_rand (players st) regIdxs (ranks regRes) 96%nat
    = Some ((ourLocal, allIdxs, fakePlayers), s1) /\
    length fakePlayers = 48%nat /\
    (forall k pi p, ourLocal !! k = Some pi -> ourPlayers !! k = Some p ->
                    fakePlayers !! k = Some (mkPlayer (Z.of_nat pi) (skill p) (chips p))) /\
    (forall i, (i < 48 - length ourLocal)%nat ->
               fakePlayers !! (length ourLocal + i)%nat
               = Some (mkPlayer (-1) (medSkill + noise_at demo_rand (96 + 3 * i) * (8 / 10))%Q
                                medChips)) /\
    (* the settlement *)
    tierRun_legacy demo_rand (seq 0 48) fakePlayers (z_world (params st)) (y_world (params st))
                   (weightsWorld 48) false s1
    = Some ((res, fakePlayers'), s') /\
    runWorlds demo_rand st 96 = Some (st', s') /\
    (* what persists *)
    params st' = params st /\ stage st' = "worlds"%string /\
    history st' = history st ++ [EvWorlds ourLocal allIdxs (order res) (ranks res) (deltas res)
                                          (pool res)
                                          (worldsRows allIdxs res fakePlayers' (players st'))] /\
    length (players st') = length (players st) /\
    (forall k pi p, ourLocal !! k = Some pi -> players st !! pi = Some p ->
                    players st' !! pi
                    = Some (mkPlayer (id p) (skill p) (chips p + get (deltas res) k)%Q)) /\
    (forall i, i ∉ ourLocal -> players st' !! i = players st !! i).
Proof.
  intros st regIdxs regRes. split; [vm_compute; reflexivity|].
  apply (runWorlds_after_regional demo_rand st 96 [] [] regIdxs
           demo_regional32_record.1.2 regRes).
  - vm_compute. reflexivity.
  - constructor.
  - vm_compute. discriminate.
  - apply (bool_decide_unpack (NoDup _)). vm_compute. exact I.
  - apply Forall_forall. intros pi Hpi. apply list_elem_of_In in Hpi.
    revert pi Hpi. apply List.Forall_forall. vm_compute.
    repeat (constructor; [lia|]). constructor.
  - vm_compute. reflexivity.
Defined.

(** With the Regional schedule as the code computes it, the point order
    is not the rank order: on a full field of 32 whose slot j holds rank
    j + 1, the qualifiers are the slots ranked 1-6 and 9-14, and the
    competitors ranked 7 and 8 stay home.  The same in binary64. *)
Lemma qualifiers_of_a_full_regional :
  take 12 (regOrder (T:=Q) (seq 0 32) (Some <$> seq 1 32))
  = [0; 1; 2; 3; 4; 5; 8; 9; 10; 11; 12; 13]%nat /\
  take 12 (regOrder (T:=float) (seq 0 32) (Some <$> seq 1 32))
  = [0; 1; 2; 3; 4; 5; 8; 9; 10; 11; 12; 13]%nat.
Proof. split; vm_compute; reflexivity. Qed.

(* ====================================================================== *)
(** ** The utilities: rounding, clamping, the roster, sampling *)

Section RoundingQ.
Local Open Scope Q_scope.

Lemma Math_round_Q (a : Q) : Math_round a = inject_Z (Qfloor (a + (1 # 2))).
Proof. reflexivity. Qed.

Lemma Math_round_int (n : Z) : Math_round (inject_Z n) = inject_Z n.
Proof.
  rewrite Math_round_Q. f_equal.
  apply Z.le_antisymm.
  - apply Z.lt_succ_r. rewrite Zlt_Qlt.
    eapply Qle_lt_trans; [apply Qfloor_le|].
    unfold Z.succ. rewrite inject_Z_plus. change (inject_Z 1) with 1. lra.
  - rewrite <- (Qfloor_Z n) at 1. apply Qfloor_resp_le. lra.
Qed.

Lemma Math_round_comp (a b : Q) : a == b -> Math_round a = Math_round b.
Proof. intros H. rewrite !Math_round_Q. now rewrite H. Qed.

Lemma clampInt_Q (v lo hi : Q) : clampInt v lo hi == Qmax lo (Qmin hi (Math_round v)).
Proof.
  unfold clampInt. rewrite nmax_Q, nmin_Q.
  rewrite (Math_round_comp (or_zero (Some v)) v); [reflexivity|].
  rewrite or_zero_Q. reflexivity.
Qed.

End RoundingQ.

Section ClampQ.
Local Open Scope Q_scope.

Lemma clampInt_bounds (v lo hi : Q) : lo <= hi -> lo <= clampInt v lo hi <= hi.
Proof.
  intros H. rewrite clampInt_Q. split.
  - apply Q.le_max_l.
  - apply Q.max_lub; [exact H | apply Q.le_min_l].
Qed.

Lemma clampInt_inside (v lo hi : Q) :
  lo <= Math_round v <= hi -> clampInt v lo hi == Math_round v.
Proof.
  intros [H1 H2]. rewrite clampInt_Q.
  rewrite (Q.min_r hi (Math_round v)) by exact H2.
  apply Q.max_r. exact H1.
Qed.

End ClampQ.

(** X1. [clampInt] returns a value of the range it is given: with [lo <= hi]
    the result lies in [lo .. hi]; between integer bounds it is an integer;
    it is the rounded input when that is in range (an integer in range is
    returned unchanged), [lo] when the rounded input is below and [hi] when
    it is above.  A NaN input counts as 0, so that
    [clampInt(NaN, 2, 20)] is 2 (replayed on binary64). *)
Theorem clampInt_range (v lo hi : Q) :
  (lo <= hi)%Q ->
  (lo <= clampInt v lo hi <= hi)%Q /\
  (forall a b : Z, exists n : Z, (clampInt v (inject_Z a) (inject_Z b) == inject_Z n)%Q) /\
  ((lo <= Math_round v <= hi)%Q -> (clampInt v lo hi == Math_round v)%Q) /\
  (forall n : Z, (lo <= inject_Z n <= hi)%Q -> (clampInt (inject_Z n) lo hi == inject_Z n)%Q) /\
  ((Math_round v < lo)%Q -> (clampInt v lo hi == lo)%Q) /\
  ((hi < Math_round v)%Q -> (clampInt v lo hi == hi)%Q) /\
  clampInt (T:=float) PrimFloat.nan (F64.of_int 2) (F64.of_int 20) = F64.of_int 2.
Proof.
  intros H. split; [apply clampInt_bounds; exact H|].
  split.
  { intros a b.
    assert (E : exists n : Z,
               (Qmax (inject_Z a) (Qmin (inject_Z b) (Math_round v)) == inject_Z n)%Q).
    { rewrite Math_round_Q.
      destruct (Q.min_spec (inject_Z b) (inject_Z (Qfloor (v + (1 # 2)))))
        as [[_ E]|[_ E]];
      match goal with |- context [Qmax ?a ?b] =>
        destruct (Q.max_spec a b) as [[_ E']|[_ E']] end;
      eexists; rewrite E', ?E; reflexivity. }
    destruct E as [n E]. exists n. rewrite clampInt_Q. exact E. }
  split; [apply clampInt_inside|].
  split.
  { intros n Hn. transitivity (Math_round (inject_Z n)).
    - apply clampInt_inside. rewrite Math_round_int. exact Hn.
    - rewrite Math_round_int. reflexivity. }
  split.
  { intros Hlt. rewrite clampInt_Q. apply Q.max_l.
    eapply Qle_trans; [apply Q.le_min_r|]. apply Qlt_le_weak. exact Hlt. }
  split.
  { intros Hlt. rewrite clampInt_Q.
    rewrite (Q.min_l hi (Math_round v)) by (apply Qlt_le_weak; exact Hlt).
    apply Q.max_r. exact H. }
  vm_compute. reflexivity.
Qed.

Lemma clampInt_range_witness :
  (2 <= clampInt (31 # 2) 2 20 <= 20)%Q /\ (clampInt (31 # 2) 2 20 == 16)%Q.
Proof.
  destruct (clampInt_range (31 # 2) 2 20) as (H1 & _ & H2 & _).
  - vm_compute. discriminate.
  - split; [exact H1|]. rewrite H2; [vm_compute; reflexivity|].
    split; vm_compute; discriminate.
Defined.

Section CreatePlayers.
Context {T : Type} `{NT : Number T}.

Lemma createPlayers_gen (rand : nat -> T) (x0 : T) (n m s : nat) :
  mapE (fun id => let* sk := normalLike rand in ret (mkPlayer (Z.of_nat id) sk x0))
       (seq m n) s
  = Some ((fun i => mkPlayer (Z.of_nat (m + i)) (noise_at rand (s + 3 * i)) x0) <$> seq 0 n,
          (s + 3 * n)%nat).
Proof.
  revert m s. induction n as [|n IH]; intros m s.
  - cbn. unfold ret. do 2 f_equal. lia.
  - cbn [seq mapE]. unfold bind at 1. unfold bind at 1. rewrite normalLike_at.
    cbn [ret]. unfold bind at 1. rewrite IH. unfold ret.
    change (seq 0 (S n)) with (0%nat :: seq 1 n). rewrite <- (fmap_S_seq 0 n).
    rewrite fmap_cons, <- list_fmap_compose.
    f_equal. f_equal; [|lia]. f_equal.
    + do 2 f_equal; lia.
    + apply list_fmap_ext. intros i x _. cbn. do 2 f_equal; lia.
Qed.

End CreatePlayers.

(** X3. [createPlayers(n, x0)] always returns a roster of [n] players; the
    player at position [i] has [id = i], the balance [x0], and the skill
    drawn from the three random numbers at positions [3i .. 3i+2] of the
    call. *)
Theorem createPlayers_roster {T : Type} `{NT : Number T}
    (rand : nat -> T) (n : nat) (x0 : T) (s : nat) :
  exists players,
    createPlayers rand n x0 s = Some (players, (s + 3 * n)%nat) /\
    length players = n /\
    forall i, (i < n)%nat ->
      players !! i = Some (mkPlayer (Z.of_nat i) (noise_at rand (s + 3 * i)) x0).
Proof.
  eexists. split; [apply (createPlayers_gen rand x0 n 0 s)|].
  split; [rewrite length_fmap, length_seq; reflexivity|].
  intros i Hi. rewrite list_lookup_fmap, lookup_seq_lt by exact Hi. reflexivity.
Qed.

Section ShuffleFacts.
Local Open Scope Q_scope.

Lemma to_int_Q (z : Z) : to_int (inject_Z z) = Some z.
Proof.
  change (to_int (inject_Z z))
    with (if Qeq_bool (inject_Z z) (inject_Z (Qfloor (inject_Z z)))
          then Some (Qfloor (inject_Z z)) else None).
  rewrite Qfloor_Z.
  destruct (Qeq_bool (inject_Z z) (inject_Z z)) eqn:E; [reflexivity|].
  apply Qeq_bool_neq in E. exfalso. apply E. reflexivity.
Qed.

Lemma random_index (r : Q) (i : nat) :
  0 <= r < 1 ->
  (0 <= Qfloor (r * inject_Z (Z.of_nat i + 1)) <= Z.of_nat i)%Z.
Proof.
  intros [H0 H1].
  assert (Hpos : 0 < inject_Z (Z.of_nat i + 1)).
  { change 0 with (inject_Z 0). rewrite <- Zlt_Qlt. lia. }
  split.
  - change 0%Z with (Qfloor (inject_Z 0)). apply Qfloor_resp_le.
    change (inject_Z 0) with 0. apply Qmult_le_0_compat; [exact H0 | lra].
  - apply Z.lt_succ_r. rewrite Zlt_Qlt.
    eapply Qle_lt_trans; [apply Qfloor_le|].
    unfold Z.succ. set (X := inject_Z (Z.of_nat i + 1)) in *. nra.
Qed.

End ShuffleFacts.

Lemma swap_perm {A} (a : list A) (i j : nat) (ai aj : A) :
  a !! i = Some ai -> a !! j = Some aj ->
  Permutation (<[j := ai]> (<[i := aj]> a)) a.
Proof.
  intros Hi Hj. apply Permutation_inj. split.
  - rewrite !length_insert. reflexivity.
  - exists (fun x => if decide (x = i) then j else if decide (x = j) then i else x).
    split.
    + intros x y. repeat case_decide; intros; subst; congruence.
    + intros x.
      pose proof (lookup_lt_Some _ _ _ Hi) as Hil.
      pose proof (lookup_lt_Some _ _ _ Hj) as Hjl.
      destruct (decide (x = j)) as [->|Hxj].
      * rewrite list_lookup_insert_eq by (rewrite length_insert; exact Hjl).
        case_decide; subst; congruence.
      * rewrite list_lookup_insert_ne by congruence.
        destruct (decide (x = i)) as [->|Hxi].
        -- rewrite list_lookup_insert_eq by exact Hil. congruence.
        -- rewrite list_lookup_insert_ne by congruence. reflexivity.
Qed.

Section ShuffleQ.
Local Open Scope Q_scope.
Context (rand : nat -> Q) (Hrand : forall t, 0 <= rand t < 1).

Lemma swap_random_perm {A} (a : list A) (i s : nat) :
  (i < length a)%nat ->
  exists a', swap_random rand a i s = Some (a', S s) /\ Permutation a' a.
Proof using Hrand.
  intros Hi. unfold swap_random, bind, Math_random.
  change (Math_floor (rand s *! of_int (Z.of_nat i + 1))%js)
    with (inject_Z (Qfloor (rand s * inject_Z (Z.of_nat i + 1)))).
  rewrite to_int_Q.
  destruct (random_index (rand s) i (Hrand s)) as [Hj0 Hji].
  set (j := Qfloor (rand s * inject_Z (Z.of_nat i + 1))) in *.
  destruct (lookup_lt_is_Some_2 a i Hi) as [ai Hai].
  assert (Hjl : (Z.to_nat j < length a)%nat) by lia.
  destruct (lookup_lt_is_Some_2 a _ Hjl) as [aj Haj].
  rewrite Hai. destruct (0 <=? j)%Z eqn:E; [|apply Z.leb_gt in E; lia].
  rewrite Haj. eexists. split; [reflexivity|].
  apply (swap_perm a i (Z.to_nat j) ai aj Hai Haj).
Qed.

Lemma foldE_swap_perm {A} (ixs : list nat) (a : list A) (s : nat) :
  Forall (fun i => (i < length a)%nat) ixs ->
  exists a', foldE (swap_random rand) ixs a s = Some (a', (s + length ixs)%nat)
             /\ Permutation a' a.
Proof using Hrand.
  revert a s. induction ixs as [|i ixs IH]; intros a s Hall.
  - exists a. cbn. unfold ret. split; [do 2 f_equal; lia | reflexivity].
  - inversion Hall as [|? ? Hi Hrest]; subst.
    destruct (swap_random_perm a i s Hi) as (a1 & E1 & P1).
    destruct (IH a1 (S s)) as (a2 & E2 & P2).
    { rewrite (Permutation_length P1). exact Hrest. }
    exists a2. cbn [foldE]. unfold bind at 1. rewrite E1, E2. split.
    + do 2 f_equal. cbn. lia.
    + etransitivity; eassumption.
Qed.

Lemma shuffle_perm {A} (a : list A) (s : nat) :
  exists a', shuffle rand a s = Some (a', (s + (length a - 1))%nat) /\ Permutation a' a.
Proof using Hrand.
  destruct (foldE_swap_perm (rev (seq 1 (length a - 1))) a s) as (a' & E & P).
  { apply Forall_forall. intros i Hin. apply list_elem_of_In in Hin.
    rewrite <- in_rev in Hin. apply in_seq in Hin. lia. }
  exists a'. split; [|exact P].
  unfold shuffle. rewrite E, length_rev, length_seq. reflexivity.
Qed.

End ShuffleQ.

Lemma demo_rand_unit (t : nat) : (0 <= demo_rand t < 1)%Q.
Proof.
  unfold demo_rand.
  pose proof (Nat.mod_upper_bound t 4 ltac:(lia)) as H.
  assert (H0 : (0 <= inject_Z (Z.of_nat (t mod 4)))%Q).
  { change 0%Q with (inject_Z 0). rewrite <- Zle_Qle. lia. }
  assert (H1 : (inject_Z (Z.of_nat (t mod 4)) <= 3)%Q).
  { change 3%Q with (inject_Z 3). rewrite <- Zle_Qle. lia. }
  unfold Qdiv. change (/ 4)%Q with (1 # 4)%Q. split; lra.
Qed.

(** X4. With [Math.random] in [0, 1), [choiceFromList(list, k)] returns
    the first [k] entries of a rearrangement of [list]: [min(k, length)]
    elements of the list, none taken twice (distinct when the list has no
    duplicates), using [length - 1] random numbers. *)
Theorem choiceFromList_sample {A} (rand : nat -> Q) (l : list A) (k s : nat) :
  (forall t, 0 <= rand t < 1)%Q ->
  exists a,
    Permutation a l /\
    choiceFromList rand l k s = Some (take k a, (s + (length l - 1))%nat) /\
    length (take k a) = Nat.min k (length l) /\
    (forall x, x ∈ take k a -> x ∈ l) /\
    (NoDup l -> NoDup (take k a)).
Proof.
  intros Hrand. destruct (shuffle_perm rand Hrand l s) as (a & E & P).
  exists a. split; [exact P|]. split.
  { unfold choiceFromList, bind. rewrite E. reflexivity. }
  split; [rewrite length_take, (Permutation_length P); reflexivity|].
  split.
  - intros x Hx. rewrite <- P. eapply elem_of_take in Hx as (i & Hi & _).
    eapply list_elem_of_lookup_2. exact Hi.
  - intros Hnd. apply (sublist_NoDup _ a); [rewrite P; exact Hnd | apply sublist_take].
Qed.

Lemma choiceFromList_sample_witness :
  exists a,
    Permutation a ["a"; "b"; "c"; "d"; "e"]%string /\
    choiceFromList demo_rand ["a"; "b"; "c"; "d"; "e"]%string 2 0
    = Some (take 2 a, 4%nat).
Proof.
  destruct (choiceFromList_sample demo_rand ["a"; "b"; "c"; "d"; "e"]%string 2 0
                                  demo_rand_unit) as (a & P & E & _).
  exists a. split; [exact P | exact E].
Defined.

(** X5. With [Math.random] in [0, 1), [choiceIndexes(n, k)] returns
    [min(k, n)] pairwise different indexes below [n], using [n - 1] random
    numbers. *)
Theorem choiceIndexes_distinct (rand : nat -> Q) (n k s : nat) :
  (forall t, 0 <= rand t < 1)%Q ->
  exists idxs,
    choiceIndexes rand n k s = Some (idxs, (s + (n - 1))%nat) /\
    length idxs = Nat.min k n /\
    NoDup idxs /\
    Forall (fun i => (i < n)%nat) idxs.
Proof.
  intros Hrand. destruct (shuffle_perm rand Hrand (seq 0 n) s) as (a & E & P).
  rewrite length_seq in E.
  exists (take k a). split.
  { unfold choiceIndexes, bind. rewrite E. reflexivity. }
  split; [rewrite length_take, (Permutation_length P), length_seq; reflexivity|].
  split.
  - apply (sublist_NoDup _ a); [|apply sublist_take].
    rewrite P. apply NoDup_ListNoDup, List.seq_NoDup.
  - apply Forall_forall. intros i Hi. apply elem_of_take in Hi as (j & Hj & _).
    apply list_elem_of_lookup_2 in Hj. rewrite P in Hj.
    apply list_elem_of_In, in_seq in Hj. lia.
Qed.

Lemma choiceIndexes_distinct_witness :
  exists idxs,
    choiceIndexes demo_rand 6 3 0 = Some (idxs, 5%nat) /\
    length idxs = 3%nat /\ NoDup idxs /\ Forall (fun i => (i < 6)%nat) idxs.
Proof.
  exact (choiceIndexes_distinct demo_rand 6 3 0 demo_rand_unit).
Defined.

(* ====================================================================== *)
(** ** The median *)

(** X6. [median] of a non-empty array is a number with at least half of
    the entries at or below it and at least half at or above it; it lies
    between two entries, and is itself an entry when the length is odd. *)
Theorem median_halves (arr : list Q) :
  arr <> [] ->
  exists m,
    median arr = Some m /\
    (length arr <= 2 * length (List.filter (fun x => Qle_bool x m) arr))%nat /\
    (length arr <= 2 * length (List.filter (fun x => Qle_bool m x) arr))%nat /\
    Exists (fun x => x <= m)%Q arr /\
    Exists (fun x => m <= x)%Q arr /\
    (Nat.odd (length arr) = true -> m ∈ arr).
Proof.
  intros Hne.
  set (a := js_sort asc_before arr).
  assert (Hperm : Permutation a arr) by apply js_sort_perm.
  assert (Hsorted : StronglySorted Qle a) by apply js_sort_asc.
  assert (Hlen : length a = length arr) by apply js_sort_length.
  assert (Hpos : (0 < length arr)%nat) by (destruct arr; [congruence | cbn; lia]).
  set (n := length arr) in *. set (mi := (n / 2)%nat).
  assert (Hmi : (mi < n)%nat) by (apply Nat.div_lt; lia).
  destruct (lookup_lt_is_Some_2 a mi ltac:(lia)) as [am Ham].
  assert (Hle_pre : forall i x, (i <= mi)%nat -> a !! i = Some x -> (x <= am)%Q).
  { intros i x Hi Hx. destruct (decide (i = mi)) as [->|Hneq].
    - rewrite Ham in Hx. inversion Hx. apply Qle_refl.
    - apply (StronglySorted_lookup Qle a i mi x am Hsorted Hx Ham). lia. }
  assert (Hle_post : forall i x, (mi <= i)%nat -> a !! i = Some x -> (am <= x)%Q).
  { intros i x Hi Hx. destruct (decide (i = mi)) as [->|Hneq].
    - rewrite Ham in Hx. inversion Hx. apply Qle_refl.
    - apply (StronglySorted_lookup Qle a mi i am x Hsorted Ham Hx). lia. }
  assert (Hcount : forall (P : Q -> bool), 
             length (List.filter P arr) = length (List.filter P a)).
  { intros P. symmetry. apply filter_length_perm, Hperm. }
  assert (Hex : forall (P : Q -> Prop) i x, a !! i = Some x -> P x -> Exists P arr).
  { intros P i x Hx HP. apply Exists_exists. exists x. split; [|exact HP].
    rewrite <- Hperm. eapply list_elem_of_lookup_2. exact Hx. }
  destruct (Nat.odd n) eqn:Hodd.
  - (* odd length: the middle element *)
    exists am.
    assert (Hmod : (n mod 2 =? 0)%nat = false).
    { apply Nat.eqb_neq. rewrite <- Nat.bit0_mod, Nat.bit0_odd, Hodd. discriminate. }
    split.
    { rewrite (median_nonempty arr Hne). cbn zeta. fold a. rewrite Hlen. fold n. fold mi.
      rewrite Hmod. cbn [negb]. unfold get. rewrite Ham. reflexivity. }
    assert (Hn2 : n = (2 * mi + 1)%nat).
    { pose proof (Nat.div_mod_eq n 2) as D. apply Nat.eqb_neq in Hmod.
      pose proof (Nat.mod_upper_bound n 2 ltac:(lia)). fold mi in D. lia. }
    split.
    { rewrite Hcount.
      assert (S mi <= length (List.filter (fun x => Qle_bool x am) a))%nat; [|lia].
      apply filter_count_take; [lia|]. apply Forall_forall. intros x Hx.
      apply elem_of_take in Hx as (i & Hi & Hlt). apply Qle_bool_iff.
      apply (Hle_pre i x); [lia | exact Hi]. }
    split.
    { rewrite Hcount.
      assert (length a - mi <= length (List.filter (fun x => Qle_bool am x) a))%nat; [|lia].
      apply filter_count_drop. apply Forall_forall. intros x Hx.
      apply list_elem_of_lookup in Hx as [i Hi]. rewrite lookup_drop in Hi.
      apply Qle_bool_iff. apply (Hle_post (mi + i)%nat x); [lia | exact Hi]. }
    split; [apply (Hex _ mi am Ham), Qle_refl|].
    split; [apply (Hex _ mi am Ham), Qle_refl|].
    intros _. rewrite <- Hperm. eapply list_elem_of_lookup_2. exact Ham.
  - (* even length: the mean of the two middle elements *)
    assert (Hmod : (n mod 2 =? 0)%nat = true).
    { apply Nat.eqb_eq. rewrite <- Nat.bit0_mod, Nat.bit0_odd, Hodd. reflexivity. }
    assert (Hn2 : n = (2 * mi)%nat).
    { pose proof (Nat.div_mod_eq n 2) as D. apply Nat.eqb_eq in Hmod. fold mi in D. lia. }
    destruct (lookup_lt_is_Some_2 a (mi - 1) ltac:(lia)) as [al Hal].
    assert (Hlm : (al <= am)%Q) by (apply (Hle_pre (mi - 1)%nat al); [lia | exact Hal]).
    exists ((al + am) / 2)%Q.
    assert (Hm1 : (al <= (al + am) / 2)%Q).
    { unfold Qdiv. change (/ 2)%Q with (1 # 2)%Q. lra. }
    assert (Hm2 : ((al + am) / 2 <= am)%Q).
    { unfold Qdiv. change (/ 2)%Q with (1 # 2)%Q. lra. }
    split.
    { rewrite (median_nonempty arr Hne). cbn zeta. fold a. rewrite Hlen. fold n. fold mi.
      rewrite Hmod. cbn [negb]. unfold get. rewrite Ham, Hal. reflexivity. }
    split.
    { rewrite Hcount.
      assert (mi <= length (List.filter (fun x => Qle_bool x ((al + am) / 2)) a))%nat; [|lia].
      apply filter_count_take; [lia|]. apply Forall_forall. intros x Hx.
      apply elem_of_take in Hx as (i & Hi & Hlt). apply Qle_bool_iff.
      eapply Qle_trans; [|exact Hm1].
      destruct (decide (i = mi - 1)%nat) as [->|Hneq].
      - rewrite Hal in Hi. inversion Hi. apply Qle_refl.
      - apply (StronglySorted_lookup Qle a i (mi - 1) x al Hsorted Hi Hal). lia. }
    split.
    { rewrite Hcount.
      assert (length a - mi <= length (List.filter (fun x => Qle_bool ((al + am) / 2) x) a))%nat;
        [|lia].
      apply filter_count_drop. apply Forall_forall. intros x Hx.
      apply list_elem_of_lookup in Hx as [i Hi]. rewrite lookup_drop in Hi.
      apply Qle_bool_iff. eapply Qle_trans; [exact Hm2|].
      apply (Hle_post (mi + i)%nat x); [lia | exact Hi]. }
    split; [apply (Hex _ (mi - 1)%nat al Hal), Hm1|].
    split; [apply (Hex _ mi am Ham), Hm2|].
    discriminate.
Qed.

Lemma median_halves_witness :
  exists m, median [5 # 1; 1 # 1; 4 # 1; 2 # 1]%Q = Some m /\
            Exists (fun x => x <= m)%Q [5 # 1; 1 # 1; 4 # 1; 2 # 1]%Q.
Proof.
  destruct (median_halves [5 # 1; 1 # 1; 4 # 1; 2 # 1]%Q) as (m & E & _ & _ & H & _).
  - discriminate.
  - exists m. split; [exact E | exact H].
Defined.

(* ====================================================================== *)
(** ** The richest players *)

Section TopByChips.
Local Open Scope Q_scope.

Lemma imap_chips_index (players : list (Player (T:=Q))) :
  imap (fun i (p : Player) => (i, chips p)) players
  = imap (fun i v => ((0 + i)%nat, v)) (chips <$> players).
Proof. rewrite imap_fmap. apply imap_ext. intros i p _. reflexivity. Qed.

Lemma topByChips_sorted (players : list (Player (T:=Q))) :
  let L := js_sort (desc_before snd) (imap (fun i (p : Player) => (i, chips p)) players) in
  StronglySorted (slot_lt snd fst) L /\
  Permutation L.*1 (seq 0 (length players)) /\
  (forall k i v, L !! k = Some (i, v) -> chips <$> players !! i = Some v).
Proof.
  intros L. split; [|split].
  - apply js_sort_sorted. rewrite imap_chips_index. apply imap_index_sorted.
  - unfold L. rewrite js_sort_perm, imap_chips_index.
    rewrite (imap_pair_fst (chips <$> players) 0), length_fmap. reflexivity.
  - intros k i v Hk. apply list_elem_of_lookup_2 in Hk.
    unfold L in Hk. rewrite (js_sort_perm (desc_before snd)) in Hk.
    apply list_elem_of_lookup in Hk as [n Hn]. rewrite list_lookup_imap in Hn.
    destruct (players !! n) eqn:En; cbn in Hn; inversion Hn; subst.
    rewrite En. reflexivity.
Qed.

End TopByChips.

(** X7. [topByChips(k)] returns [min(k, n)] pairwise different roster
    indexes, richest first: each selected player has more chips than every
    player left out, or the same chips and a smaller index, and the same
    holds between an earlier and a later entry of the result. *)
Theorem topByChips_richest (players : list (Player (T:=Q))) (k : nat) :
  length (topByChips players k) = Nat.min k (length players) /\
  NoDup (topByChips players k) /\
  Forall (fun i => (i < length players)%nat) (topByChips players k) /\
  (forall i i' p p',
      i ∈ topByChips players k -> i' ∉ topByChips players k ->
      players !! i = Some p -> players !! i' = Some p' ->
      (chips p' < chips p \/ (chips p == chips p' /\ (i < i')%nat))%Q) /\
  (forall a b i i' p p',
      topByChips players k !! a = Some i -> topByChips players k !! b = Some i' ->
      (a < b)%nat -> players !! i = Some p -> players !! i' = Some p' ->
      (chips p' < chips p \/ (chips p == chips p' /\ (i < i')%nat))%Q).
Proof.
  destruct (topByChips_sorted players) as (Hsorted & Hperm & Hmem).
  set (L := js_sort (desc_before snd) (imap (fun i (p : Player) => (i, chips p)) players)) in *.
  assert (Htop : topByChips players k = take k L.*1).
  { unfold topByChips. rewrite fmap_take. reflexivity. }
  assert (Hord : forall a b i i' p p',
             L.*1 !! a = Some i -> L.*1 !! b = Some i' -> (a < b)%nat ->
             players !! i = Some p -> players !! i' = Some p' ->
             (chips p' < chips p \/ (chips p == chips p' /\ (i < i')%nat))%Q).
  { intros a b i i' p p' Ha Hb Hab Hp Hp'.
    rewrite list_lookup_fmap in Ha, Hb.
    destruct (L !! a) as [[i0 v]|] eqn:Ea; cbn in Ha; inversion Ha; subst i0.
    destruct (L !! b) as [[i0 v']|] eqn:Eb; cbn in Hb; inversion Hb; subst i0.
    pose proof (Hmem _ _ _ Ea) as Hv. pose proof (Hmem _ _ _ Eb) as Hv'.
    rewrite Hp in Hv. rewrite Hp' in Hv'. cbn in Hv, Hv'. inversion Hv; inversion Hv'; subst.
    apply (StronglySorted_lookup (slot_lt snd fst) L a b (i, chips p) (i', chips p')
                                 Hsorted Ea Eb Hab). }
  rewrite Htop.
  split; [rewrite length_take, (Permutation_length Hperm), length_seq; reflexivity|].
  split.
  { apply (sublist_NoDup _ L.*1); [|apply sublist_take].
    rewrite Hperm. apply NoDup_ListNoDup, List.seq_NoDup. }
  split.
  { apply Forall_forall. intros i Hi. apply elem_of_take in Hi as (j & Hj & _).
    apply list_elem_of_lookup_2 in Hj. rewrite Hperm in Hj.
    apply list_elem_of_In, in_seq in Hj. lia. }
  split.
  - intros i i' p p' Hin Hout Hp Hp'.
    apply list_elem_of_lookup in Hin as [a Ha].
    pose proof (lookup_lt_Some _ _ _ Ha) as Halt. rewrite length_take in Halt.
    rewrite lookup_take_lt in Ha by lia.
    assert (Hin' : i' ∈ L.*1).
    { rewrite Hperm. apply list_elem_of_In, in_seq. apply lookup_lt_Some in Hp'. lia. }
    apply list_elem_of_lookup in Hin' as [b Hb].
    assert (Hbge : (k <= b)%nat).
    { destruct (Nat.le_gt_cases k b) as [|Hlt]; [assumption|].
      exfalso. apply Hout. apply list_elem_of_lookup. exists b.
      rewrite lookup_take_lt by exact Hlt. exact Hb. }
    apply (Hord a b i i' p p' Ha Hb); [lia | exact Hp | exact Hp'].
  - intros a b i i' p p' Ha Hb Hab Hp Hp'.
    pose proof (lookup_lt_Some _ _ _ Ha) as Halt. rewrite length_take in Halt.
    pose proof (lookup_lt_Some _ _ _ Hb) as Hblt. rewrite length_take in Hblt.
    rewrite lookup_take_lt in Ha by lia. rewrite lookup_take_lt in Hb by lia.
    apply (Hord a b i i' p p' Ha Hb Hab Hp Hp').
Qed.

(* ====================================================================== *)
(** ** The shape of the weight vector *)

Section BuilderShape.
Context {T : Type} `{NT : Number T}.

Lemma set_at_lookup_ne (j : Z) (x : T) (w : list T) (i : nat) :
  j <> Z.of_nat i -> set_at j x w !! i = w !! i.
Proof.
  intros Hne. unfold set_at. destruct (0 <=? j)%Z eqn:E; [|reflexivity].
  apply Z.leb_le in E. apply list_lookup_insert_ne. lia.
Qed.

Lemma ramp_frame (e : Z) (safeA safeB : T) (p : Z) (w : list T) (i : nat) :
  (Z.of_nat i + 1 < e - 2 * p + 1 \/ e < Z.of_nat i + 1)%Z ->
  ramp e safeA safeB p w !! i = w !! i.
Proof.
  intros Hout. unfold ramp.
  assert (Hks : Forall (fun k => (1 <= k <= p)%Z) (map Z.of_nat (seq 1 (Z.to_nat p)))).
  { apply Forall_forall. intros k Hk. apply list_elem_of_In, in_map_iff in Hk as (n & <- & Hn).
    apply in_seq in Hn. lia. }
  revert w. induction Hks as [|k ks Hk _ IH]; intros w; cbn [fold_left]; [reflexivity|].
  rewrite IH. rewrite !set_at_lookup_ne by lia. reflexivity.
Qed.

Lemma band_step_frame (N : nat) (w : list T) (prevTail : option T) (b : Band) (i : nat) :
  (Z.of_nat i + 1 < Z.max 1 (start b) \/ Z.min (end_ b) (Z.of_nat N) < Z.of_nat i + 1)%Z ->
  (band_step N (w, prevTail) b).1 !! i = w !! i.
Proof.
  intros Hout. unfold band_step.
  set (s := Z.max 1 (start b)) in *. set (e := Z.min (end_ b) (Z.of_nat N)) in *.
  destruct (e - s + 1 <=? 0)%Z eqn:Em; [reflexivity|]. apply Z.leb_gt in Em.
  set (m := if negb ((e - s + 1) mod 2 =? 0)%Z then (e - s + 1 - 1)%Z else (e - s + 1)%Z).
  assert (Hm : (0 <= m <= e - s + 1)%Z).
  { unfold m. destruct ((e - s + 1) mod 2 =? 0)%Z; cbn; lia. }
  assert (Hm2 : (m mod 2 = 0)%Z).
  { unfold m. destruct ((e - s + 1) mod 2 =? 0)%Z eqn:E2; cbn [negb].
    - apply Z.eqb_eq in E2. exact E2.
    - apply Z.eqb_neq in E2.
      pose proof (Z.mod_pos_bound (e - s + 1) 2 ltac:(lia)).
      replace (e - s + 1 - 1)%Z with ((e - s + 1 - 1 - 0) + 0)%Z by lia.
      rewrite Z.add_0_r, Z.sub_0_r.
      pose proof (Z.div_mod (e - s + 1) 2 ltac:(lia)) as D.
      assert (E1 : ((e - s + 1) mod 2 = 1)%Z) by lia.
      replace (e - s + 1 - 1)%Z with (2 * ((e - s + 1) / 2))%Z by lia.
      rewrite Z.mul_comm. apply Z.mod_mul. lia. }
  assert (Hp : (2 * (m / 2) = m)%Z).
  { pose proof (Z.div_mod m 2 ltac:(lia)). lia. }
  destruct (m / 2 <=? 0)%Z eqn:Ep; [reflexivity|]. apply Z.leb_gt in Ep.
  destruct (m / 2 =? 1)%Z eqn:E1; cbn [fst].
  - apply Z.eqb_eq in E1. rewrite !set_at_lookup_ne by lia. reflexivity.
  - apply ramp_frame. lia.
Qed.

Lemma fold_band_step_frame (N : nat) (bands : list Band) (w : list T) (prevTail : option T)
    (i : nat) :
  Forall (fun b => (Z.of_nat i + 1 < Z.max 1 (start b)
                    \/ Z.min (end_ b) (Z.of_nat N) < Z.of_nat i + 1)%Z) bands ->
  (fold_left (band_step N) bands (w, prevTail)).1 !! i = w !! i.
Proof.
  intros Hall. revert w prevTail.
  induction Hall as [|b bands Hb _ IH]; intros w prevTail; cbn [fold_left]; [reflexivity|].
  destruct (band_step N (w, prevTail) b) as [w1 t1] eqn:E.
  rewrite IH. rewrite <- (band_step_frame N w prevTail b i Hb), E. reflexivity.
Qed.

End BuilderShape.

(** X8. [buildMonotoneByPairs] returns exactly [N] weights.  When every
    band starts at rank 3 or later, ranks 1 and 2 get [top1] and [top2];
    and a rank from 3 on that no band covers gets weight 0. *)
Theorem buildMonotoneByPairs_shape {T : Type} `{NT : Number T}
    (N : nat) (top1 top2 : T) (bands : list Band) :
  let w := buildMonotoneByPairs N top1 top2 bands in
  length w = N /\
  (Forall (fun b => (3 <= start b)%Z) bands ->
     ((1 <= N)%nat -> w !! 0%nat = Some top1) /\ ((2 <= N)%nat -> w !! 1%nat = Some top2)) /\
  (forall i, (2 <= i < N)%nat ->
     Forall (fun b => (Z.of_nat i + 1 < start b \/ end_ b < Z.of_nat i + 1)%Z) bands ->
     w !! i = Some (of_int 0)).
Proof.
  intros w. split; [apply buildMonotoneByPairs_length|].
  unfold w, buildMonotoneByPairs.
  set (w0 := if (2 <=? N)%nat then _ else _).
  set (pt := if (2 <=? N)%nat then Some (get w0 1) else None).
  split.
  - intros Hstart. split; intros HN.
    + rewrite fold_band_step_frame.
      * unfold w0. destruct (2 <=? N)%nat eqn:E2; destruct (1 <=? N)%nat eqn:E1;
          try (apply Nat.leb_gt in E1; lia).
        -- rewrite list_lookup_insert_ne by lia.
           apply list_lookup_insert_eq. rewrite length_replicate. lia.
        -- apply list_lookup_insert_eq. rewrite length_replicate. lia.
      * eapply Forall_impl; [exact Hstart|]. cbn. intros b Hb. lia.
    + rewrite fold_band_step_frame.
      * unfold w0. destruct (2 <=? N)%nat eqn:E2; [|apply Nat.leb_gt in E2; lia].
        apply list_lookup_insert_eq.
        destruct (1 <=? N)%nat; rewrite ?length_insert, length_replicate; lia.
      * eapply Forall_impl; [exact Hstart|]. cbn. intros b Hb. lia.
  - intros i Hi Hout. rewrite fold_band_step_frame.
    + unfold w0. destruct (2 <=? N)%nat; destruct (1 <=? N)%nat;
        rewrite ?list_lookup_insert_ne by lia; apply lookup_replicate_2; lia.
    + eapply Forall_impl; [exact Hout|]. cbn. intros b Hb. lia.
Qed.

(** X28. None of the five schedules ([weightsCup], [weightsReg],
    [weightsWorld], [weightsReg48], [weightsTPC]) ever contains a negative
    weight, whatever the number of ranks. *)
Theorem weights_never_negative (N : nat) :
  Forall (Qle 0) (weightsCup N) /\
  Forall (Qle 0) (weightsReg N) /\
  Forall (Qle 0) (weightsWorld N) /\
  Forall (Qle 0) (weightsReg48 N) /\
  Forall (Qle 0) (weightsTPC N).
Proof.
  unfold weightsCup, weightsReg, weightsWorld, weightsReg48, weightsTPC.
  repeat split; apply buildMonotoneByPairs_nonneg;
    try (vm_compute; discriminate);
    repeat (constructor; [vm_compute; discriminate|]); constructor.
Qed.

(* ====================================================================== *)
(** ** One settlement, slot by slot *)

Section SlotFacts.
Context {T : Type} `{NT : Number T}.

(** What a completed run recorded for slot [j]. *)
Lemma tier_spec_slot (fixedOf : nat -> T) playersIdx players z weights res players' j pi :
  tier_spec fixedOf playersIdx players z weights res players' ->
  playersIdx !! j = Some pi ->
  exists p r,
    players !! pi = Some p /\
    ranks res !! j = Some (Some r) /\ (1 <= r <= length playersIdx)%nat /\
    fees res !! j = Some (chips p /! z) /\
    sharePool res !! j = Some (or_zero (weights !! (r - 1)%nat) *! pool res) /\
    fixedY res !! j = Some (fixedOf r) /\
    payouts res !! j = Some (or_zero (weights !! (r - 1)%nat) *! pool res +! fixedOf r) /\
    deltas res !! j
    = Some ((or_zero (weights !! (r - 1)%nat) *! pool res +! fixedOf r) -! chips p /! z).
Proof.
  intros [ents perf Hv Hl Ho Hr Hf Hp HY HS HP HD _] Hj.
  destruct (Forall2_lookup_l _ _ _ _ _ Hv Hj) as (p & Hp_ent & Hp_pl).
  pose proof (lookup_lt_Some _ _ _ Hj) as Hjlt.
  assert (Hjl : (j < length perf)%nat) by lia.
  destruct (rankBy_ranks_Some perf j Hjl) as (k & Hk & Hk').
  assert (Hrank : ranks res !! j = Some (Some (S k))) by (rewrite Hr; exact Hk').
  assert (Hrv : rank_values (ranks res) !! j = Some (S k)).
  { rewrite Hr. apply rank_values_lookup. exact Hk'. }
  assert (Hfee : fees res !! j = Some (chips p /! z)).
  { rewrite Hf, list_lookup_fmap, Hp_ent. reflexivity. }
  exists p, (S k). split; [exact Hp_pl|]. split; [exact Hrank|].
  split.
  { apply lookup_lt_Some in Hk. rewrite rankBy_order_length in Hk. lia. }
  split; [exact Hfee|].
  split; [rewrite HS, list_lookup_fmap, Hrv; reflexivity|].
  split; [rewrite HY, list_lookup_fmap, Hrv; reflexivity|].
  assert (Hpay : payouts res !! j
                 = Some (or_zero (weights !! (S k - 1)%nat) *! pool res +! fixedOf (S k))).
  { rewrite HP, list_lookup_fmap, Hrv. reflexivity. }
  split; [exact Hpay|].
  rewrite HD, list_lookup_imap, Hpay. cbn. unfold get. rewrite Hfee. reflexivity.
Qed.

End SlotFacts.

Section Accounting.
Local Open Scope Q_scope.

Lemma tier_spec_pool (fixedOf : nat -> Q) playersIdx players z weights res players' :
  tier_spec fixedOf playersIdx players z weights res players' ->
  pool res == sum (balance players <$> playersIdx) / z.
Proof.
  intros [ents perf Hv Hl Ho Hr Hf Hp HY HS HP HD _].
  rewrite Hp, Hf. unfold Qdiv.
  rewrite <- (sum_map_scale (balance players) (/ z) playersIdx).
  assert (E : (fun p : Player => (chips p /! z)%js) <$> ents
              = (fun pi => balance players pi * / z) <$> playersIdx).
  { clear - Hv. induction Hv as [|pi p idxs ents Hpi _ IH]; [reflexivity|].
    rewrite !fmap_cons, IH. f_equal. unfold balance. rewrite Hpi. reflexivity. }
  rewrite E. reflexivity.
Qed.

End Accounting.

Section ApplyDeltas.
Context {T : Type} `{NT : Number T}.

Lemma fold_alter_length (ds : list T) (l : list (nat * nat)) (players : list Player) :
  length (fold_left
            (fun players jp =>
               alter (fun p => mkPlayer (id p) (skill p) (chips p +! get ds jp.1))
                     jp.2 players) l players)
  = length players.
Proof.
  revert players. induction l as [|jp l IH]; intros players; [reflexivity|].
  cbn [fold_left]. rewrite IH. apply length_alter.
Qed.

Lemma fold_alter_frame (ds : list T) (l : list (nat * nat)) (players : list Player) (i : nat) :
  Forall (fun jp : nat * nat => jp.2 <> i) l ->
  fold_left
    (fun players jp =>
       alter (fun p => mkPlayer (id p) (skill p) (chips p +! get ds jp.1)) jp.2 players)
    l players !! i
  = players !! i.
Proof.
  intros Hl. revert players. induction Hl as [|jp l Hne _ IH]; intros players; [reflexivity|].
  cbn [fold_left]. rewrite IH. apply list_lookup_alter_ne. exact Hne.
Qed.

(** The in-place update keeps the roster's length and touches only the
    participants, whether or not an index is listed twice. *)
Lemma apply_deltas_length (playersIdx : list nat) (ds : list T) (players : list Player) :
  length (apply_deltas playersIdx ds players) = length players.
Proof. apply fold_alter_length. Qed.

Lemma apply_deltas_other (playersIdx : list nat) (ds : list T) (players : list Player) i :
  i ∉ playersIdx -> apply_deltas playersIdx ds players !! i = players !! i.
Proof.
  intros Hi. apply fold_alter_frame. apply Forall_forall. intros [j pi] Hin.
  apply list_elem_of_lookup in Hin as [k Hk]. rewrite list_lookup_imap in Hk.
  destruct (playersIdx !! k) eqn:E; cbn in Hk; inversion Hk; subst. cbn.
  intros ->. apply Hi. eapply list_elem_of_lookup_2. exact E.
Qed.

End ApplyDeltas.

(** X10. What one [tierRun] does to each participant: the slot of a
    participant with balance [c] who finishes at rank [r] records the fee
    [c / z], the share [weights[r-1] * pool] (0 past the end of the
    weights), the bonus [y] if rank [r] is eligible and 0 otherwise, their
    sum as payout and payout minus fee as delta; with pairwise different
    participants the new balance is the old one plus that delta, with [id]
    and [skill] unchanged.  Players who do not take part are untouched and
    the roster keeps its length. *)
Theorem tierRun_slot_breakdown (rand : nat -> Q) (playersIdx : list nat)
    (players : list Player) (z y : Q) (weights : list Q)
    (giveYToTopHalf : bool) (fixedYTopK : option Q) (s : nat) :
  ~ (z == 0)%Q ->
  Forall (fun pi => (pi < length players)%nat) playersIdx ->
  let N := length playersIdx in
  exists res players' s',
    tierRun rand playersIdx players z y weights giveYToTopHalf fixedYTopK s
    = Some ((res, players'), s') /\
    (forall j pi, playersIdx !! j = Some pi ->
       exists p r,
         players !! pi = Some p /\ ranks res !! j = Some (Some r) /\ (1 <= r <= N)%nat /\
         let fee := (chips p / z)%Q in
         let share := (or_zero (weights !! (r - 1)%nat) * pool res)%Q in
         let fixed := if eligible N giveYToTopHalf fixedYTopK r then y else 0%Q in
         fees res !! j = Some fee /\
         sharePool res !! j = Some share /\
         fixedY res !! j = Some fixed /\
         payouts res !! j = Some (share + fixed)%Q /\
         deltas res !! j = Some (share + fixed - fee)%Q /\
         (NoDup playersIdx ->
          players' !! pi
          = Some (mkPlayer (id p) (skill p) (chips p + (share + fixed - fee))%Q))) /\
    (forall i, i ∉ playersIdx -> players' !! i = players !! i) /\
    length players' = length players.
Proof.
  intros Hz Hvalid N. subst N.
  destruct (tierRun_body_total
              (fun N => fixed_topK N y giveYToTopHalf fixedYTopK)
              rand playersIdx players z weights s Hvalid) as (res & players' & Hrun).
  exists res, players', (s + 3 * length playersIdx)%nat. split; [exact Hrun|].
  apply tierRun_body_inv in Hrun.
  assert (Hpl : players' = apply_deltas playersIdx (deltas res) players).
  { destruct Hrun as [? ? _ _ _ _ _ _ _ _ _ _ Hpl]. exact Hpl. }
  split; [|split].
  - intros j pi Hj.
    destruct (tier_spec_slot _ _ _ _ _ _ _ j pi Hrun Hj)
      as (p & r & Hp & Hr & Hrange & Hfee & Hshare & Hfix & Hpay & Hdel).
    exists p, r. split; [exact Hp|]. split; [exact Hr|]. split; [exact Hrange|].
    cbn zeta. rewrite fixed_topK_eligible in Hfix, Hpay, Hdel.
    split; [exact Hfee|]. split; [exact Hshare|]. split; [exact Hfix|].
    split; [exact Hpay|]. split; [exact Hdel|].
    intros Hnd. rewrite Hpl.
    destruct (apply_deltas_lookup playersIdx (deltas res) players Hnd) as (_ & Hlk).
    destruct (Hlk pi) as (Hin & _). rewrite (Hin j Hj), Hp. cbn.
    unfold get. rewrite Hdel. reflexivity.
  - intros i Hi. rewrite Hpl. apply apply_deltas_other. exact Hi.
  - rewrite Hpl. apply apply_deltas_length.
Qed.

Lemma tierRun_slot_breakdown_witness :
  exists res players' s',
    tierRun demo_rand [2; 0; 3]%nat demo_roster (8 # 1) (50 # 1) [1 # 2; 1 # 4] true None 0
    = Some ((res, players'), s') /\
    length players' = 4%nat /\
    players' !! 1%nat = demo_roster !! 1%nat.
Proof.
  destruct (tierRun_slot_breakdown demo_rand [2; 0; 3]%nat demo_roster (8 # 1) (50 # 1)
                                   [1 # 2; 1 # 4] true None 0)
    as (res & players' & s' & E & _ & Hother & Hlen).
  - vm_compute. discriminate.
  - repeat constructor; cbn; lia.
  - exists res, players', s'. split; [exact E|]. split; [exact Hlen|].
    apply Hother. apply (bool_decide_unpack _). vm_compute. exact I.
Defined.

Section Invariants.
Local Open Scope Q_scope.

Lemma sum_nonneg (l : list Q) : Forall (Qle 0) l -> 0 <= sum l.
Proof.
  induction 1 as [|x l Hx _ IH]; [rewrite sum_nil; lra | rewrite sum_cons; lra].
Qed.

Lemma or_zero_nonneg (w : list Q) (k : nat) : Forall (Qle 0) w -> 0 <= or_zero (w !! k).
Proof.
  intros Hw. rewrite or_zero_Q. destruct (w !! k) as [x|] eqn:E; cbn; [|lra].
  rewrite Forall_forall in Hw. apply Hw. eapply list_elem_of_lookup_2. exact E.
Qed.

Lemma balance_nonneg (players : list (Player (T:=Q))) (pi : nat) :
  Forall (fun p => 0 <= chips p) players -> 0 <= balance players pi.
Proof.
  intros Hp. unfold balance. destruct (players !! pi) as [p|] eqn:E; cbn.
  - rewrite Forall_forall in Hp. apply Hp. eapply list_elem_of_lookup_2. exact E.
  - change (0 <= 0). lra.
Qed.

Lemma tier_spec_pool_nonneg (fixedOf : nat -> Q) playersIdx players z weights res players' :
  tier_spec fixedOf playersIdx players z weights res players' ->
  0 < z -> Forall (fun p => 0 <= chips p) players -> 0 <= pool res.
Proof.
  intros Hspec Hz Hp. rewrite (tier_spec_pool _ _ _ _ _ _ _ Hspec).
  apply Qle_shift_div_l; [exact Hz|]. rewrite Qmult_0_l.
  apply sum_nonneg. apply Forall_fmap, Forall_forall. intros pi _. cbn.
  apply balance_nonneg, Hp.
Qed.

Lemma fee_le_balance (c z : Q) : 0 <= c -> 1 <= z -> 0 <= c / z <= c.
Proof.
  intros Hc Hz. split.
  - apply Qle_shift_div_l; [lra|]. lra.
  - apply Qle_shift_div_r; [lra|]. nra.
Qed.

End Invariants.

(** X11. With [z >= 1], [y >= 0], weights that are not negative and
    pairwise different participants, a settlement never drives a balance
    below zero: if no balance is negative before [tierRun], none is after
    it, and the pool, the fees and the payouts are not negative. *)
Theorem tierRun_balances_stay_nonneg (rand : nat -> Q) (playersIdx : list nat)
    (players : list Player) (z y : Q) (weights : list Q)
    (giveYToTopHalf : bool) (fixedYTopK : option Q) (s : nat) :
  (1 <= z)%Q -> (0 <= y)%Q ->
  Forall (Qle 0) weights ->
  Forall (fun p => 0 <= chips p)%Q players ->
  NoDup playersIdx ->
  Forall (fun pi => (pi < length players)%nat) playersIdx ->
  exists res players' s',
    tierRun rand playersIdx players z y weights giveYToTopHalf fixedYTopK s
    = Some ((res, players'), s') /\
    Forall (fun p => 0 <= chips p)%Q players' /\
    (0 <= pool res)%Q /\
    Forall (Qle 0) (fees res) /\
    Forall (Qle 0) (payouts res).
Proof.
  intros Hz Hy Hw Hchips Hnd Hvalid.
  destruct (tierRun_body_total
              (fun N => fixed_topK N y giveYToTopHalf fixedYTopK)
              rand playersIdx players z weights s Hvalid) as (res & players' & Hrun).
  exists res, players', (s + 3 * length playersIdx)%nat. split; [exact Hrun|].
  apply tierRun_body_inv in Hrun.
  assert (Hpool : (0 <= pool res)%Q).
  { apply (tier_spec_pool_nonneg _ _ _ _ _ _ _ Hrun); [lra | exact Hchips]. }
  assert (Hpl : players' = apply_deltas playersIdx (deltas res) players).
  { destruct Hrun as [? ? _ _ _ _ _ _ _ _ _ _ Hpl]. exact Hpl. }
  pose proof (tier_spec_lengths _ _ _ _ _ _ _ Hrun) as (_ & _ & Hfl & _ & _ & Hpal & _).
  assert (Hfix : forall r, (0 <= fixed_topK (length playersIdx) y giveYToTopHalf fixedYTopK r)%Q).
  { intros r. rewrite fixed_topK_eligible. destruct (eligible _ _ _ r); [exact Hy|].
    change (0 <= 0)%Q. lra. }
  assert (Hslot : forall j pi, playersIdx !! j = Some pi ->
            exists p fee pay,
              players !! pi = Some p /\ fees res !! j = Some fee /\
              payouts res !! j = Some pay /\ deltas res !! j = Some (pay - fee)%Q /\
              (0 <= fee <= chips p)%Q /\ (0 <= pay)%Q).
  { intros j pi Hj.
    destruct (tier_spec_slot _ _ _ _ _ _ _ j pi Hrun Hj)
      as (p & r & Hp & Hr & Hrange & Hfee & Hshare & Hfx & Hpay & Hdel).
    eexists p, _, _. split; [exact Hp|]. split; [exact Hfee|]. split; [exact Hpay|].
    split; [exact Hdel|].
    assert (Hc : (0 <= chips p)%Q).
    { rewrite Forall_forall in Hchips. apply Hchips. eapply list_elem_of_lookup_2. exact Hp. }
    split; [apply fee_le_balance; assumption|].
    pose proof (or_zero_nonneg weights (r - 1) Hw) as Hw0.
    pose proof (Hfix r) as Hf0.
    change (0 <= or_zero (weights !! (r - 1)%nat) * pool res
                 + fixed_topK (length playersIdx) y giveYToTopHalf fixedYTopK r)%Q.
    nra. }
  split; [|split; [exact Hpool|split]].
  - apply Forall_forall. intros q Hq. apply list_elem_of_lookup in Hq as [i Hi].
    rewrite Hpl in Hi.
    destruct (apply_deltas_lookup playersIdx (deltas res) players Hnd) as (_ & Hlk).
    destruct (Hlk i) as (Hin & Hout).
    destruct (decide (i ∈ playersIdx)) as [Hmem|Hmem].
    + apply list_elem_of_lookup in Hmem as [j Hj].
      destruct (Hslot j i Hj) as (p & fee & pay & Hp & _ & _ & Hdel & Hfee & Hpay).
      rewrite (Hin j Hj), Hp in Hi. cbn in Hi. inversion Hi; subst q. cbn [chips].
      unfold get. rewrite Hdel. cbn.
      change (0 <= chips p + (pay - fee))%Q. lra.
    + rewrite (Hout Hmem) in Hi. rewrite Forall_forall in Hchips. apply Hchips.
      eapply list_elem_of_lookup_2. exact Hi.
  - apply Forall_forall. intros x Hx. apply list_elem_of_lookup in Hx as [j Hj].
    pose proof (lookup_lt_Some _ _ _ Hj) as Hlt. rewrite Hfl in Hlt.
    destruct (lookup_lt_is_Some_2 playersIdx j Hlt) as [pi Hpi].
    destruct (Hslot j pi Hpi) as (p & fee & pay & _ & Hfee & _ & _ & Hrange & _).
    rewrite Hfee in Hj. inversion Hj; subst. apply Hrange.
  - apply Forall_forall. intros x Hx. apply list_elem_of_lookup in Hx as [j Hj].
    pose proof (lookup_lt_Some _ _ _ Hj) as Hlt. rewrite Hpal in Hlt.
    destruct (lookup_lt_is_Some_2 playersIdx j Hlt) as [pi Hpi].
    destruct (Hslot j pi Hpi) as (p & fee & pay & _ & _ & Hpay & _ & _ & Hnn).
    rewrite Hpay in Hj. inversion Hj; subst. exact Hnn.
Qed.

Lemma tierRun_balances_stay_nonneg_witness :
  exists res players' s',
    tierRun demo_rand [2; 0; 3]%nat demo_roster (8 # 1) (50 # 1) [1 # 2; 1 # 4] true None 0
    = Some ((res, players'), s') /\
    Forall (fun p => 0 <= chips p)%Q players'.
Proof.
  destruct (tierRun_balances_stay_nonneg demo_rand [2; 0; 3]%nat demo_roster (8 # 1) (50 # 1)
                                         [1 # 2; 1 # 4] true None 0)
    as (res & players' & s' & E & H & _).
  - vm_compute. discriminate.
  - vm_compute. discriminate.
  - repeat constructor; vm_compute; discriminate.
  - repeat constructor; vm_compute; discriminate.
  - apply (bool_decide_unpack _). vm_compute. exact I.
  - repeat constructor; cbn; lia.
  - exists res, players', s'. split; [exact E | exact H].
Defined.

Section MonotonePayouts.
Local Open Scope Q_scope.

Lemma non_increasing_sorted (w : list Q) :
  non_increasing w = true -> StronglySorted (fun a b => b <= a) w.
Proof.
  unfold non_increasing. induction w as [|x w IH]; intros H; [constructor|].
  destruct w as [|y w]; [repeat constructor|].
  cbn [tail zip zip_with forallb] in H. apply andb_true_iff in H as [Hxy Hrest].
  cbn [fst snd] in Hxy. apply Qle_bool_iff in Hxy.
  specialize (IH Hrest). constructor; [exact IH|].
  inversion IH as [|? ? _ Hall]; subst. constructor; [exact Hxy|].
  eapply Forall_impl; [exact Hall|]. cbn. intros c Hc. lra.
Qed.

Lemma weights_antitone (w : list Q) (a b : nat) :
  non_increasing w = true -> non_negative w = true -> (a <= b)%nat ->
  or_zero (w !! b) <= or_zero (w !! a).
Proof.
  intros Hni Hnn Hab.
  assert (Hpos : Forall (Qle 0) w).
  { apply Forall_forall. intros x Hx. unfold non_negative in Hnn.
    rewrite forallb_forall in Hnn. apply Qle_bool_iff, Hnn, list_elem_of_In, Hx. }
  destruct (w !! b) as [y|] eqn:Eb.
  - destruct (lookup_lt_is_Some_2 w a) as [x Ex].
    { apply lookup_lt_Some in Eb. lia. }
    rewrite Ex, !or_zero_Q. cbn.
    destruct (decide (a = b)) as [->|Hne].
    + rewrite Ex in Eb. inversion Eb. lra.
    + apply (StronglySorted_lookup _ w a b x y (non_increasing_sorted w Hni) Ex Eb). lia.
  - rewrite (or_zero_Q None). cbn. apply or_zero_nonneg, Hpos.
Qed.

Lemma eligible_downward (N : nat) g (K : option Q) (r1 r2 : nat) :
  (r1 <= r2)%nat -> eligible N g K r2 = true -> eligible N g K r1 = true.
Proof.
  intros Hr. unfold eligible. destruct g; [|reflexivity].
  destruct K as [K|].
  - rewrite !nle_Q. intros H. eapply Qle_trans; [|exact H].
    change (inject_Z (Z.of_nat r1) <= inject_Z (Z.of_nat r2)). rewrite <- Zle_Qle. lia.
  - rewrite !Nat.leb_le. lia.
Qed.

End MonotonePayouts.

(** X12. With a weight vector that does not increase and is not negative,
    [z > 0], [y >= 0] and balances that are not negative, a participant
    with a better (smaller) rank never gets a smaller pool share or a
    smaller bonus than one with a worse rank. *)
Theorem tierRun_better_rank_paid_no_less (rand : nat -> Q) (playersIdx : list nat)
    (players : list Player) (z y : Q) (weights : list Q)
    (giveYToTopHalf : bool) (fixedYTopK : option Q) (s : nat) :
  (0 < z)%Q -> (0 <= y)%Q ->
  Forall (fun p => 0 <= chips p)%Q players ->
  non_increasing weights = true -> non_negative weights = true ->
  Forall (fun pi => (pi < length players)%nat) playersIdx ->
  exists res players' s',
    tierRun rand playersIdx players z y weights giveYToTopHalf fixedYTopK s
    = Some ((res, players'), s') /\
    forall j1 j2 r1 r2,
      ranks res !! j1 = Some (Some r1) -> ranks res !! j2 = Some (Some r2) ->
      (r1 <= r2)%nat ->
      exists share1 share2 fixed1 fixed2,
        sharePool res !! j1 = Some share1 /\ sharePool res !! j2 = Some share2 /\
        fixedY res !! j1 = Some fixed1 /\ fixedY res !! j2 = Some fixed2 /\
        payouts res !! j1 = Some (share1 + fixed1)%Q /\
        payouts res !! j2 = Some (share2 + fixed2)%Q /\
        (share2 <= share1)%Q /\ (fixed2 <= fixed1)%Q.
Proof.
  intros Hz Hy Hchips Hni Hnn Hvalid.
  destruct (tierRun_body_total
              (fun N => fixed_topK N y giveYToTopHalf fixedYTopK)
              rand playersIdx players z weights s Hvalid) as (res & players' & Hrun).
  exists res, players', (s + 3 * length playersIdx)%nat. split; [exact Hrun|].
  apply tierRun_body_inv in Hrun.
  pose proof (tier_spec_pool_nonneg _ _ _ _ _ _ _ Hrun Hz Hchips) as Hpool.
  destruct Hrun as [ents perf Hv Hl Ho Hr Hf Hp HY HS HP HD _].
  intros j1 j2 r1 r2 H1 H2 Hle.
  assert (Hrv : forall j r, ranks res !! j = Some (Some r) ->
                            rank_values (ranks res) !! j = Some r).
  { intros j r Hj. rewrite Hr. apply rank_values_lookup. rewrite <- Hr. exact Hj. }
  pose proof (Hrv _ _ H1) as V1. pose proof (Hrv _ _ H2) as V2.
  eexists _, _, _, _.
  split; [rewrite HS, list_lookup_fmap, V1; reflexivity|].
  split; [rewrite HS, list_lookup_fmap, V2; reflexivity|].
  split; [rewrite HY, list_lookup_fmap, V1; reflexivity|].
  split; [rewrite HY, list_lookup_fmap, V2; reflexivity|].
  split; [rewrite HP, list_lookup_fmap, V1; reflexivity|].
  split; [rewrite HP, list_lookup_fmap, V2; reflexivity|].
  split.
  - pose proof (weights_antitone weights (r1 - 1) (r2 - 1) Hni Hnn ltac:(lia)) as Hw.
    change (or_zero (weights !! (r2 - 1)%nat) * pool res
            <= or_zero (weights !! (r1 - 1)%nat) * pool res)%Q.
    nra.
  - rewrite !fixed_topK_eligible.
    destruct (eligible _ giveYToTopHalf fixedYTopK r2) eqn:E2.
    + rewrite (eligible_downward _ _ _ r1 r2 Hle E2). lra.
    + destruct (eligible _ giveYToTopHalf fixedYTopK r1); [exact Hy | change (0 <= 0)%Q; lra].
Qed.

Lemma tierRun_better_rank_paid_no_less_witness :
  exists res players' s',
    tierRun demo_rand [2; 0; 3]%nat demo_roster (8 # 1) (50 # 1) [1 # 2; 1 # 4] true None 0
    = Some ((res, players'), s') /\
    forall j1 j2 r1 r2,
      ranks res !! j1 = Some (Some r1) -> ranks res !! j2 = Some (Some r2) ->
      (r1 <= r2)%nat ->
      exists share1 share2 fixed1 fixed2,
        sharePool res !! j1 = Some share1 /\ sharePool res !! j2 = Some share2 /\
        fixedY res !! j1 = Some fixed1 /\ fixedY res !! j2 = Some fixed2 /\
        payouts res !! j1 = Some (share1 + fixed1)%Q /\
        payouts res !! j2 = Some (share2 + fixed2)%Q /\
        (share2 <= share1)%Q /\ (fixed2 <= fixed1)%Q.
Proof.
  apply (tierRun_better_rank_paid_no_less demo_rand [2; 0; 3]%nat demo_roster (8 # 1)
           (50 # 1) [1 # 2; 1 # 4] true None 0).
  - vm_compute. reflexivity.
  - vm_compute. discriminate.
  - repeat constructor; vm_compute; discriminate.
  - vm_compute. reflexivity.
  - vm_compute. reflexivity.
  - repeat constructor; cbn; lia.
Defined.

(* ====================================================================== *)
(** ** Decay and the balances *)

Section SortMap.
Context {A B : Type} (f : A -> B) (before : A -> A -> bool) (before' : B -> B -> bool).

Lemma sort_insert_map (x : A) (l : list A) :
  (forall y, y ∈ l -> before' (f y) (f x) = before y x) ->
  sort_insert before' (f x) (f <$> l) = f <$> sort_insert before x l.
Proof.
  induction l as [|y l IH]; intros H; [reflexivity|].
  cbn [fmap list_fmap sort_insert].
  rewrite (H y) by apply list_elem_of_here.
  destruct (before y x); [|reflexivity].
  cbn [fmap list_fmap]. f_equal. apply IH. intros y' Hy'. apply H. now apply list_elem_of_further.
Qed.

(** Sorting commutes with a map that does not change what the comparator
    answers. *)
Lemma js_sort_map (l : list A) :
  (forall a b, a ∈ l -> b ∈ l -> before' (f a) (f b) = before a b) ->
  js_sort before' (f <$> l) = f <$> js_sort before l.
Proof.
  induction l as [|x l IH]; intros H; [reflexivity|].
  cbn [fmap list_fmap js_sort foldr].
  change (foldr (sort_insert before') [] (f <$> l)) with (js_sort before' (f <$> l)).
  change (foldr (sort_insert before) [] l) with (js_sort before l).
  rewrite IH.
  - apply sort_insert_map. intros y Hy. rewrite (js_sort_perm before l) in Hy.
    apply H; [now apply list_elem_of_further | apply list_elem_of_here].
  - intros a b Ha Hb. apply H; now apply list_elem_of_further.
Qed.

End SortMap.

Section DecayFacts.
Local Open Scope Q_scope.

Lemma decayed_nonneg (p x : Q) : 0 <= decayed p x.
Proof. unfold decayed. apply Q.le_max_l. Qed.

Lemma decayed_scale (p x : Q) : 0 <= x -> decayed p x == (1 - clamp_pct p / 100) * x.
Proof.
  intros Hx. unfold decayed. pose proof (clamp_pct_range p) as [H0 H1].
  set (c := clamp_pct p) in *.
  assert (Hf : 0 <= 1 - c / 100).
  { unfold Qdiv. change (/ 100) with (1 # 100). lra. }
  rewrite Q.max_r; [ring|]. nra.
Qed.

Lemma decayed_le (p x : Q) : 0 <= x -> decayed p x <= x.
Proof.
  intros Hx. rewrite (decayed_scale p x Hx). pose proof (clamp_pct_range p) as [H0 H1].
  set (c := clamp_pct p) in *.
  assert (Hf : 1 - c / 100 <= 1).
  { unfold Qdiv. change (/ 100) with (1 # 100). lra. }
  nra.
Qed.

Lemma decayed_mono (p x y : Q) : x <= y -> decayed p x <= decayed p y.
Proof.
  intros Hxy. unfold decayed. pose proof (clamp_pct_range p) as [H0 H1].
  set (c := clamp_pct p) in *.
  assert (Hf : 0 <= 1 - c / 100).
  { unfold Qdiv. change (/ 100) with (1 # 100). lra. }
  apply Q.max_le_compat_l. nra.
Qed.

End DecayFacts.

(** X13. [decayAll] keeps the roster length and [params], sets the stage
    to "decay" and appends one record with the factor [1 - c/100], where
    [c] is [decay_pct] clamped to [0 .. 100], so the factor lies in
    [0 .. 1].  No balance is negative afterwards; if none was negative
    before, no balance grows; at 100 percent or more every balance becomes
    0. *)
Theorem decayAll_shrinks_balances (st : Sim (T:=Q)) :
  let c := Qmax 0 (Qmin 100 (decay_pct (params st))) in
  length (players (decayAll st)) = length (players st) /\
  params (decayAll st) = params st /\
  stage (decayAll st) = "decay"%string /\
  (exists factor pct,
      history (decayAll st) = history st ++ [EvDecay factor pct] /\
      (pct == c)%Q /\ (factor == 1 - c / 100)%Q /\ (0 <= factor <= 1)%Q) /\
  Forall (fun p => 0 <= chips p)%Q (players (decayAll st)) /\
  (Forall (fun p => 0 <= chips p)%Q (players st) ->
     Forall2 (fun old new => chips new <= chips old)%Q (players st) (players (decayAll st))) /\
  ((100 <= decay_pct (params st))%Q ->
     Forall (fun p => chips p == 0)%Q (players (decayAll st))).
Proof.
  intros c. pose proof (decayAll_players st) as H2.
  split; [symmetry; apply (Forall2_length _ _ _ H2)|].
  split; [reflexivity|]. split; [reflexivity|].
  split.
  { eexists _, _. split; [reflexivity|].
    pose proof (decay_pct_clamped (decay_pct (params st))) as Hc.
    pose proof (clamp_pct_range (decay_pct (params st))) as [H0 H1].
    split; [exact Hc|].
    change ((of_int 1 -! ?a /! of_int 100)%js) with (1 - a / 100)%Q.
    split; [rewrite Hc; reflexivity|].
    rewrite Hc. unfold Qdiv. change (/ 100)%Q with (1 # 100)%Q. split; lra. }
  split.
  { clear c. induction H2 as [|old new olds news (_ & _ & Hc) _ IH]; constructor; [|exact IH].
    rewrite Hc. apply decayed_nonneg. }
  split.
  { intros Hnn. clear c. revert Hnn.
    induction H2 as [|old new olds news (_ & _ & Hc) _ IH]; intros Hnn; constructor.
    - inversion Hnn; subst. rewrite Hc. apply decayed_le. assumption.
    - inversion Hnn; subst. apply IH. assumption. }
  intros H100. clear c.
  induction H2 as [|old new olds news (_ & _ & Hc) _ IH]; constructor; [|exact IH].
  rewrite Hc. unfold decayed, clamp_pct.
  rewrite (Q.min_l 100) by exact H100. rewrite (Q.max_r 0 100) by discriminate.
  assert (E : (chips old * (1 - 100 / 100) == 0)%Q) by field.
  rewrite E. reflexivity.
Qed.

(** X14. [decayAll] never reverses the order of two balances: a player
    who had at most the chips of another before the decay has at most the
    chips of that player after it. *)
Theorem decayAll_keeps_order (st : Sim (T:=Q)) (i j : nat) (p q p' q' : Player) :
  players st !! i = Some p -> players st !! j = Some q ->
  players (decayAll st) !! i = Some p' -> players (decayAll st) !! j = Some q' ->
  (chips p <= chips q)%Q ->
  (chips p' <= chips q')%Q.
Proof.
  intros Hp Hq Hp' Hq' Hle.
  pose proof (decayAll_players st) as H2.
  destruct (Forall2_lookup_l _ _ _ _ _ H2 Hp) as (p0 & Hp0 & _ & _ & Hcp).
  destruct (Forall2_lookup_l _ _ _ _ _ H2 Hq) as (q0 & Hq0 & _ & _ & Hcq).
  rewrite Hp' in Hp0. rewrite Hq' in Hq0. inversion Hp0; inversion Hq0; subst p0 q0.
  rewrite Hcp, Hcq. apply decayed_mono. exact Hle.
Qed.

Lemma decayAll_keeps_order_witness :
  exists p' q',
    players (decayAll demo_idle) !! 0%nat = Some p' /\
    players (decayAll demo_idle) !! 1%nat = Some q' /\
    (chips p' <= chips q')%Q.
Proof.
  eexists _, _. split; [reflexivity|]. split; [reflexivity|].
  apply (decayAll_keeps_order demo_idle 0 1 (mkPlayer 0 (3 # 2) (100 # 1))
                              (mkPlayer 1 (1 # 2) (120 # 1))).
  - reflexivity.
  - reflexivity.
  - reflexivity.
  - reflexivity.
  - vm_compute. discriminate.
Defined.

(* ====================================================================== *)
(** ** The events on the roster: Cup and Regional *)

Section RosterEvents.
Context {T : Type} `{NT : Number T}.

Lemma rosterRows_total (idxs : list nat) (res : TierResult) (next : list (Player (T:=T)))
    (s : nat) :
  Forall (fun pi => (pi < length next)%nat) idxs ->
  exists rows, rosterRows idxs res next s = Some (rows, s) /\ length rows = length idxs.
Proof.
  intros Hvalid. unfold rosterRows.
  set (mkrow := fun jp : nat * nat =>
                  let* p := defined (next !! jp.2) in
                  ret (mkRow (label "P" (Z.of_nat jp.2 + 1)) (Z.of_nat jp.2)
                             (mjoin (ranks res !! jp.1))
                             (get (fees res) jp.1) (get (fixedY res) jp.1)
                             (get (sharePool res) jp.1) (get (payouts res) jp.1)
                             (get (deltas res) jp.1) (Some (chips p)))).
  assert (Hrows : forall l : list (nat * nat),
             Forall (fun jp => is_Some (next !! jp.2)) l ->
             forall s0, exists rows, mapE mkrow l s0 = Some (rows, s0)
                                     /\ length rows = length l).
  { induction 1 as [|jp l [p Hp] _ IH]; intros s0.
    - exists []. split; reflexivity.
    - destruct (IH s0) as (rows & Hrows & Hlen). eexists. cbn [mapE].
      unfold bind at 1. unfold mkrow at 1. unfold bind at 1. rewrite Hp. cbn [defined ret].
      unfold bind at 1. rewrite Hrows. split; [reflexivity|]. cbn. rewrite Hlen. reflexivity. }
  destruct (Hrows (imap (fun j pi => (j, pi)) idxs)) with (s0 := s) as (rows & E & Hlen).
  { apply Forall_forall. intros [j pi] Hin.
    apply list_elem_of_lookup in Hin as [k Hk]. rewrite list_lookup_imap in Hk.
    destruct (idxs !! k) as [pi'|] eqn:Ek; cbn in Hk; inversion Hk; subst.
    apply lookup_lt_is_Some_2. rewrite Forall_forall in Hvalid. apply Hvalid.
    eapply list_elem_of_lookup_2. exact Ek. }
  exists (js_sort rank_before rows). unfold bind. rewrite E. split; [reflexivity|].
  rewrite js_sort_length, Hlen, length_imap. reflexivity.
Qed.

(** The part the events on the roster share: settle [idxs], then build the
    table. *)
Lemma roster_event (rand : nat -> T) (idxs : list nat) (players : list (Player (T:=T)))
    (z y : T) (w : list T) (g : bool) (s : nat) :
  Forall (fun pi => (pi < length players)%nat) idxs ->
  exists res next rows,
    tierRun_legacy rand idxs players z y w g s
    = Some ((res, next), (s + 3 * length idxs)%nat) /\
    tier_spec (fixed_topK (length idxs) y g None) idxs players z w res next /\
    length next = length players /\
    (forall i, i ∉ idxs -> next !! i = players !! i) /\
    rosterRows idxs res next (s + 3 * length idxs)%nat
    = Some (rows, (s + 3 * length idxs)%nat) /\
    length rows = length idxs.
Proof.
  intros Hvalid.
  destruct (tierRun_body_total (fun N => fixed_topK N y g None)
              rand idxs players z w s Hvalid) as (res & next & Hrun).
  pose proof (tierRun_body_inv _ _ _ _ _ _ _ _ _ _ Hrun) as Hspec.
  assert (Hpl : next = apply_deltas idxs (deltas res) players).
  { destruct Hspec as [? ? _ _ _ _ _ _ _ _ _ _ Hpl]. exact Hpl. }
  assert (Hlen : length next = length players).
  { rewrite Hpl. apply apply_deltas_length. }
  destruct (rosterRows_total idxs res next (s + 3 * length idxs)%nat) as (rows & Hrows & Hrl).
  { rewrite Hlen. exact Hvalid. }
  exists res, next, rows.
  split; [rewrite tierRun_legacy_eq; exact Hrun|].
  split; [exact Hspec|]. split; [exact Hlen|].
  split; [intros i Hi; rewrite Hpl; apply apply_deltas_other; exact Hi|].
  split; [exact Hrows | exact Hrl].
Qed.

(** With [giveYToTopHalf = false] every slot records the bonus. *)
Lemma tier_spec_all_paid (y : T) playersIdx players z weights res players' :
  tier_spec (fixed_topK (length playersIdx) y false None) playersIdx players z weights
            res players' ->
  fixedY res = replicate (length playersIdx) y.
Proof.
  intros [ents perf Hv Hl Ho Hr Hf Hp HY HS HP HD _]. rewrite HY.
  assert (E : length (rank_values (ranks res)) = length playersIdx).
  { unfold rank_values. rewrite length_fmap, Hr, rankBy_ranks_length. exact Hl. }
  revert E. generalize (rank_values (ranks res)). intros l El.
  rewrite <- El. clear. induction l as [|r l IH]; [reflexivity|].
  cbn [fmap list_fmap length replicate]. f_equal. exact IH.
Qed.

(** With [giveYToTopHalf = true] and no [fixedYTopK], the slots ranked in
    the upper half record the bonus and the others 0. *)
Lemma tier_spec_top_half_paid (y : T) playersIdx players z weights res players' (j : nat) :
  tier_spec (fixed_topK (length playersIdx) y true None) playersIdx players z weights
            res players' ->
  (j < length playersIdx)%nat ->
  exists r,
    ranks res !! j = Some (Some r) /\ (1 <= r <= length playersIdx)%nat /\
    fixedY res !! j
    = Some (if (r <=? ceil_half (length playersIdx))%nat then y else of_int 0).
Proof.
  intros Hspec Hj.
  destruct (lookup_lt_is_Some_2 playersIdx j Hj) as [pi Hpi].
  destruct (tier_spec_slot _ _ _ _ _ _ _ _ _ Hspec Hpi)
    as (p & r & _ & Hr & Hrange & _ & _ & HY & _).
  exists r. split; [exact Hr|]. split; [exact Hrange|]. exact HY.
Qed.

End RosterEvents.

Section RegionalRun.
Context {T : Type} `{NT : Number T}.

Lemma topByChips_valid (players : list (Player (T:=T))) (k : nat) :
  length (topByChips players k) = Nat.min k (length players) /\
  NoDup (topByChips players k) /\
  Forall (fun pi => (pi < length players)%nat) (topByChips players k).
Proof.
  destruct (topByChips_perm players k) as (L & HL & Htop). rewrite Htop.
  split; [rewrite length_take, (Permutation_length HL), length_seq; reflexivity|].
  split.
  - apply (sublist_NoDup _ L); [|apply sublist_take].
    rewrite HL. apply NoDup_ListNoDup, List.seq_NoDup.
  - apply Forall_forall. intros pi Hpi.
    apply elem_of_take in Hpi as (j & Hj & _).
    apply list_elem_of_lookup_2 in Hj. rewrite HL in Hj.
    apply list_elem_of_In, in_seq in Hj. lia.
Qed.

(** A Regional, whatever the size of the roster. *)
Lemma runRegional_run (rand : nat -> T) (st : Sim) (s : nat) :
  let idxs := topByChips (players st) 32 in
  exists next rows res,
    runRegional rand st s
    = Some (mkSim (params st) next "regional"
                  (history st ++ [EvTier "regional" idxs rows res]),
            (s + 3 * length idxs)%nat) /\
    tier_spec (fixed_topK (length idxs) (y_reg (params st)) false None) idxs (players st)
              (z_reg (params st)) (weightsReg (length idxs)) res next /\
    length next = length (players st) /\
    (forall i, i ∉ idxs -> next !! i = players st !! i) /\
    length rows = length idxs /\
    rosterRows idxs res next (s + 3 * length idxs)%nat
    = Some (rows, (s + 3 * length idxs)%nat).
Proof.
  intros idxs.
  destruct (topByChips_valid (players st) 32) as (_ & _ & Hvalid). fold idxs in Hvalid.
  destruct (roster_event rand idxs (players st) (z_reg (params st)) (y_reg (params st))
                         (weightsReg (length idxs)) false s Hvalid)
    as (res & next & rows & Hrun & Hspec & Hnl & Hother & Hrows & Hrl).
  pose proof Hrows as Hrows'.
  unfold rosterRows in Hrows. unfold bind at 1 in Hrows.
  match type of Hrows with
  | match ?m with _ => _ end = _ => destruct m as [[rows0 s0]|] eqn:Emap; [|discriminate]
  end.
  cbn [ret] in Hrows. inversion Hrows; subst rows s0. clear Hrows.
  exists next, (js_sort rank_before rows0), res.
  split.
  { unfold runRegional. cbn [reg FIXED_SIZES]. fold idxs.
    unfold bind at 1. rewrite Hrun. unfold bind at 1. rewrite Emap. reflexivity. }
  split; [exact Hspec|]. split; [exact Hnl|]. split; [exact Hother|].
  split; [exact Hrl | exact Hrows'].
Qed.

End RegionalRun.

Lemma choiceIndexes_spec (rand : nat -> Q) (n k s : nat) :
  (forall t, 0 <= rand t < 1)%Q ->
  exists idxs,
    choiceIndexes rand n k s = Some (idxs, (s + (n - 1))%nat) /\
    length idxs = Nat.min k n /\ NoDup idxs /\ Forall (fun i => (i < n)%nat) idxs.
Proof.
  intros Hrand. destruct (shuffle_perm rand Hrand (seq 0 n) s) as (a & E & P).
  rewrite length_seq in E.
  exists (take k a). split.
  { unfold choiceIndexes, bind. rewrite E. reflexivity. }
  split; [rewrite length_take, (Permutation_length P), length_seq; reflexivity|].
  split.
  - apply (sublist_NoDup _ a); [|apply sublist_take].
    rewrite P. apply NoDup_ListNoDup, List.seq_NoDup.
  - apply Forall_forall. intros i Hi. apply elem_of_take in Hi as (j & Hj & _).
    apply list_elem_of_lookup_2 in Hj. rewrite P in Hj.
    apply list_elem_of_In, in_seq in Hj. lia.
Qed.

(** X15. [runCup] on a roster of at least 128 players (with [Math.random]
    in [0, 1)) settles 128 pairwise different players of the roster,
    appends one "cup" record with a table of 128 rows, sets the stage to
    the cup's name and leaves everyone else untouched.  The participants
    ranked 1 to 64 record the bonus [y_cup], the others the bonus 0. *)
Theorem runCup_settles_128 (rand : nat -> Q) (cupIndex : Z) (st : Sim) (s : nat) :
  (forall t, 0 <= rand t < 1)%Q ->
  (128 <= length (players st))%nat ->
  exists st' idxs rows res,
    runCup rand cupIndex st s
    = Some (st', (s + (length (players st) - 1) + 3 * 128)%nat) /\
    params st' = params st /\
    stage st' = label "cup" cupIndex /\
    history st' = history st ++ [EvTier "cup" idxs rows res] /\
    length idxs = 128%nat /\ NoDup idxs /\
    Forall (fun pi => (pi < length (players st))%nat) idxs /\
    length rows = 128%nat /\
    length (players st') = length (players st) /\
    (forall i, i ∉ idxs -> players st' !! i = players st !! i) /\
    (forall j, (j < 128)%nat ->
       exists r, ranks res !! j = Some (Some r) /\ (1 <= r <= 128)%nat /\
                 fixedY res !! j
                 = Some (if (r <=? 64)%nat then y_cup (params st) else 0%Q)).
Proof.
  intros Hrand Hpop.
  destruct (choiceIndexes_spec rand (length (players st)) 128 s Hrand)
    as (idxs & Hidx & Hlen & Hnd & Hvalid).
  rewrite Nat.min_l in Hlen by exact Hpop.
  destruct (roster_event rand idxs (players st) (z_cup (params st)) (y_cup (params st))
                         (weightsCup 128) true (s + (length (players st) - 1))%nat Hvalid)
    as (res & next & rows & Hrun & Hspec & Hnl & Hother & Hrows & Hrl).
  exists (mkSim (params st) next (label "cup" cupIndex)
                (history st ++ [EvTier "cup" idxs rows res])), idxs, rows, res.
  split.
  { rewrite Hlen in Hrun, Hrows.
    unfold runCup. cbn [cupSlots FIXED_SIZES]. unfold bind at 1. rewrite Hidx.
    unfold bind at 1. rewrite Hrun. unfold bind at 1. rewrite Hrows. reflexivity. }
  split; [reflexivity|]. split; [reflexivity|]. split; [reflexivity|].
  split; [exact Hlen|]. split; [exact Hnd|]. split; [exact Hvalid|].
  split; [rewrite Hrl; exact Hlen|]. split; [exact Hnl|]. split; [exact Hother|].
  intros j Hj.
  destruct (tier_spec_top_half_paid _ _ _ _ _ _ _ j Hspec) as (r & Hr & Hrange & HY).
  { rewrite Hlen. exact Hj. }
  rewrite Hlen in Hrange, HY. exists r. split; [exact Hr|]. split; [exact Hrange|]. exact HY.
Qed.

Lemma runCup_settles_128_witness :
  let st := mkSim demo_config ((fun i => mkPlayer (Z.of_nat i) 0%Q (100 # 1)%Q) <$> seq 0 130)
                  "idle" [] in
  exists st' idxs rows res,
    runCup demo_rand 1 st 0 = Some (st', (0 + (length (players st) - 1) + 3 * 128)%nat) /\
    params st' = params st /\
    stage st' = label "cup" 1 /\
    history st' = history st ++ [EvTier "cup" idxs rows res] /\
    length idxs = 128%nat /\ NoDup idxs /\
    Forall (fun pi => (pi < length (players st))%nat) idxs /\
    length rows = 128%nat /\
    length (players st') = length (players st) /\
    (forall i, i ∉ idxs -> players st' !! i = players st !! i) /\
    (forall j, (j < 128)%nat ->
       exists r, ranks res !! j = Some (Some r) /\ (1 <= r <= 128)%nat /\
                 fixedY res !! j
                 = Some (if (r <=? 64)%nat then y_cup (params st) else 0%Q)).
Proof.
  intros st. apply (runCup_settles_128 demo_rand 1 st 0).
  - exact demo_rand_unit.
  - vm_compute. lia.
Defined.

(** X16. [runRegional] on a roster of at least 32 players, for any
    number type: it settles the 32 richest (pairwise different roster
    entries), appends one "regional" record with a table of 32 rows, sets
    the stage, leaves everyone else untouched, and every participant
    records the bonus [y_reg]. *)
Theorem runRegional_settles_32 {T : Type} `{NT : Number T}
    (rand : nat -> T) (st : Sim (T:=T)) (s : nat) :
  (32 <= length (players st))%nat ->
  let idxs := topByChips (players st) 32 in
  exists st' rows res,
    runRegional rand st s = Some (st', (s + 3 * 32)%nat) /\
    params st' = params st /\
    stage st' = "regional"%string /\
    history st' = history st ++ [EvTier "regional" idxs rows res] /\
    length idxs = 32%nat /\ NoDup idxs /\
    Forall (fun pi => (pi < length (players st))%nat) idxs /\
    length rows = 32%nat /\
    length (players st') = length (players st) /\
    (forall i, i ∉ idxs -> players st' !! i = players st !! i) /\
    fixedY res = replicate 32 (y_reg (params st)).
Proof.
  intros Hpop idxs.
  destruct (topByChips_valid (players st) 32) as (Hlen & Hnd & Hvalid).
  fold idxs in Hlen, Hnd, Hvalid. rewrite Nat.min_l in Hlen by exact Hpop.
  destruct (runRegional_run rand st s)
    as (next & rows & res & Hrun & Hspec & Hnl & Hother & Hrl & _).
  fold idxs in Hrun, Hspec, Hother, Hrl.
  eexists _, rows, res.
  split; [rewrite Hrun, Hlen; reflexivity|].
  split; [reflexivity|]. split; [reflexivity|]. split; [reflexivity|].
  split; [exact Hlen|]. split; [exact Hnd|]. split; [exact Hvalid|].
  split; [rewrite Hrl; exact Hlen|]. split; [exact Hnl|]. split; [exact Hother|].
  rewrite (tier_spec_all_paid _ _ _ _ _ _ _ Hspec), Hlen. reflexivity.
Qed.

Lemma runRegional_settles_32_witness :
  let st := mkSim demo_config demo_league "idle" [] in
  let idxs := topByChips (players st) 32 in
  exists st' rows res,
    runRegional demo_rand st 0 = Some (st', (0 + 3 * 32)%nat) /\
    params st' = params st /\
    stage st' = "regional"%string /\
    history st' = history st ++ [EvTier "regional" idxs rows res] /\
    length idxs = 32%nat /\ NoDup idxs /\
    Forall (fun pi => (pi < length (players st))%nat) idxs /\
    length rows = 32%nat /\
    length (players st') = length (players st) /\
    (forall i, i ∉ idxs -> players st' !! i = players st !! i) /\
    fixedY res = replicate 32 (y_reg (params st)).
Proof.
  intros st. apply (runRegional_settles_32 demo_rand st 0).
  vm_compute. lia.
Defined.

(* ====================================================================== *)
(** ** The TPC field *)

Section Pros.
Context {T : Type} `{NT : Number T}.

Lemma getPro_found (st : Sim (T:=T)) (s : nat) (before after : list Event)
    (idxs : list nat) (rows : list Row) (res : TierResult) :
  history st = before ++ EvTier "regional" idxs rows res :: after ->
  length idxs = 32%nat ->
  Forall (fun e => is_regional32 e = false) after ->
  getProIdxsFromLastRegional32 st s = Some (idxs, s).
Proof.
  intros Hh Hlen Hafter. unfold getProIdxsFromLastRegional32. fold is_regional32.
  rewrite Hh, rev_app_distr. cbn [rev]. rewrite <- app_assoc. cbn [app].
  assert (E : forall l rest, Forall (fun e => is_regional32 e = false) l ->
                List.find is_regional32 (l ++ rest) = List.find is_regional32 rest).
  { induction 1 as [|e l He _ IH]; [reflexivity|]. cbn. rewrite He. exact IH. }
  rewrite E.
  - cbn [List.find]. unfold is_regional32 at 1. cbn [ev_type ev_idxs].
    rewrite Hlen. cbn. reflexivity.
  - apply Forall_forall. intros e He. apply list_elem_of_In in He.
    rewrite <- in_rev in He. rewrite Forall_forall in Hafter. apply Hafter.
    apply list_elem_of_In. exact He.
Qed.

Lemma getPro_fallback (st : Sim (T:=T)) (s : nat) :
  Forall (fun e => is_regional32 e = false) (history st) ->
  getProIdxsFromLastRegional32 st s = Some (topByChips (players st) 32, s).
Proof.
  intros Hall. unfold getProIdxsFromLastRegional32. fold is_regional32.
  assert (E : List.find is_regional32 (rev (history st)) = None).
  { assert (Hrev : Forall (fun e => is_regional32 e = false) (rev (history st))).
    { apply Forall_forall. intros e He. apply list_elem_of_In in He.
      rewrite <- in_rev in He. rewrite Forall_forall in Hall.
      apply Hall, list_elem_of_In, He. }
    induction Hrev as [|e l He _ IH]; [reflexivity|]. cbn. rewrite He. exact IH. }
  rewrite E. reflexivity.
Qed.

End Pros.

(** X17. After a Regional with 32 players,
    [getProIdxsFromLastRegional32] returns exactly the participants of that
    Regional; it still does after a decay, and after any later records
    that are not Regionals of 32, whatever happened to the balances. *)
Theorem pros_are_last_full_regional (rand : nat -> Q) (st : Sim) (s : nat) :
  (32 <= length (players st))%nat ->
  let idxs := topByChips (players st) 32 in
  exists st',
    runRegional rand st s = Some (st', (s + 96)%nat) /\
    (forall s', getProIdxsFromLastRegional32 st' s' = Some (idxs, s')) /\
    (forall s', getProIdxsFromLastRegional32 (decayAll st') s' = Some (idxs, s')) /\
    (forall (later : list Event) (players' : list Player) (stage' : string) (s' : nat),
        Forall (fun e => is_regional32 e = false) later ->
        getProIdxsFromLastRegional32
          (mkSim (params st') players' stage' (history st' ++ later)) s'
        = Some (idxs, s')).
Proof.
  intros Hpop idxs.
  destruct (runRegional_run rand st s) as (next & rows & res & Hrun & _).
  destruct (topByChips_valid (players st) 32) as (Hlen & _). fold idxs in Hrun, Hlen.
  rewrite Nat.min_l in Hlen by exact Hpop. rewrite Hlen in Hrun.
  eexists. split; [exact Hrun|].
  split; [|split].
  - intros s'. apply (getPro_found _ s' (history st) [] idxs rows res);
      [reflexivity | exact Hlen | constructor].
  - intros s'. eapply (getPro_found _ s' (history st) [_] idxs rows res).
    + cbn [decayAll history]. rewrite <- app_assoc. reflexivity.
    + exact Hlen.
    + repeat constructor.
  - intros later players' stage' s' Hlater.
    apply (getPro_found _ s' (history st) later idxs rows res).
    + cbn [history]. rewrite <- app_assoc. reflexivity.
    + exact Hlen.
    + exact Hlater.
Qed.

Lemma pros_are_last_full_regional_witness :
  let st := mkSim demo_config ((fun i => mkPlayer (Z.of_nat i) 0%Q (100 # 1)%Q) <$> seq 0 40)
                  "idle" [] in
  exists st',
    runRegional demo_rand st 0 = Some (st', 96%nat) /\
    (forall s', getProIdxsFromLastRegional32 st' s'
                = Some (topByChips (players st) 32, s')).
Proof.
  intros st.
  destruct (pros_are_last_full_regional demo_rand st 0) as (st' & E & H & _).
  - vm_compute. lia.
  - exists st'. split; [exact E | exact H].
Defined.

(** X18. [runTPC] (legacy format), for any number type: it settles
    exactly the players [getProIdxsFromLastRegional32] returns (when they
    are in the roster), appends one "tpc" record with a row for each,
    sets the stage to the round's name, leaves all other players
    untouched, and every participant records the bonus [y_tpc]. *)
Theorem runTPC_settles_pros {T : Type} `{NT : Number T}
    (rand : nat -> T) (tpc : ParamsTPC) (tpcRound : Z)
    (st : Sim (T:=T)) (s : nat) (proIdxs : list nat) :
  getProIdxsFromLastRegional32 st s = Some (proIdxs, s) ->
  Forall (fun pi => (pi < length (players st))%nat) proIdxs ->
  exists st' rows res,
    runTPC rand tpc tpcRound st s = Some (st', (s + 3 * length proIdxs)%nat) /\
    params st' = params st /\
    stage st' = label "tpc" tpcRound /\
    history st' = history st ++ [EvTier "tpc" proIdxs rows res] /\
    length rows = length proIdxs /\
    length (players st') = length (players st) /\
    (forall i, i ∉ proIdxs -> players st' !! i = players st !! i) /\
    fixedY res = replicate (length proIdxs) (y_tpc tpc).
Proof.
  intros Hpro Hvalid.
  destruct (roster_event rand proIdxs (players st) (z_tpc tpc) (y_tpc tpc)
                         (weightsTPC (length proIdxs)) false s Hvalid)
    as (res & next & rows & Hrun & Hspec & Hnl & Hother & Hrows & Hrl).
  exists (mkSim (params st) next (label "tpc" tpcRound)
                (history st ++ [EvTier "tpc" proIdxs rows res])), rows, res.
  split.
  { unfold runTPC. unfold bind at 1. rewrite Hpro.
    unfold bind at 1. rewrite Hrun. unfold bind at 1. rewrite Hrows. reflexivity. }
  split; [reflexivity|]. split; [reflexivity|]. split; [reflexivity|].
  split; [exact Hrl|]. split; [exact Hnl|]. split; [exact Hother|].
  apply (tier_spec_all_paid _ _ _ _ _ _ _ Hspec).
Qed.

Lemma runTPC_settles_pros_witness :
  let st := demo_after_regional32 in
  let proIdxs := demo_regional32_record.1.1 in
  let tpc := mkParamsTPC (5 # 1) (80 # 1)%Q in
  exists st' rows res,
    runTPC demo_rand tpc 1 st 96 = Some (st', (96 + 3 * length proIdxs)%nat) /\
    params st' = params st /\
    stage st' = label "tpc" 1 /\
    history st' = history st ++ [EvTier "tpc" proIdxs rows res] /\
    length rows = length proIdxs /\
    length (players st') = length (players st) /\
    (forall i, i ∉ proIdxs -> players st' !! i = players st !! i) /\
    fixedY res = replicate (length proIdxs) (y_tpc tpc).
Proof.
  intros st proIdxs tpc. apply (runTPC_settles_pros demo_rand tpc 1 st 96 proIdxs).
  - vm_compute. reflexivity.
  - apply Forall_forall. intros pi Hpi. apply list_elem_of_In in Hpi.
    revert pi Hpi. apply List.Forall_forall. vm_compute.
    repeat (constructor; [lia|]). constructor.
Defined.

(* ====================================================================== *)
(** ** The S15 Regional of 48 *)

Section NonPros.
Context {T : Type} `{NT : Number T}.

Lemma nonPros_spec (n : nat) (proIdxs : list nat) (i : nat) :
  i ∈ nonPros n proIdxs <-> (i < n)%nat /\ i ∉ proIdxs.
Proof.
  unfold nonPros. rewrite list_elem_of_In, filter_In, in_seq, negb_true_iff.
  rewrite bool_decide_eq_false. split; intros [H1 H2]; (split; [lia | exact H2]).
Qed.

Lemma nonPros_sorted (n : nat) (proIdxs : list nat) :
  StronglySorted lt (nonPros n proIdxs).
Proof.
  unfold nonPros. generalize 0%nat. induction n as [|n IH]; intros m; cbn [seq List.filter].
  - constructor.
  - destruct (negb (bool_decide (m ∈ proIdxs))); [|apply IH].
    constructor; [apply IH|]. apply Forall_forall. intros j Hj.
    apply list_elem_of_In, filter_In in Hj as [Hj _]. apply in_seq in Hj. lia.
Qed.

Lemma nonPros_length (n : nat) (proIdxs : list nat) :
  NoDup proIdxs -> Forall (fun i => (i < n)%nat) proIdxs ->
  length (nonPros n proIdxs) = (n - length proIdxs)%nat.
Proof.
  intros Hnd Hvalid.
  assert (Hsplit : forall (P : nat -> bool) (l : list nat),
             length l = (length (List.filter P l)
                          + length (List.filter (fun i => negb (P i)) l))%nat).
  { intros P l. induction l as [|x l IH]; [reflexivity|]. cbn.
    destruct (P x); cbn; lia. }
  pose proof (Hsplit (fun i => bool_decide (i ∈ proIdxs)) (seq 0 n)) as E.
  rewrite length_seq in E. fold (nonPros n proIdxs) in E.
  assert (Hperm : Permutation (List.filter (fun i => bool_decide (i ∈ proIdxs)) (seq 0 n))
                              proIdxs).
  { apply NoDup_Permutation.
    - apply NoDup_ListNoDup, List.NoDup_filter, List.seq_NoDup.
    - exact Hnd.
    - intros i. rewrite list_elem_of_In, filter_In, in_seq, bool_decide_eq_true.
      split; [intros [_ H]; exact H|]. intros H. split; [|exact H].
      rewrite Forall_forall in Hvalid. specialize (Hvalid i H). lia. }
  rewrite (Permutation_length Hperm) in E. lia.
Qed.

Lemma mapE_with_chips (players : list (Player (T:=T))) (l : list nat) (s : nat) :
  Forall (fun i => (i < length players)%nat) l ->
  mapE (fun i => let* p := defined (players !! i) in ret (i, chips p)) l s
  = Some ((fun i => (i, balance players i)) <$> l, s).
Proof.
  induction 1 as [|i l Hi _ IH]; [reflexivity|].
  cbn [mapE]. unfold bind at 1. unfold bind at 1.
  destruct (lookup_lt_is_Some_2 players i Hi) as [p Hp].
  rewrite Hp. cbn [defined ret]. unfold bind at 1. rewrite IH.
  cbn [fmap list_fmap]. unfold balance at 2. rewrite Hp. reflexivity.
Qed.

Lemma nonProTop16_eq (players : list (Player (T:=T))) (proIdxs : list nat) (s : nat) :
  nonProTop16 players proIdxs s
  = Some ((take 16 (js_sort (fun a b => (b.2 -! a.2) <! of_int 0)
                            ((fun i => (i, balance players i))
                               <$> nonPros (length players) proIdxs))).*1, s).
Proof.
  unfold nonProTop16. rewrite imap_const_index. fold (nonPros (length players) proIdxs).
  unfold bind at 1. rewrite mapE_with_chips; [reflexivity|].
  apply Forall_forall. intros i Hi. apply nonPros_spec in Hi. apply Hi.
Qed.

End NonPros.

Section NonProsQ.
Local Open Scope Q_scope.

Lemma nonProTop16_spec (players : list (Player (T:=Q))) (proIdxs : list nat) (s : nat) :
  exists top16,
    nonProTop16 players proIdxs s = Some (top16, s) /\
    length top16 = Nat.min 16 (length (nonPros (length players) proIdxs)) /\
    NoDup top16 /\
    (forall i, i ∈ top16 -> (i < length players)%nat /\ i ∉ proIdxs) /\
    (forall i i' p p',
        i ∈ top16 -> i' ∉ proIdxs -> i' ∉ top16 ->
        players !! i = Some p -> players !! i' = Some p' ->
        chips p' < chips p \/ (chips p == chips p' /\ (i < i')%nat)).
Proof.
  set (n := length players).
  set (L0 := (fun i => (i, balance players i)) <$> nonPros n proIdxs).
  set (L := js_sort (desc_before snd) L0).
  exists (take 16 L).*1. split; [apply nonProTop16_eq|].
  assert (Hsorted : StronglySorted (slot_lt snd fst) L).
  { apply js_sort_sorted. unfold L0.
    pose proof (nonPros_sorted n proIdxs) as Hs.
    induction Hs as [|i l _ IH Hall]; cbn [fmap list_fmap]; constructor; [exact IH|].
    apply Forall_fmap. eapply Forall_impl; [exact Hall|]. cbn. intros j Hj. exact Hj. }
  assert (Hperm : Permutation L.*1 (nonPros n proIdxs)).
  { unfold L. rewrite js_sort_perm. unfold L0. rewrite <- list_fmap_compose.
    generalize (nonPros n proIdxs). intros l.
    induction l as [|i l IH]; [reflexivity|]. cbn. constructor. exact IH. }
  assert (Hmem : forall k i v, L !! k = Some (i, v) -> v = balance players i).
  { intros k i v Hk. apply list_elem_of_lookup_2 in Hk.
    unfold L in Hk. rewrite (js_sort_perm (desc_before snd)) in Hk.
    unfold L0 in Hk. apply list_elem_of_fmap in Hk as (j & Hj & _).
    inversion Hj; subst. reflexivity. }
  assert (HndL : NoDup L.*1).
  { rewrite Hperm. apply NoDup_ListNoDup.
    apply List.NoDup_filter, List.seq_NoDup. }
  split.
  { rewrite length_fmap, length_take, <- (length_fmap fst L), (Permutation_length Hperm).
    reflexivity. }
  split.
  { rewrite fmap_take. apply (sublist_NoDup _ L.*1); [exact HndL | apply sublist_take]. }
  split.
  { intros i Hi. rewrite fmap_take in Hi. apply elem_of_take in Hi as (k & Hk & _).
    apply list_elem_of_lookup_2 in Hk. rewrite Hperm in Hk.
    apply nonPros_spec in Hk. exact Hk. }
  intros i i' p p' Hin Hpro' Hout Hp Hp'.
  rewrite fmap_take in Hin, Hout.
  apply list_elem_of_lookup in Hin as [a Ha].
  pose proof (lookup_lt_Some _ _ _ Ha) as Halt. rewrite length_take in Halt.
  rewrite lookup_take_lt in Ha by lia.
  assert (Hin' : i' ∈ L.*1).
  { rewrite Hperm. apply nonPros_spec. split; [|exact Hpro'].
    apply lookup_lt_Some in Hp'. exact Hp'. }
  apply list_elem_of_lookup in Hin' as [b Hb].
  assert (Hbge : (16 <= b)%nat).
  { destruct (Nat.le_gt_cases 16 b) as [|Hlt]; [assumption|].
    exfalso. apply Hout. apply list_elem_of_lookup. exists b.
    rewrite lookup_take_lt by exact Hlt. exact Hb. }
  rewrite list_lookup_fmap in Ha, Hb.
  destruct (L !! a) as [[i0 v]|] eqn:Ea; cbn in Ha; inversion Ha; subst i0.
  destruct (L !! b) as [[i0 v']|] eqn:Eb; cbn in Hb; inversion Hb; subst i0.
  pose proof (Hmem _ _ _ Ea) as Hv. pose proof (Hmem _ _ _ Eb) as Hv'.
  unfold balance in Hv, Hv'. rewrite Hp in Hv. rewrite Hp' in Hv'. cbn in Hv, Hv'. subst v v'.
  apply (StronglySorted_lookup (slot_lt snd fst) L a b (i, chips p) (i', chips p')
                               Hsorted Ea Eb).
  lia.
Qed.

End NonProsQ.

Section Regional48.
Context {T : Type} `{NT : Number T}.

Lemma regional48_run (rand : nat -> T) (z y : T) (st : Sim) (s : nat)
    (proIdxs top16 : list nat) :
  getProIdxsFromLastRegional32 st s = Some (proIdxs, s) ->
  nonProTop16 (players st) proIdxs s = Some (top16, s) ->
  Forall (fun pi => (pi < length (players st))%nat) (proIdxs ++ top16) ->
  let idxs := proIdxs ++ top16 in
  exists res next rows,
    regional48 rand z y st s
    = Some (mkSim (params st) next "s15_regional"
                  (history st ++ [EvTier "s15_regional" idxs rows res]),
            (s + 3 * length idxs)%nat) /\
    tier_spec (fixed_topK (length idxs) y false None) idxs (players st) z
              (weightsReg48 (length idxs)) res next /\
    length next = length (players st) /\
    (forall i, i ∉ idxs -> next !! i = players st !! i) /\
    rosterRows idxs res next (s + 3 * length idxs)%nat
    = Some (rows, (s + 3 * length idxs)%nat) /\
    length rows = length idxs.
Proof.
  intros Hpro Htop Hvalid idxs.
  destruct (roster_event rand idxs (players st) z y (weightsReg48 (length idxs)) false s Hvalid)
    as (res & next & rows & Hrun & Hspec & Hnl & Hother & Hrows & Hrl).
  exists res, next, rows. split.
  { unfold regional48. unfold bind at 1. rewrite Hpro.
    unfold bind at 1. rewrite Htop. fold idxs.
    unfold bind at 1. rewrite Hrun. unfold bind at 1. rewrite Hrows. reflexivity. }
  split; [exact Hspec|]. split; [exact Hnl|]. split; [exact Hother|].
  split; [exact Hrows | exact Hrl].
Qed.

End Regional48.

(** X19. [runS15Regional48] (legacy format) plays the pros followed by
    the richest players outside them, at most sixteen: the added players
    are pairwise different, none is a pro, each is richer than (or as rich
    as, with a smaller index than) every player left out, the rest of the
    roster is untouched and every participant records the bonus [y_reg].
    When the pros are pairwise different the whole field is, and the
    number added is [min(16, roster - pros)]. *)
Theorem runS15Regional48_field (rand : nat -> Q) (st : Sim) (s : nat) (proIdxs : list nat) :
  getProIdxsFromLastRegional32 st s = Some (proIdxs, s) ->
  Forall (fun pi => (pi < length (players st))%nat) proIdxs ->
  exists st' top16 rows res,
    nonProTop16 (players st) proIdxs s = Some (top16, s) /\
    runS15Regional48 rand st s
    = Some (st', (s + 3 * (length proIdxs + length top16))%nat) /\
    params st' = params st /\
    stage st' = "s15_regional"%string /\
    history st' = history st ++ [EvTier "s15_regional" (proIdxs ++ top16) rows res] /\
    length top16 = Nat.min 16 (length (nonPros (length (players st)) proIdxs)) /\
    NoDup top16 /\
    (forall i, i ∈ top16 -> (i < length (players st))%nat /\ i ∉ proIdxs) /\
    (forall i i' p p',
        i ∈ top16 -> i' ∉ proIdxs ++ top16 ->
        players st !! i = Some p -> players st !! i' = Some p' ->
        (chips p' < chips p \/ (chips p == chips p' /\ (i < i')%nat))%Q) /\
    length rows = (length proIdxs + length top16)%nat /\
    length (players st') = length (players st) /\
    (forall i, i ∉ proIdxs ++ top16 -> players st' !! i = players st !! i) /\
    fixedY res = replicate (length proIdxs + length top16) (y_reg (params st)) /\
    (NoDup proIdxs ->
       NoDup (proIdxs ++ top16) /\
       length top16 = Nat.min 16 (length (players st) - length proIdxs)).
Proof.
  intros Hpro Hvalid.
  destruct (nonProTop16_spec (players st) proIdxs s)
    as (top16 & Htop & Hlen16 & Hnd16 & Hin16 & Hbest).
  set (idxs := proIdxs ++ top16).
  assert (Hvalid' : Forall (fun pi => (pi < length (players st))%nat) idxs).
  { apply Forall_app. split; [exact Hvalid|].
    apply Forall_forall. intros i Hi. apply (Hin16 i Hi). }
  destruct (regional48_run rand (z_reg (params st)) (y_reg (params st)) st s proIdxs top16
                           Hpro Htop Hvalid')
    as (res & next & rows & Hrun & Hspec & Hnl & Hother & _ & Hrl).
  fold idxs in Hrun, Hspec, Hother, Hrl.
  assert (Hil : length idxs = (length proIdxs + length top16)%nat).
  { unfold idxs. apply length_app. }
  eexists _, top16, rows, res.
  split; [exact Htop|].
  split.
  { unfold runS15Regional48. rewrite Hrun, Hil. reflexivity. }
  split; [reflexivity|]. split; [reflexivity|]. split; [reflexivity|].
  split; [exact Hlen16|]. split; [exact Hnd16|]. split; [exact Hin16|].
  split.
  { intros i i' p p' Hi Hi' Hp Hp'. apply (Hbest i i' p p' Hi); [| |exact Hp|exact Hp'].
    - intros H. apply Hi'. apply elem_of_app. left. exact H.
    - intros H. apply Hi'. apply elem_of_app. right. exact H. }
  split; [rewrite Hrl; exact Hil|].
  split; [exact Hnl|]. split; [exact Hother|].
  split; [rewrite (tier_spec_all_paid _ _ _ _ _ _ _ Hspec), Hil; reflexivity|].
  intros Hnd. split.
  - apply NoDup_app. split; [exact Hnd|]. split; [|exact Hnd16].
    intros i Hi Hi'. apply (Hin16 i Hi'). exact Hi.
  - rewrite Hlen16, (nonPros_length _ _ Hnd Hvalid). reflexivity.
Qed.

Lemma runS15Regional48_field_witness :
  let st := demo_after_regional32 in
  let proIdxs := demo_regional32_record.1.1 in
  exists st' top16 rows res,
    runS15Regional48 demo_rand st 96
    = Some (st', (96 + 3 * (length proIdxs + length top16))%nat) /\
    history st' = history st ++ [EvTier "s15_regional" (proIdxs ++ top16) rows res] /\
    length top16 = 16%nat /\
    NoDup (proIdxs ++ top16) /\
    length rows = 48%nat /\
    fixedY res = replicate 48 (y_reg (params st)).
Proof.
  intros st proIdxs.
  destruct (runS15Regional48_field demo_rand st 96 proIdxs)
    as (st' & top16 & rows & res & _ & Hrun & _ & _ & Hh & Hl16 & _ & _ & _ & Hrl & _ & _
        & HY & Hnd).
  - vm_compute. reflexivity.
  - apply Forall_forall. intros pi Hpi. apply list_elem_of_In in Hpi.
    revert pi Hpi. apply List.Forall_forall. vm_compute.
    repeat (constructor; [lia|]). constructor.
  - assert (E16 : length top16 = 16%nat) by (rewrite Hl16; vm_compute; reflexivity).
    destruct Hnd as (Hnd & _).
    { apply (bool_decide_unpack (NoDup _)). vm_compute. exact I. }
    exists st', top16, rows, res.
    split; [exact Hrun|]. split; [exact Hh|]. split; [exact E16|]. split; [exact Hnd|].
    rewrite E16 in Hrl, HY. split; [exact Hrl | exact HY].
Defined.

(* ====================================================================== *)
(** ** The panels and the reset *)

(** X21. [PlayersPanel] shows a rearrangement of the roster, and when
    every player's [id] is the roster index, the first [k] players it
    shows are the players [topByChips(k)] selects, in the same order. *)
Theorem PlayersPanel_highlights_top {T : Type} `{NT : Number T}
    (players : list (Player (T:=T))) (k : nat) :
  (forall i p, players !! i = Some p -> id p = Z.of_nat i) ->
  Permutation (PlayersPanel_sorted players) players /\
  id <$> take k (PlayersPanel_sorted players) = Z.of_nat <$> topByChips players k.
Proof.
  intros Hid. split; [apply js_sort_perm|].
  unfold topByChips, PlayersPanel_sorted.
  set (G := fun p : Player (T:=T) => (Z.to_nat (id p), chips p)).
  assert (E : imap (fun i (p : Player (T:=T)) => (i, chips p)) players = G <$> players).
  { apply list_eq. intros i. rewrite list_lookup_imap, list_lookup_fmap.
    destruct (players !! i) as [p|] eqn:Ep; [|reflexivity]. cbn. unfold G.
    rewrite (Hid i p Ep), Nat2Z.id. reflexivity. }
  rewrite E.
  rewrite (js_sort_map G (fun a b : Player (T:=T) => (chips b -! chips a) <! of_int 0)
                       (fun a b : nat * T => (b.2 -! a.2) <! of_int 0))
    by (intros; reflexivity).
  rewrite <- fmap_take, <- !list_fmap_compose.
  apply list_fmap_ext. intros j p Hj. cbn.
  apply lookup_take_Some in Hj as [Hj _]. apply list_elem_of_lookup_2 in Hj.
  rewrite (js_sort_perm _ players) in Hj.
  apply list_elem_of_lookup in Hj as [i Hi]. rewrite (Hid i p Hi), Nat2Z.id. reflexivity.
Qed.

Lemma PlayersPanel_highlights_top_witness :
  id <$> take 2 (PlayersPanel_sorted demo_roster) = Z.of_nat <$> topByChips demo_roster 2.
Proof.
  apply (PlayersPanel_highlights_top demo_roster 2).
  intros i p Hi.
  destruct i as [|[|[|[|i]]]]; cbn in Hi; inversion Hi; subst; reflexivity.
Defined.

Section Matrix.
Context {T : Type} `{NT : Number T}.

Lemma findIndex_absent {A} (P : A -> Prop) `{forall x, Decision (P x)} (l : list A) :
  Forall (fun x => ~ P x) l -> findIndex P l = None.
Proof.
  intros Hall. unfold findIndex.
  destruct (list_find P l) as [[i x]|] eqn:E; [|reflexivity].
  apply list_find_Some in E as (Hi & HP & _).
  rewrite Forall_forall in Hall. exfalso. apply (Hall x); [|exact HP].
  eapply list_elem_of_lookup_2. exact Hi.
Qed.

Lemma findIndex_NoDup (idxs : list nat) (j pid : nat) :
  NoDup idxs -> idxs !! j = Some pid -> findIndex (fun i => i = pid) idxs = Some j.
Proof.
  intros Hnd Hj. apply (findIndex_unique (fun i => i = pid) idxs j pid Hj eq_refl).
  intros j' y Hj' ->. apply (NoDup_lookup idxs j' j pid Hnd Hj' Hj).
Qed.

End Matrix.

(** X22. The cell [ChangesMatrix] shows for a player in the column of a
    Regional is the change of that player's balance: for a participant it
    is the delta that was added to the balance, and for everyone else the
    cell is empty and the balance did not change. *)
Theorem ChangesMatrix_shows_balance_change (rand : nat -> Q) (st : Sim) (s : nat) :
  exists st' s' ev,
    runRegional rand st s = Some (st', s') /\
    history st' = history st ++ [ev] /\
    forall pid p, players st !! pid = Some p ->
      match ChangesMatrix_delta pid ev with
      | Some d => (pid ∈ topByChips (players st) 32) /\
                  players st' !! pid = Some (mkPlayer (id p) (skill p) (chips p + d)%Q)
      | None => (pid ∉ topByChips (players st) 32) /\ players st' !! pid = Some p
      end.
Proof.
  destruct (runRegional_run rand st s) as (next & rows & res & Hrun & Hspec & Hnl & Hother & _).
  destruct (topByChips_valid (players st) 32) as (_ & Hnd & Hvalid).
  set (idxs := topByChips (players st) 32) in *.
  eexists _, _, _. split; [exact Hrun|]. split; [reflexivity|].
  intros pid p Hp. cbn [players].
  unfold ChangesMatrix_delta. cbn [ev_type String.eqb Ascii.eqb Bool.eqb].
  change (String.eqb "regional" "worlds") with false. cbn iota.
  destruct (decide (pid ∈ idxs)) as [Hin|Hout].
  - apply list_elem_of_lookup in Hin as [j Hj].
    rewrite (findIndex_NoDup idxs j pid Hnd Hj). cbn.
    destruct (tier_spec_slot _ _ _ _ _ _ _ j pid Hspec Hj)
      as (p' & r & Hp' & _ & _ & _ & _ & _ & _ & Hdel).
    rewrite Hdel. split; [eapply list_elem_of_lookup_2; exact Hj|].
    assert (Hpl : next = apply_deltas idxs (deltas res) (players st)).
    { destruct Hspec as [? ? _ _ _ _ _ _ _ _ _ _ Hpl]. exact Hpl. }
    destruct (apply_deltas_lookup idxs (deltas res) (players st) Hnd) as (_ & Hlk).
    destruct (Hlk pid) as (Hin' & _).
    rewrite Hpl, (Hin' j Hj), Hp. cbn. unfold get. rewrite Hdel. cbn.
    rewrite Hp in Hp'. inversion Hp'; subst p'. reflexivity.
  - rewrite findIndex_absent.
    + cbn. split; [exact Hout|]. rewrite (Hother pid Hout). exact Hp.
    + apply Forall_forall. intros i Hi ->. exact (Hout Hi).
Qed.

Section SortTies.
Context {A : Type} (before : A -> A -> bool).

(** A stable sort leaves an array alone when the comparator calls no element
    smaller than an earlier one. *)
Lemma js_sort_fixed (l : list A) :
  (forall a b, a ∈ l -> b ∈ l -> before a b = false) -> js_sort before l = l.
Proof.
  induction l as [|x l IH]; intros H; [reflexivity|].
  cbn [js_sort foldr]. change (foldr (sort_insert before) [] l) with (js_sort before l).
  rewrite IH by (intros a b Ha Hb; apply H; now apply list_elem_of_further).
  destruct l as [|y l]; [reflexivity|]. cbn [sort_insert].
  rewrite (H y x); [reflexivity| |apply list_elem_of_here].
  apply list_elem_of_further, list_elem_of_here.
Qed.

End SortTies.

Section Ties.
Local Open Scope Q_scope.

Lemma total_chips_const (l : list (Player (T:=Q))) (c : Q) :
  Forall (fun p => chips p == c) l ->
  total_chips l == inject_Z (Z.of_nat (length l)) * c.
Proof.
  unfold total_chips. induction 1 as [|p l Hp _ IH].
  - cbn [fmap list_fmap length]. rewrite sum_nil. change (inject_Z (Z.of_nat 0)) with 0. ring.
  - rewrite fmap_cons, sum_cons, IH, Hp. cbn [length].
    rewrite Nat2Z.inj_succ. unfold Z.succ. rewrite inject_Z_plus.
    change (inject_Z 1) with 1. ring.
Qed.

(** With all balances equal the stable sort keeps the roster order. *)
Lemma topByChips_ties (l : list (Player (T:=Q))) (c : Q) (k : nat) :
  Forall (fun p => chips p == c) l ->
  topByChips l k = seq 0 (Nat.min k (length l)).
Proof.
  intros Hall. unfold topByChips. rewrite js_sort_fixed.
  - rewrite fmap_take.
    change (imap (fun i (p : Player) => (i, chips p)) l)
      with (imap (fun i (p : Player) => ((0 + i)%nat, chips p)) l).
    assert (E : forall n, (imap (fun i (p : Player (T:=Q)) => ((n + i)%nat, chips p)) l).*1
                          = seq n (length l)).
    { clear. induction l as [|p l IH]; intros n; cbn; [reflexivity|].
      rewrite Nat.add_0_r. f_equal. rewrite <- IH. f_equal.
      apply imap_ext. intros i y _. cbn. f_equal. lia. }
    rewrite E, take_seq. reflexivity.
  - intros [i a] [j b] Ha Hb. cbn [fst snd].
    assert (Hc : forall i a, (i, a) ∈ imap (fun i (p : Player) => (i, chips p)) l -> a == c).
    { intros i0 a0 Hin. apply list_elem_of_lookup in Hin as [n Hn].
      rewrite list_lookup_imap in Hn.
      destruct (l !! n) as [p|] eqn:En; cbn in Hn; inversion Hn; subst.
      rewrite Forall_forall in Hall. apply Hall. eapply list_elem_of_lookup_2. exact En. }
    apply nlt_Q_false. change (0 <= b - a). rewrite (Hc _ _ Ha), (Hc _ _ Hb). lra.
Qed.

End Ties.

(** X23. [reset] always succeeds: it keeps [params], empties the history,
    sets the stage to "idle" and draws 256 new players with [id = i] and
    balance [x0], so that the roster total is [256 * x0].  On that roster
    [topByChips(k)] is the first [min(k, 256)] indexes, and Worlds, with
    no Regional behind it, leaves the state alone. *)
Theorem reset_starts_over (rand : nat -> Q) (st : Sim) (s : nat) :
  exists st',
    reset rand st s = Some (st', (s + 3 * 256)%nat) /\
    params st' = params st /\ stage st' = "idle"%string /\ history st' = [] /\
    length (players st') = 256%nat /\
    (forall i, (i < 256)%nat ->
       players st' !! i
       = Some (mkPlayer (Z.of_nat i) (noise_at rand (s + 3 * i)) (x0 (params st)))) /\
    (total_chips (players st') == 256 * x0 (params st))%Q /\
    (forall k, topByChips (players st') k = seq 0 (Nat.min k 256)) /\
    (forall s', runWorlds rand st' s' = Some (st', s')).
Proof.
  unfold reset, bind. cbn [population FIXED_SIZES].
  unfold createPlayers. rewrite (createPlayers_gen rand (x0 (params st)) 256 0 s).
  set (roster := (fun i => mkPlayer (Z.of_nat (0 + i)) (noise_at rand (s + 3 * i))
                                    (x0 (params st))) <$> seq 0 256).
  assert (Hlen : length roster = 256%nat).
  { unfold roster. rewrite length_fmap, length_seq. reflexivity. }
  assert (Hall : Forall (fun p => chips p == x0 (params st))%Q roster).
  { unfold roster. apply Forall_fmap, Forall_forall. intros i _. cbn. reflexivity. }
  eexists. split; [reflexivity|]. cbn [params stage history players].
  split; [reflexivity|]. split; [reflexivity|]. split; [reflexivity|].
  split; [exact Hlen|].
  split.
  { intros i Hi. unfold roster. rewrite list_lookup_fmap, lookup_seq_lt by exact Hi.
    reflexivity. }
  split.
  { rewrite (total_chips_const roster _ Hall), Hlen. reflexivity. }
  split.
  { intros k. rewrite (topByChips_ties roster _ k Hall), Hlen. reflexivity. }
  intros s'. reflexivity.
Qed.

(* ====================================================================== *)
(** ** The table of an event *)

Section Tables.
Context {T : Type} `{NT : Number T}.

Lemma rosterRows_eq (idxs : list nat) (res : TierResult) (next : list (Player (T:=T)))
    (s : nat) :
  Forall (fun pi => (pi < length next)%nat) idxs ->
  rosterRows idxs res next s
  = Some (js_sort rank_before (imap (row_of res next) idxs), s).
Proof.
  intros Hvalid. unfold rosterRows. unfold bind at 1.
  assert (E : forall off l, Forall (fun pi => (pi < length next)%nat) l ->
     mapE (fun jp : nat * nat =>
             let* p := defined (next !! jp.2) in
             ret (mkRow (label "P" (Z.of_nat jp.2 + 1)) (Z.of_nat jp.2)
                        (mjoin (ranks res !! jp.1))
                        (get (fees res) jp.1) (get (fixedY res) jp.1)
                        (get (sharePool res) jp.1) (get (payouts res) jp.1)
                        (get (deltas res) jp.1) (Some (chips p))))
          (imap (fun j pi => ((off + j)%nat, pi)) l) s
     = Some (imap (fun j pi => row_of res next (off + j) pi) l, s)).
  { intros off l Hl. revert off. induction Hl as [|pi l Hpi _ IH]; intros off; [reflexivity|].
    cbn [imap mapE]. unfold bind at 1. unfold bind at 1.
    destruct (lookup_lt_is_Some_2 next pi Hpi) as [p Hp].
    cbn [snd fst]. rewrite Hp. cbn [defined ret]. unfold bind at 1.
    erewrite (imap_ext _ (fun j pi => ((S off + j)%nat, pi))); last first.
    { intros i y _. cbn. f_equal. lia. }
    rewrite IH. unfold ret. do 2 f_equal.
    change (imap (fun j pi0 => row_of res next (off + j) pi0) (pi :: l))
      with (row_of res next (off + 0) pi
            :: imap (fun j pi0 => row_of res next (off + S j) pi0) l).
    f_equal.
    - unfold row_of. rewrite Hp. reflexivity.
    - apply imap_ext. intros i y _. unfold compose. cbn [Nat.add].
      replace (off + S i)%nat with (S (off + i)) by lia. reflexivity. }
  specialize (E 0%nat idxs Hvalid). cbn [Nat.add] in E.
  change (imap (fun j pi => ((0 + j)%nat, pi)) idxs) with (imap (fun j pi => (j, pi)) idxs) in E.
  rewrite E. reflexivity.
Qed.

End Tables.

Section SortByKey.
Context {A : Type} (key : A -> nat) (before : A -> A -> bool).

Lemma sort_insert_by_key (x : A) (l : list A) :
  (forall y, y ∈ l -> before y x = (key y <? key x)%nat) ->
  StronglySorted (fun a b => (key a <= key b)%nat) l ->
  StronglySorted (fun a b => (key a <= key b)%nat) (sort_insert before x l).
Proof.
  intros Hb Hs. induction Hs as [|y l Hs IH Hy]; cbn [sort_insert].
  - repeat constructor.
  - rewrite (Hb y) by apply list_elem_of_here.
    destruct (key y <? key x)%nat eqn:E.
    + apply Nat.ltb_lt in E. constructor.
      * apply IH. intros y' Hy'. apply Hb. now apply list_elem_of_further.
      * rewrite (sort_insert_perm before x l). constructor; [lia | exact Hy].
    + apply Nat.ltb_ge in E. constructor; [constructor; assumption|].
      constructor; [exact E|].
      eapply Forall_impl; [exact Hy|]. cbn. intros z Hz. lia.
Qed.

Lemma js_sort_by_key (l : list A) :
  (forall a b, a ∈ l -> b ∈ l -> before a b = (key a <? key b)%nat) ->
  StronglySorted (fun a b => (key a <= key b)%nat) (js_sort before l).
Proof.
  induction l as [|x l IH]; intros Hb; [constructor|].
  cbn [js_sort foldr]. change (foldr (sort_insert before) [] l) with (js_sort before l).
  apply sort_insert_by_key.
  - intros y Hy. rewrite (js_sort_perm before l) in Hy.
    apply Hb; [now apply list_elem_of_further | apply list_elem_of_here].
  - apply IH. intros a b Ha Hb'. apply Hb; now apply list_elem_of_further.
Qed.

End SortByKey.

Lemma StronglySorted_of_lookup {A} (R : A -> A -> Prop) (l : list A) :
  (forall i j a b, (i < j)%nat -> l !! i = Some a -> l !! j = Some b -> R a b) ->
  StronglySorted R l.
Proof.
  induction l as [|x l IH]; intros H; constructor.
  - apply IH. intros i j a b Hij Ha Hb. apply (H (S i) (S j) a b); [lia | exact Ha | exact Hb].
  - apply Forall_forall. intros y Hy. apply list_elem_of_lookup in Hy as [j Hj].
    apply (H 0%nat (S j) x y); [lia | reflexivity | exact Hj].
Qed.

Section TableOrder.
Context {T : Type} `{NT : Number T}.

(** The table of an event, sorted by rank, lists the slots in the order
    [rankBy] returned. *)
Lemma sorted_rows (perf : list T) (idxs : list nat) (res : TierResult)
    (next : list (Player (T:=T))) :
  ranks res = (rankBy perf).2 -> order res = (rankBy perf).1 ->
  length perf = length idxs ->
  js_sort rank_before (imap (row_of res next) idxs)
  = (fun j => row_of res next j (default 0%nat (idxs !! j))) <$> order res.
Proof.
  intros Hr Ho Hl.
  set (N := length idxs).
  set (F := fun j => row_of res next j (default 0%nat (idxs !! j))).
  set (key := fun r : Row (T:=T) => default 0%nat (row_rank r)).
  assert (Hrows0 : imap (row_of res next) idxs = F <$> seq 0 N).
  { apply list_eq. intros j. rewrite list_lookup_imap, list_lookup_fmap.
    destruct (idxs !! j) as [pi|] eqn:Ej.
    - rewrite lookup_seq_lt by (apply lookup_lt_Some in Ej; exact Ej).
      cbn. unfold F. rewrite Ej. reflexivity.
    - rewrite lookup_seq_ge by (apply lookup_ge_None in Ej; exact Ej). reflexivity. }
  assert (Hrank : forall j, (j < N)%nat ->
             exists k, order res !! k = Some j /\ row_rank (F j) = Some (S k)).
  { intros j Hj. destruct (rankBy_ranks_Some perf j) as (k & Hk & Hk'); [lia|].
    exists k. rewrite Ho. split; [exact Hk|].
    unfold F, row_of. cbn [row_rank]. rewrite Hr, Hk'. reflexivity. }
  assert (Horder : forall k j, order res !! k = Some j ->
             (j < N)%nat /\ row_rank (F j) = Some (S k)).
  { intros k j Hk. rewrite Ho in Hk.
    pose proof (rankBy_order_lt perf k j Hk) as Hlt.
    split; [lia|]. apply rankBy_inverse in Hk.
    unfold F, row_of. cbn [row_rank]. rewrite Hr, Hk. reflexivity. }
  assert (Hin0 : forall x, x ∈ imap (row_of res next) idxs ->
             exists j k, x = F j /\ order res !! k = Some j /\ row_rank x = Some (S k)).
  { intros x Hx. rewrite Hrows0 in Hx. apply list_elem_of_fmap in Hx as (j & -> & Hj).
    apply list_elem_of_In, in_seq in Hj.
    destruct (Hrank j) as (k & Hk & Hk'); [lia|]. exists j, k. auto. }
  rewrite Hrows0 at 1. rewrite <- Hrows0.
  apply (StronglySorted_unique_strong (fun a b : Row (T:=T) => (key a <= key b)%nat)).
  - intros x1 x2 H1 H2 H12 H21.
    rewrite (js_sort_perm rank_before) in H1.
    destruct (Hin0 x1 H1) as (j1 & k1 & -> & Hk1 & Hr1).
    apply list_elem_of_fmap in H2 as (j2 & -> & Hj2).
    apply list_elem_of_lookup in Hj2 as [k2 Hk2].
    destruct (Horder k2 j2 Hk2) as (_ & Hr2).
    unfold key in H12, H21. rewrite Hr1, Hr2 in H12, H21. cbn in H12, H21.
    assert (k1 = k2) by lia. subst k2. rewrite Hk1 in Hk2. inversion Hk2. reflexivity.
  - apply (js_sort_by_key key). intros a b Ha Hb.
    destruct (Hin0 a Ha) as (ja & ka & -> & _ & Hra).
    destruct (Hin0 b Hb) as (jb & kb & -> & _ & Hrb).
    unfold rank_before, key. rewrite Hra, Hrb. reflexivity.
  - apply StronglySorted_of_lookup. intros i j a b Hij Ha Hb.
    rewrite list_lookup_fmap in Ha, Hb.
    destruct (order res !! i) as [ji|] eqn:Ei; cbn in Ha; inversion Ha; subst a.
    destruct (order res !! j) as [jj|] eqn:Ej; cbn in Hb; inversion Hb; subst b.
    destruct (Horder i ji Ei) as (_ & Hri). destruct (Horder j jj Ej) as (_ & Hrj).
    unfold key. rewrite Hri, Hrj. cbn. lia.
  - rewrite (js_sort_perm rank_before), Hrows0. apply fmap_Permutation.
    symmetry. rewrite Ho. unfold N. rewrite <- Hl. apply rankBy_order_perm.
Qed.

End TableOrder.

(** X24. The table recorded by [runRegional] is in rank order: row [k]
    (from 0) belongs to the participant ranked [k + 1], carries that rank,
    the participant's name and index, the fee, bonus, share, payout and
    delta of the participant's slot, and the participant's new balance. *)
Theorem runRegional_table_in_rank_order {T : Type} `{NT : Number T}
    (rand : nat -> T) (st : Sim (T:=T)) (s : nat) :
  let idxs := topByChips (players st) 32 in
  exists st' s' rows res,
    runRegional rand st s = Some (st', s') /\
    history st' = history st ++ [EvTier "regional" idxs rows res] /\
    length rows = length idxs /\
    (forall k, (k < length idxs)%nat ->
       exists j pi, order res !! k = Some j /\ idxs !! j = Some pi) /\
    (forall k j pi, order res !! k = Some j -> idxs !! j = Some pi ->
       ranks res !! j = Some (Some (S k)) /\
       rows !! k
       = Some (mkRow (label "P" (Z.of_nat pi + 1)) (Z.of_nat pi) (Some (S k))
                     (get (fees res) j) (get (fixedY res) j) (get (sharePool res) j)
                     (get (payouts res) j) (get (deltas res) j)
                     (chips <$> players st' !! pi))).
Proof.
  intros idxs.
  destruct (topByChips_valid (players st) 32) as (_ & _ & Hvalid). fold idxs in Hvalid.
  destruct (runRegional_run rand st s)
    as (next & rows & res & Hrun & Hspec & Hnl & Hother & Hrl & Hrows).
  fold idxs in Hrun, Hspec, Hother, Hrl, Hrows.
  rewrite rosterRows_eq in Hrows by (rewrite Hnl; exact Hvalid).
  inversion Hrows as [Erows]. clear Hrows.
  destruct Hspec as [ents perf Hv Hl Ho Hr _ _ _ _ _ _ _].
  rewrite (sorted_rows perf idxs res next Hr Ho Hl) in Erows.
  eexists _, _, rows, res.
  split; [exact Hrun|].
  split; [reflexivity|]. split; [exact Hrl|].
  split.
  { intros k Hk. rewrite <- Hl, <- (rankBy_order_length perf), <- Ho in Hk.
    destruct (lookup_lt_is_Some_2 _ _ Hk) as [j Hj]. exists j.
    pose proof Hj as Hj'. rewrite Ho in Hj'. apply rankBy_order_lt in Hj'.
    destruct (lookup_lt_is_Some_2 idxs j ltac:(lia)) as [pi Hpi]. exists pi. auto. }
  intros k j pi Hk Hj.
  split.
  { rewrite Hr. apply rankBy_inverse. rewrite <- Ho. exact Hk. }
  rewrite <- Erows, list_lookup_fmap, Hk. cbn. rewrite Hj. cbn. unfold row_of. do 2 f_equal.
  rewrite Hr. rewrite Ho in Hk. apply rankBy_inverse in Hk. rewrite Hk. reflexivity.
Qed.

(* ====================================================================== *)
(** ** The parameter controls *)

Lemma clamped_decay_is_recorded (st : Sim (T:=Q)) :
  (0 <= decay_pct (params st) <= 100)%Q ->
  exists factor pct,
    history (decayAll st) = history st ++ [EvDecay factor pct] /\
    (pct == decay_pct (params st))%Q /\
    (factor == 1 - decay_pct (params st) / 100)%Q.
Proof.
  intros H7. eexists _, _. split; [reflexivity|].
  pose proof (decay_pct_clamped (decay_pct (params st))) as Hc.
  rewrite (clamp_pct_id _ H7) in Hc.
  split; [exact Hc|].
  change ((of_int 1 -! ?a /! of_int 100)%js) with (1 - a / 100)%Q.
  rewrite Hc. reflexivity.
Qed.

(** X25. Every edit through one of the nine number fields of the legacy
    [Controls] keeps the parameters in their ranges (fee divisors,
    [z_tpc] included, in [2 .. 20], bonuses between 0 and their maximum,
    decay in [0 .. 100]) and does not touch the starting balance: no fee
    divisor can become 0, and [decayAll] records the decay percentage as
    it was set, without clamping it again.  The default parameters are in
    range. *)
Theorem Controls_keep_params_in_range (f : Field) (v : Q) (p : LegacyParams) :
  params_in_range p ->
  let p' := Controls_onChange f v p in
  params_in_range p' /\
  x0 (legacy_general p') = x0 (legacy_general p) /\
  (~ z_cup (legacy_general p') == 0)%Q /\
  (~ z_reg (legacy_general p') == 0)%Q /\
  (~ z_world (legacy_general p') == 0)%Q /\
  (~ z_tpc (legacy_tpc p') == 0)%Q /\
  (forall st : Sim,
      params st = legacy_general p' ->
      exists factor pct,
        history (decayAll st) = history st ++ [EvDecay factor pct] /\
        (pct == decay_pct (params st))%Q /\
        (factor == 1 - decay_pct (params st) / 100)%Q) /\
  params_in_range (DEFAULT_PARAMS (T:=Q)).
Proof.
  intros Hp p'.
  assert (Hnew : params_in_range p').
  { destruct Hp as ((H1 & H2 & H3 & H4 & H5 & H6 & H7) & H8 & H9).
    unfold p', params_in_range, general_in_range.
    destruct f;
      cbn [Controls_onChange legacy_general legacy_tpc z_cup y_cup z_reg y_reg z_world
           y_world decay_pct z_tpc y_tpc];
      repeat split; try tauto;
      try (apply clampInt_bounds; vm_compute; discriminate). }
  split; [exact Hnew|].
  split; [unfold p'; destruct f; reflexivity|].
  destruct Hnew as ((H1 & H2 & H3 & H4 & H5 & H6 & H7) & H8 & H9).
  split; [intros E; rewrite E in H1; lra|].
  split; [intros E; rewrite E in H3; lra|].
  split; [intros E; rewrite E in H5; lra|].
  split; [intros E; rewrite E in H8; lra|].
  split.
  { intros st Hst. apply clamped_decay_is_recorded. rewrite Hst. exact H7. }
  unfold params_in_range, general_in_range. vm_compute. intuition discriminate.
Qed.

Lemma Controls_keep_params_in_range_witness :
  let p' := Controls_onChange Field_z_tpc (0 # 1) (DEFAULT_PARAMS (T:=Q)) in
  params_in_range p' /\ (~ z_tpc (legacy_tpc p') == 0)%Q.
Proof.
  intros p'.
  destruct (Controls_keep_params_in_range Field_z_tpc (0 # 1) DEFAULT_PARAMS)
    as (H & _ & _ & _ & _ & Hz & _).
  - unfold params_in_range, general_in_range. vm_compute. intuition discriminate.
  - split; [exact H | exact Hz].
Defined.

(** X29. S15 format: every edit through one of the fourteen number
    fields of [Controls] keeps the parameters in their ranges (fee
    divisors in [2 .. 20], bonuses between 0 and their maximum, the Cup
    cutoff [s15_cup_y_top_k] in [1 .. 128], decay in [0 .. 100]) and does
    not touch the starting balance; no fee divisor can become 0.  The
    default parameters are in range. *)
Theorem S15_Controls_keep_params_in_range (f : S15.Field) (v : Q) (p : S15.AllParams) :
  S15_params_in_range p ->
  let p' := S15.Controls_onChange f v p in
  S15_params_in_range p' /\
  x0 (S15.general p') = x0 (S15.general p) /\
  (~ z_cup (S15.general p') == 0)%Q /\
  (~ z_reg (S15.general p') == 0)%Q /\
  (~ z_world (S15.general p') == 0)%Q /\
  (~ S15.z_s15_cup (S15.s15 p') == 0)%Q /\
  (~ S15.z_s15_reg (S15.s15 p') == 0)%Q /\
  (~ S15.z_s15_tpc (S15.s15 p') == 0)%Q /\
  S15_params_in_range (S15.DEFAULT_PARAMS (T:=Q)).
Proof.
  intros Hp p'.
  assert (Hnew : S15_params_in_range p').
  { destruct Hp as ((H1 & H2 & H3 & H4 & H5 & H6 & H7)
                    & H8 & H9 & H10 & H11 & H12 & H13 & H14).
    unfold p', S15_params_in_range, general_in_range.
    destruct f;
      cbn [S15.Controls_onChange S15.general S15.s15 z_cup y_cup z_reg y_reg z_world y_world
           decay_pct S15.z_s15_cup S15.y_s15_cup S15.s15_cup_y_top_k S15.z_s15_reg
           S15.y_s15_reg S15.z_s15_tpc S15.y_s15_tpc];
      repeat split; try tauto;
      try (apply clampInt_bounds; vm_compute; discriminate). }
  split; [exact Hnew|].
  split; [unfold p'; destruct f; reflexivity|].
  destruct Hnew as ((H1 & H2 & H3 & H4 & H5 & H6 & H7)
                    & H8 & H9 & H10 & H11 & H12 & H13 & H14).
  split; [intros E; rewrite E in H1; lra|].
  split; [intros E; rewrite E in H3; lra|].
  split; [intros E; rewrite E in H5; lra|].
  split; [intros E; rewrite E in H8; lra|].
  split; [intros E; rewrite E in H11; lra|].
  split; [intros E; rewrite E in H13; lra|].
  unfold S15_params_in_range, general_in_range. vm_compute. intuition discriminate.
Qed.

Lemma S15_Controls_keep_params_in_range_witness :
  let p' := S15.Controls_onChange S15.Field_s15_cup_y_top_k (500 # 1)
                                 (S15.DEFAULT_PARAMS (T:=Q)) in
  S15_params_in_range p' /\ (S15.s15_cup_y_top_k (S15.s15 p') == 128)%Q.
Proof.
  intros p'.
  destruct (S15_Controls_keep_params_in_range S15.Field_s15_cup_y_top_k (500 # 1)
                                              S15.DEFAULT_PARAMS)
    as (H & _).
  - unfold S15_params_in_range, general_in_range. vm_compute. intuition discriminate.
  - split; [exact H | reflexivity].
Defined.

(* ====================================================================== *)
(** ** The S15 format: promotion to the TPC *)

(** The S15 Regional of the second file is the shared body at its own
    parameters: its [tierRun] is called without [fixedYTopK]. *)
Lemma S15_runS15Regional48_eq {T : Type} `{NT : Number T}
    (rand : nat -> T) (cfg : S15.Params) (st : Sim (T:=T)) :
  S15.runS15Regional48 rand cfg st
  = regional48 rand (S15.z_s15_reg cfg) (S15.y_s15_reg cfg) st.
Proof. reflexivity. Qed.

Section SortedAgain.
Context {A : Type} (before : A -> A -> bool).

(** Sorting a sorted array again changes nothing. *)
Lemma js_sort_sorted_id (l : list A) :
  StronglySorted (fun a b => before b a = false) l -> js_sort before l = l.
Proof.
  induction 1 as [|x l Hs IH Hx]; [reflexivity|].
  cbn [js_sort foldr]. change (foldr (sort_insert before) [] l) with (js_sort before l).
  rewrite IH. destruct l as [|y l]; [reflexivity|]. cbn [sort_insert].
  inversion Hx as [|? ? Hy _]; subst. rewrite Hy. reflexivity.
Qed.

End SortedAgain.

Section Promotion.
Context {T : Type} `{NT : Number T}.

(** The last record of a history that ends with an S15 Regional is that
    Regional. *)
Lemma find_last_s15 (h : list (Event (T:=T))) (idxs : list nat) rows res :
  List.find (fun e => String.eqb (ev_type e) "s15_regional")
            (rev (h ++ [EvTier "s15_regional" idxs rows res]))
  = Some (EvTier "s15_regional" idxs rows res).
Proof. rewrite rev_app_distr. reflexivity. Qed.

(** The identifiers read back from a mapped roster are its indexes. *)
Lemma mapE_roster_index (l : list nat) (s : nat) :
  mapE S15.roster_index (Z.of_nat <$> l) s = Some (l, s).
Proof.
  induction l as [|x l IH]; [reflexivity|].
  cbn [fmap list_fmap mapE]. unfold bind at 1. unfold S15.roster_index at 1.
  destruct (Z.leb_spec 0 (Z.of_nat x)) as [_|Hneg]; [|lia].
  unfold ret at 1. unfold bind at 1.
  change (mapE S15.roster_index (list_fmap nat Z Z.of_nat l) s)
    with (mapE S15.roster_index (Z.of_nat <$> l) s).
  rewrite IH, Nat2Z.id. reflexivity.
Qed.

(** The table of a sorted event, sorted again, and its first 32 rows. *)
Lemma top32_of_table (perf : list T) (idxs : list nat) (res : TierResult)
    (next : list (Player (T:=T))) :
  ranks res = (rankBy perf).2 -> order res = (rankBy perf).1 ->
  length perf = length idxs ->
  row_playerId <$> take 32 (js_sort rank_before
                              (js_sort rank_before (imap (row_of res next) idxs)))
  = Z.of_nat <$> ((fun j => default 0%nat (idxs !! j)) <$> take 32 (order res)).
Proof.
  intros Hr Ho Hl.
  rewrite (sorted_rows perf idxs res next Hr Ho Hl).
  rewrite js_sort_sorted_id.
  - rewrite <- !fmap_take, <- !list_fmap_compose. apply list_fmap_ext.
    intros i j _. reflexivity.
  - apply StronglySorted_of_lookup. intros i j a b Hij Ha Hb.
    rewrite list_lookup_fmap in Ha, Hb.
    destruct (order res !! i) as [ji|] eqn:Ei; cbn in Ha; inversion Ha; subst a.
    destruct (order res !! j) as [jj|] eqn:Ej; cbn in Hb; inversion Hb; subst b.
    rewrite Ho in Ei, Ej. apply rankBy_inverse in Ei, Ej.
    unfold rank_before, row_of. cbn [row_rank]. rewrite Hr, Ei, Ej. cbn.
    apply Nat.ltb_ge. lia.
Qed.

End Promotion.

(** X26. S15 format: after [runS15Regional48], [getCurrentTPCPros]
    returns the participants ranked 1 to 32 in that Regional (all of them
    when fewer than 32 took part), in rank order. *)
Theorem S15_regional_promotes_its_top32 {T : Type} `{NT : Number T}
    (rand : nat -> T) (cfg : S15.Params) (st : Sim (T:=T)) (s : nat)
    (proIdxs top16 : list nat) :
  getProIdxsFromLastRegional32 st s = Some (proIdxs, s) ->
  nonProTop16 (players st) proIdxs s = Some (top16, s) ->
  Forall (fun pi => (pi < length (players st))%nat) (proIdxs ++ top16) ->
  let idxs := proIdxs ++ top16 in
  exists st' s' rows res pros,
    S15.runS15Regional48 rand cfg st s = Some (st', s') /\
    history st' = history st ++ [EvTier "s15_regional" idxs rows res] /\
    S15.getCurrentTPCPros st' s' = Some (Z.of_nat <$> pros, s') /\
    length pros = Nat.min 32 (length idxs) /\
    (forall k pi,
        pros !! k = Some pi <->
        (k < 32)%nat /\ exists j, idxs !! j = Some pi /\ ranks res !! j = Some (Some (S k))).
Proof.
  intros Hpro Htop Hvalid idxs.
  destruct (regional48_run rand (S15.z_s15_reg cfg) (S15.y_s15_reg cfg) st s proIdxs top16
                           Hpro Htop Hvalid)
    as (res & next & rows & Hrun & Hspec & Hnl & _ & Hrows & _).
  rewrite <- S15_runS15Regional48_eq in Hrun.
  fold idxs in Hrun, Hspec, Hrows.
  rewrite rosterRows_eq in Hrows by (rewrite Hnl; exact Hvalid).
  inversion Hrows as [Erows]. clear Hrows.
  destruct Hspec as [ents perf Hv Hl Ho Hr _ _ _ _ _ _ _].
  set (pros := (fun j => default 0%nat (idxs !! j)) <$> take 32 (order res)).
  eexists _, _, rows, res, pros.
  split; [exact Hrun|]. split; [reflexivity|].
  split.
  { unfold S15.getCurrentTPCPros. cbn [history]. rewrite find_last_s15. cbn [ev_rows].
    unfold ret. rewrite <- Erows.
    rewrite (top32_of_table perf idxs res next Hr Ho Hl). reflexivity. }
  split.
  { unfold pros. rewrite length_fmap, length_take, Ho, rankBy_order_length, Hl. reflexivity. }
  intros k pi. unfold pros. rewrite list_lookup_fmap. split.
  - intros H. destruct (take 32 (order res) !! k) as [j|] eqn:Ek; [|discriminate].
    apply lookup_take_Some in Ek as (Ek & Hk).
    split; [exact Hk|]. exists j.
    pose proof Ek as Ej. rewrite Ho in Ej. pose proof (rankBy_order_lt perf k j Ej) as Hlt.
    destruct (lookup_lt_is_Some_2 idxs j ltac:(lia)) as [pi' Hpi'].
    cbn in H. rewrite Hpi' in H. cbn in H. inversion H; subst pi'.
    split; [exact Hpi'|]. rewrite Hr. apply rankBy_inverse. exact Ej.
  - intros (Hk & j & Hj & Hrk).
    rewrite Hr in Hrk. apply rankBy_inverse in Hrk. rewrite <- Ho in Hrk.
    rewrite lookup_take_lt by exact Hk. rewrite Hrk. cbn. rewrite Hj. reflexivity.
Qed.

Lemma S15_regional_promotes_its_top32_witness :
  let st := mkSim demo_config ((fun i => mkPlayer (Z.of_nat i) 0%Q (100 # 1)%Q) <$> seq 0 50)
                  "idle" [] in
  let cfg := S15.mkParams (100 # 1) (4 # 1) (8 # 1) (3 # 1) (150 # 1) (5 # 1) (80 # 1) in
  exists st' s' rows res pros,
    S15.runS15Regional48 demo_rand cfg st 0 = Some (st', s') /\
    history st' = history st ++ [EvTier "s15_regional" (seq 0 32 ++ seq 32 16) rows res] /\
    S15.getCurrentTPCPros st' s' = Some (Z.of_nat <$> pros, s') /\
    length pros = 32%nat.
Proof.
  intros st cfg.
  destruct (S15_regional_promotes_its_top32 demo_rand cfg st 0 (seq 0 32) (seq 32 16))
    as (st' & s' & rows & res & pros & Hrun & Hh & Hget & Hlen & _).
  - vm_compute. reflexivity.
  - vm_compute. reflexivity.
  - apply Forall_forall. intros i Hi. apply list_elem_of_In in Hi.
    apply in_app_or in Hi. vm_compute. destruct Hi as [Hi|Hi]; apply in_seq in Hi; lia.
  - exists st', s', rows, res, pros.
    split; [exact Hrun|]. split; [exact Hh|]. split; [exact Hget | exact Hlen].
Defined.

(** X27. S15 format, for any number type: [runTPC] settles exactly the
    players that [getCurrentTPCPros] returns (when they are in the
    roster), appends one "tpc" record with a row for each, leaves the
    other players untouched, and every participant records the bonus
    [y_s15_tpc]. *)
Theorem S15_runTPC_settles_current_pros {T : Type} `{NT : Number T}
    (rand : nat -> T) (cfg : S15.Params (T:=T))
    (tpcRound : Z) (st : Sim (T:=T)) (s : nat) (proIds : list Z) :
  S15.getCurrentTPCPros st s = Some (proIds, s) ->
  Forall (fun pid => (0 <= pid < Z.of_nat (length (players st)))%Z) proIds ->
  let proIdxs := Z.to_nat <$> proIds in
  exists st' rows res,
    S15.runTPC rand cfg tpcRound st s = Some (st', (s + 3 * length proIds)%nat) /\
    params st' = params st /\
    stage st' = label "tpc" tpcRound /\
    history st' = history st ++ [EvTier "tpc" proIdxs rows res] /\
    length rows = length proIds /\
    length (players st') = length (players st) /\
    (forall i, i ∉ proIdxs -> players st' !! i = players st !! i) /\
    fixedY res = replicate (length proIds) (S15.y_s15_tpc cfg).
Proof.
  intros Hpro Hids proIdxs.
  assert (Eids : proIds = Z.of_nat <$> proIdxs).
  { unfold proIdxs. rewrite <- list_fmap_compose.
    clear -Hids. induction Hids as [|x l Hx _ IH]; [reflexivity|].
    cbn [fmap list_fmap]. unfold compose at 1. rewrite Z2Nat.id by lia. f_equal. exact IH. }
  assert (Hlen : length proIdxs = length proIds) by (unfold proIdxs; apply length_fmap).
  assert (Hvalid : Forall (fun pi => (pi < length (players st))%nat) proIdxs).
  { unfold proIdxs. apply Forall_fmap. eapply Forall_impl; [exact Hids|].
    cbn. intros x Hx. lia. }
  destruct (roster_event rand proIdxs (players st) (S15.z_s15_tpc cfg) (S15.y_s15_tpc cfg)
                         (weightsTPC (length proIdxs)) false s Hvalid)
    as (res & next & rows & Hrun & Hspec & Hnl & Hother & Hrows & Hrl).
  rewrite tierRun_legacy_eq in Hrun.
  exists (mkSim (params st) next (label "tpc" tpcRound)
                (history st ++ [EvTier "tpc" proIdxs rows res])), rows, res.
  split.
  { unfold S15.runTPC. unfold bind at 1. rewrite Hpro.
    unfold bind at 1. rewrite Eids at 1. rewrite mapE_roster_index.
    unfold bind at 1. rewrite Hrun. unfold bind at 1. rewrite Hrows.
    rewrite Hlen. reflexivity. }
  split; [reflexivity|]. split; [reflexivity|]. split; [reflexivity|].
  split; [rewrite Hrl; exact Hlen|]. split; [exact Hnl|]. split; [exact Hother|].
  rewrite (tier_spec_all_paid _ _ _ _ _ _ _ Hspec), Hlen. reflexivity.
Qed.

Lemma S15_runTPC_settles_current_pros_witness :
  exists st' rows res,
    S15.runTPC demo_rand demo_s15_params 1 demo_after_s15 0
    = Some (st', (0 + 3 * length demo_s15_pros)%nat) /\
    history st' = history demo_after_s15 ++ [EvTier "tpc" (Z.to_nat <$> demo_s15_pros) rows res] /\
    length rows = 32%nat /\
    fixedY res = replicate 32 (S15.y_s15_tpc demo_s15_params).
Proof.
  destruct (S15_runTPC_settles_current_pros demo_rand demo_s15_params 1 demo_after_s15 0
                                            demo_s15_pros)
    as (st' & rows & res & Hrun & _ & _ & Hh & Hrl & _ & _ & HY).
  - vm_compute. reflexivity.
  - apply Forall_forall. intros pid Hpid. apply list_elem_of_In in Hpid.
    revert pid Hpid. apply List.Forall_forall. vm_compute.
    repeat (constructor; [split; [discriminate | reflexivity]|]). constructor.
  - exists st', rows, res. split; [exact Hrun|]. split; [exact Hh|].
    split; [exact Hrl | exact HY].
Defined.
